(** * boomer: a shallow embedding of the load generator and its report

    The development follows the two Go files of the package:
    - [boomer.go]: the [result] record, the worker body, the enqueue loop
      and [cloneRequest];
    - the report file: [newReport], [finalize], [print], [printLatencies],
      [printHistogram], [printStatusCodes], [printErrors].

    Go's [int], [int64] and [time.Duration] are 64-bit two's complement
    integers: they are modelled in [Z] with the wrap-around written out.
    Go's [float64] is IEEE 754 binary64: it is modelled by Rocq's primitive
    floats, which are the same format with the same rounding.  Maps are
    stdpp's [gmap]; a map or slice field that may be [nil] is an [option]. *)

From Stdlib Require Import ZArith Floats List Lia Permutation.
From stdpp Require Import gmap strings list fin_maps pretty sorting.

Local Open Scope Z_scope.

(** ** Go integers *)

Module GoInt.

(** Interpretation of an unbounded integer as a 64-bit signed one. *)
Definition wrap (z : Z) : Z := (z + 2 ^ 63) mod 2 ^ 64 - 2 ^ 63.

Definition add (x y : Z) : Z := wrap (x + y).
Definition mul (x y : Z) : Z := wrap (x * y).
(** Go's [/] on integers truncates towards zero. *)
Definition quo (x y : Z) : Z := wrap (Z.quot x y).
Definition rem (x y : Z) : Z := Z.rem x y.
(** [x++] *)
Definition incr (x : Z) : Z := add x 1.

Definition max_int : Z := 2 ^ 63 - 1.

End GoInt.

(** ** Go float64 *)

Module GoFloat.

(** [float64(n)] for an integer [n] that fits 64 bits: the conversion
    rounds to the nearest float, and it is exact on the sign. *)
Definition of_int (z : Z) : float :=
  match z with
  | Z0 => 0%float
  | Zpos _ => PrimFloat.of_uint63 (Uint63.of_Z z)
  | Zneg p => (- PrimFloat.of_uint63 (Uint63.of_Z (Zpos p)))%float
  end.

(** [math.IsNaN] *)
Definition isNaN (x : float) : bool := negb (x =? x)%float.

(** The values on which [<=] is a total order with Leibniz equality as
    its equivalence: not a NaN, and not the negative zero (which [<=]
    cannot tell from the positive one). *)
Definition ordinary (x : float) : bool :=
  match Prim2SF x with
  | S754_nan => false
  | S754_zero true => false
  | _ => true
  end.

End GoFloat.

(** ** time.Duration *)

Module Duration.

Definition Nanosecond : Z := 1.
Definition Microsecond : Z := 1000 * Nanosecond.
Definition Millisecond : Z := 1000 * Microsecond.
Definition Second : Z := 1000 * Millisecond.

(** [func (d Duration) Seconds() float64] of Go's [time] package:
    [sec := d / Second; nsec := d % Second;
     return float64(sec) + float64(nsec)/1e9]. *)
Definition Seconds (d : Z) : float :=
  (GoFloat.of_int (GoInt.quo d Second)
   + GoFloat.of_int (GoInt.rem d Second) / 1e9)%float.

End Duration.

(** ** The outcome record of one request ([type result struct]) *)

Record result := mkResult {
  err : option string;      (* [nil], or the error with its [Error()] text *)
  statusCode : Z;
  duration : Z;             (* [time.Duration], nanoseconds *)
  contentLength : Z
}.

(** ** The report *)

Record ResponseTime := mkResponseTime {
  Second : float;
  Count : Z;
  BarLen : Z
}.

Record Summary := mkSummary {
  TotalSecond : float;
  SlowestSecond : float;
  FastestSecond : float;
  AverageSecond : float;
  RequestsPerSec : float;
  TotalSize : Z;
  SizePerRequest : Z
}.

(** The zero value of the embedded [Summary] struct. *)
Definition zeroSummary : Summary :=
  mkSummary 0%float 0%float 0%float 0%float 0%float 0 0.

Record ReportResult := mkReportResult {
  summary : Summary;
  StatusCodeDist : option (gmap Z Z);
  ResponseTimes : option (list ResponseTime);
  LatencyDist : option (gmap string float);
  ErrorDist : option (gmap string Z)
}.

(** [new(ReportResult)] *)
Definition newReportResult : ReportResult :=
  mkReportResult zeroSummary None None None None.

(** [type report struct]; the [results] channel is not a field here: the
    records received from it are passed to [finalize] in arrival order. *)
Record report := mkReport {
  avgTotal : float;
  fastest : float;
  slowest : float;
  average : float;
  rps : float;
  total : Z;                (* [time.Duration] *)
  errorDist : gmap string Z;
  statusCodeDist : gmap Z Z;
  lats : list float;
  sizeTotal : Z
}.

Definition newReport (total : Z) : report :=
  {| avgTotal := 0%float; fastest := 0%float; slowest := 0%float;
     average := 0%float; rps := 0%float; total := total;
     errorDist := ∅; statusCodeDist := ∅; lats := []; sizeTotal := 0 |}.

(** [m[k]++] on a map of counters: a missing key reads as zero. *)
Definition bump `{Countable K} (k : K) (m : gmap K Z) : gmap K Z :=
  <[k := GoInt.incr (default 0 (m !! k))]> m.

(** The body of [case res := <-r.results] in [finalize]. *)
Definition consume (r : report) (res : result) : report :=
  match err res with
  | Some msg =>
      {| avgTotal := avgTotal r; fastest := fastest r; slowest := slowest r;
         average := average r; rps := rps r; total := total r;
         errorDist := bump msg (errorDist r);
         statusCodeDist := statusCodeDist r; lats := lats r;
         sizeTotal := sizeTotal r |}
  | None =>
      {| avgTotal := (avgTotal r + Duration.Seconds (duration res))%float;
         fastest := fastest r; slowest := slowest r;
         average := average r; rps := rps r; total := total r;
         errorDist := errorDist r;
         statusCodeDist := bump (statusCode res) (statusCodeDist r);
         lats := lats r ++ [Duration.Seconds (duration res)];
         sizeTotal := if 0 <? contentLength res
                      then GoInt.add (sizeTotal r) (contentLength res)
                      else sizeTotal r |}
  end.

(** [len(r.lats)] as a Go [int]. *)
Definition len {A} (l : list A) : Z := Z.of_nat (length l).

(** The two assignments of the [default] branch of [finalize]. *)
Definition settle (r : report) : report :=
  {| avgTotal := avgTotal r; fastest := fastest r; slowest := slowest r;
     average := (avgTotal r / GoFloat.of_int (len (lats r)))%float;
     rps := (GoFloat.of_int (len (lats r)) / Duration.Seconds (total r))%float;
     total := total r; errorDist := errorDist r;
     statusCodeDist := statusCodeDist r; lats := lats r;
     sizeTotal := sizeTotal r |}.


(** ** sort.Float64s

    Modelled from Go's [sort] package, which is not part of the repository:
    [Float64s] sorts a slice in increasing order, with the package's
    ordering [x < y || (isNaN(x) && !isNaN(y))].  The model is the
    insertion sort with that ordering. *)

Definition float64_less (x y : float) : bool :=
  (x <? y)%float || (GoFloat.isNaN x && negb (GoFloat.isNaN y)).

Fixpoint sort_insert (x : float) (l : list float) : list float :=
  match l with
  | [] => [x]
  | y :: l' => if float64_less x y then x :: y :: l' else y :: sort_insert x l'
  end.

Definition sort_Float64s (l : list float) : list float :=
  foldr sort_insert [] l.

(** ** printLatencies *)

Definition pctls : list Z := [10; 25; 50; 75; 90; 95; 99].

(** The first loop of [printLatencies]: [rest] is [r.lats[i:]], [n] is
    [len(r.lats)]; the loop stops when either [i] reaches [n] or [j]
    reaches [len(pctls)]. *)
Fixpoint latencies_loop (n : Z) (rest : list float) (i : Z) (j : nat)
    (data : list float) : list float :=
  match rest with
  | [] => data
  | x :: rest' =>
      match pctls !! j with
      | None => data
      | Some p =>
          let current := GoInt.quo (GoInt.mul i 100) n in
          if p <=? current
          then latencies_loop n rest' (i + 1) (S j) (<[j := x]> data)
          else latencies_loop n rest' (i + 1) j data
      end
  end.

Definition latencies_data (ls : list float) : list float :=
  latencies_loop (len ls) ls 0 0 (replicate (length pctls) 0%float).

(** [fmt.Sprintf("%v%%", p)] *)
Definition percent_label (p : Z) : string := pretty p +:+ "%".

(** The second loop of [printLatencies], which fills the map. *)
Definition latencies_map (data : list float) : gmap string float :=
  fold_left
    (fun m i =>
       match pctls !! i, data !! i with
       | Some p, Some d =>
           if (0 <? d)%float then <[percent_label p := d]> m else m
       | _, _ => m
       end)
    (seq 0 (length pctls)) ∅.

Definition printLatencies (r : report) : gmap string float :=
  latencies_map (latencies_data (lats r)).

(** ** printHistogram *)

Definition bc : nat := 10.

Definition make_buckets (r : report) : list float :=
  let bs := ((slowest r - fastest r) / GoFloat.of_int (Z.of_nat bc))%float in
  map (fun i => (fastest r + bs * GoFloat.of_int (Z.of_nat i))%float) (seq 0 bc)
  ++ [slowest r].

(** The counting loop of [printHistogram].  One unit of [fuel] is one
    iteration.  When [r.lats[i]] exceeds the last bucket the source loop
    changes neither [i] nor [bi] and runs forever: that is [None], as is
    running out of fuel. *)
Fixpoint histogram_loop (fuel : nat) (ls buckets : list float) (i bi : nat)
    (counts : list Z) (max : Z) : option (list Z * Z) :=
  match fuel with
  | O => None
  | S fuel' =>
      match ls !! i with
      | None => Some (counts, max)
      | Some x =>
          if (x <=? default 0%float (buckets !! bi))%float then
            let c := GoInt.incr (default 0 (counts !! bi)) in
            histogram_loop fuel' ls buckets (S i) bi (<[bi := c]> counts)
              (if max <? c then c else max)
          else if (bi <? length buckets - 1)%nat then
            histogram_loop fuel' ls buckets i (S bi) counts max
          else None
      end
  end.

(** The loop takes at most one iteration per latency and one per bucket
    boundary. *)
Definition histogram_fuel (ls buckets : list float) : nat :=
  S (length ls + length buckets).

(** The second loop of [printHistogram]: the normalised bars. *)
Definition histogram_bars (buckets : list float) (counts : list Z) (max : Z)
    : list ResponseTime :=
  map (fun i =>
         let c := default 0 (counts !! i) in
         {| Second := default 0%float (buckets !! i);
            Count := c;
            BarLen := if 0 <? max then GoInt.quo (GoInt.mul c 40) max else 0 |})
      (seq 0 (length buckets)).

Definition printHistogram (r : report) : option (list ResponseTime) :=
  let buckets := make_buckets r in
  match histogram_loop (histogram_fuel (lats r) buckets) (lats r) buckets
          0 0 (replicate (S bc) 0) 0 with
  | Some (counts, max) => Some (histogram_bars buckets counts max)
  | None => None
  end.

(** ** print and finalize *)

Definition with_sorted_lats (r : report) : report :=
  {| avgTotal := avgTotal r; fastest := fastest r; slowest := slowest r;
     average := average r; rps := rps r; total := total r;
     errorDist := errorDist r; statusCodeDist := statusCodeDist r;
     lats := sort_Float64s (lats r); sizeTotal := sizeTotal r |}.

(** [r.fastest = r.lats[0]; r.slowest = r.lats[len(r.lats)-1]] *)
Definition with_extremes (r : report) : report :=
  {| avgTotal := avgTotal r;
     fastest := default 0%float (head (lats r));
     slowest := default 0%float (last (lats r));
     average := average r; rps := rps r; total := total r;
     errorDist := errorDist r; statusCodeDist := statusCodeDist r;
     lats := lats r; sizeTotal := sizeTotal r |}.

Definition print_summary (r : report) : Summary :=
  {| TotalSecond := Duration.Seconds (total r);
     SlowestSecond := slowest r;
     FastestSecond := fastest r;
     AverageSecond := average r;
     RequestsPerSec := rps r;
     TotalSize := if 0 <? sizeTotal r then sizeTotal r else 0;
     SizePerRequest :=
       if 0 <? sizeTotal r then GoInt.quo (sizeTotal r) (len (lats r)) else 0 |}.

(** [if len(r.errorDist) > 0 { r.printErrors(result) }] *)
Definition print_errors (r : report) : option (gmap string Z) :=
  if (0 <? size (errorDist r))%nat then Some (errorDist r) else None.

(** [print]; [None] when the histogram loop does not terminate. *)
Definition print (r0 : report) : option ReportResult :=
  let r1 := with_sorted_lats r0 in
  if (0 <? length (lats r1))%nat then
    let r := with_extremes r1 in
    match printHistogram r with
    | Some bars =>
        Some {| summary := print_summary r;
                StatusCodeDist := Some (statusCodeDist r);
                ResponseTimes := Some bars;
                LatencyDist := Some (printLatencies r);
                ErrorDist := print_errors r |}
    | None => None
    end
  else
    Some {| summary := zeroSummary;
            StatusCodeDist := None;
            ResponseTimes := None;
            LatencyDist := None;
            ErrorDist := print_errors r1 |}.

(** The receive branch of [finalize], once for each buffered record. *)
Definition drain (r : report) (buffered : list result) : report :=
  fold_left consume buffered r.

(** [finalize] on a channel that holds [buffered] and gets nothing more:
    the [select] takes the receive branch while a record is buffered, and
    the [default] branch after the last one. *)
Definition finalize (r : report) (buffered : list result) : option ReportResult :=
  print (settle (drain r buffered)).

(** * boomer.go *)

(** ** The store

    Requests, header maps, the backing arrays of [[]string] values and body
    readers are Go objects with identity: they live in a store, at
    locations, and a pointer, map or slice value holds a location.
    Location [0] is [nil]. *)

Abbreviation loc := nat (only parsing).

(** A [[]string] value: pointer, length and capacity.  The pointer is a
    location of a backing array together with an offset into it. *)
Record slice := mkSlice {
  s_arr : loc;
  s_off : nat;
  s_len : nat;
  s_cap : nat
}.

Definition nil_slice : slice := mkSlice 0%nat 0%nat 0%nat 0%nat.

(** Modelled from Go's [net/http] package, which declares the type: the
    fields of [http.Request] (here [http_Request]).  Strings, integers and booleans are values;
    [URL], [MultipartForm] and [TLS] are pointers; [Header], [Trailer],
    [Form] and [PostForm] are maps; [Body] is an interface holding a
    pointer; [TransferEncoding] is a slice. *)
Record http_Request := mkRequest {
  Method : string;
  URL : loc;
  Proto : string;
  ProtoMajor : Z;
  ProtoMinor : Z;
  Header : loc;
  Body : loc;
  ContentLength : Z;
  TransferEncoding : slice;
  Close : bool;
  Host : string;
  Form : loc;
  PostForm : loc;
  MultipartForm : loc;
  Trailer : loc;
  RemoteAddr : string;
  RequestURI : string;
  TLS : loc
}.

(** An [io.ReadCloser]: what is left to read from it. *)
Record reader := mkReader { remaining : string }.

Record store := mkStore {
  requests : gmap loc http_Request;
  headers : gmap loc (gmap string slice);
  arrays : gmap loc (list string);
  readers : gmap loc reader;
  next : loc
}.

Definition set_requests (f : gmap loc http_Request → gmap loc http_Request) (h : store) :=
  mkStore (f (requests h)) (headers h) (arrays h) (readers h) (next h).
Definition set_headers
    (f : gmap loc (gmap string slice) → gmap loc (gmap string slice)) (h : store) :=
  mkStore (requests h) (f (headers h)) (arrays h) (readers h) (next h).
Definition set_arrays (f : gmap loc (list string) → gmap loc (list string)) (h : store) :=
  mkStore (requests h) (headers h) (f (arrays h)) (readers h) (next h).
Definition set_readers (f : gmap loc reader → gmap loc reader) (h : store) :=
  mkStore (requests h) (headers h) (arrays h) (f (readers h)) (next h).

(** A fresh location. *)
Definition fresh (h : store) : loc * store :=
  (next h, mkStore (requests h) (headers h) (arrays h) (readers h) (S (next h))).

Definition set_Header (m : loc) (r : http_Request) : http_Request :=
  mkRequest (Method r) (URL r) (Proto r) (ProtoMajor r) (ProtoMinor r) m (Body r)
    (ContentLength r) (TransferEncoding r) (Close r) (Host r) (Form r)
    (PostForm r) (MultipartForm r) (Trailer r) (RemoteAddr r) (RequestURI r)
    (TLS r).

Definition set_Body (b : loc) (r : http_Request) : http_Request :=
  mkRequest (Method r) (URL r) (Proto r) (ProtoMajor r) (ProtoMinor r)
    (Header r) b (ContentLength r) (TransferEncoding r) (Close r) (Host r)
    (Form r) (PostForm r) (MultipartForm r) (Trailer r) (RemoteAddr r)
    (RequestURI r) (TLS r).

(** The elements [s[0], ..., s[len(s)-1]] of a slice. *)
Definition slice_elems (h : store) (s : slice) : list string :=
  take (s_len s) (drop (s_off s) (default [] (arrays h !! s_arr s))).

(** The entries of a header map; a [nil] map reads as the empty map. *)
Definition header_entries (h : store) (m : loc) : gmap string slice :=
  default ∅ (headers h !! m).

(** What a reader of the map sees: the values under each key. *)
Definition header_view (h : store) (m : loc) : gmap string (list string) :=
  slice_elems h <$> header_entries h m.

Section Boomer.

(** The capacity the runtime gives an array that [append] allocates for
    [n] elements.  Go leaves it open beyond "at least [n]"; the model takes
    the larger of [n] and [growcap n]. *)
Variable growcap : nat → nat.

(** A new backing array holding [xs], and the slice over it. *)
Definition alloc_array (h : store) (xs : list string) : slice * store :=
  let '(a, h1) := fresh h in
  let c := Nat.max (length xs) (growcap (length xs)) in
  (mkSlice a 0%nat (length xs) c,
   set_arrays <[a := xs ++ replicate (c - length xs) EmptyString]> h1).

(** [append(s, vs...)]: in place when the capacity allows, in a new
    array otherwise. *)
Definition slice_append (h : store) (s : slice) (vs : list string) : slice * store :=
  if (s_len s + length vs <=? s_cap s)%nat then
    (mkSlice (s_arr s) (s_off s) (s_len s + length vs) (s_cap s),
     set_arrays
       (alter (list_inserts (s_off s + s_len s) vs) (s_arr s)) h)
  else alloc_array h (slice_elems h s ++ vs).

(** One iteration of [for k, s := range r.Header]:
    [r2.Header[k] = append([]string(nil), s...)], with [m] the map of
    [r2]. *)
Definition clone_entry (m : loc) (h : store) (ks : string * slice) : store :=
  let '(s', h1) := slice_append h nil_slice (slice_elems h ks.2) in
  set_headers (alter <[ks.1 := s']> m) h1.

(** [cloneRequest]; [None] is the panic on a [nil] request pointer. *)
Definition cloneRequest (h : store) (r : loc) (body : string) : option (loc * store) :=
  match requests h !! r with
  | None => None
  | Some req =>
      (* r2 := new(http.Request); *r2 = *r *)
      let '(r2, h1) := fresh h in
      let h2 := set_requests <[r2 := req]> h1 in
      (* r2.Header = make(http.Header, len(r.Header)) *)
      let '(m, h3) := fresh h2 in
      let h4 := set_headers <[m := ∅]> h3 in
      let h5 := set_requests (alter (set_Header m) r2) h4 in
      (* for k, s := range r.Header { ... } *)
      let h6 := fold_left (clone_entry m) (map_to_list (header_entries h (Header req))) h5 in
      (* r2.Body = ioutil.NopCloser(strings.NewReader(body)) *)
      let '(b, h7) := fresh h6 in
      let h8 := set_readers <[b := mkReader body]> h7 in
      Some (r2, set_requests (alter (set_Body b) r2) h8)
  end.

(** ** Writes through a header map

    The statements by which Go code changes a [http.Header] [h]:
    - [h[k] = []string{v1, ...}] (what [Header.Set] does);
    - [h[k] = append(h[k], v)] (what [Header.Add] does);
    - [delete(h, k)] (what [Header.Del] does);
    - [h[k][i] = v]. *)
Inductive header_op :=
| MapAssign (k : string) (vs : list string)
| MapAppend (k : string) (v : string)
| MapDelete (k : string)
| ElemAssign (k : string) (i : nat) (v : string).

(** One statement on the map at [m]; [None] is a panic (an entry assigned
    in a [nil] map, an index out of range). *)
Definition header_write (m : loc) (h : store) (op : header_op) : option store :=
  match headers h !! m with
  | None =>
      match op with
      | MapDelete _ => Some h
      | _ => None
      end
  | Some hm =>
      match op with
      | MapAssign k vs =>
          let '(s, h1) := alloc_array h vs in
          Some (set_headers (alter <[k := s]> m) h1)
      | MapAppend k v =>
          let '(s, h1) := slice_append h (default nil_slice (hm !! k)) [v] in
          Some (set_headers (alter <[k := s]> m) h1)
      | MapDelete k => Some (set_headers (alter (delete k) m) h)
      | ElemAssign k i v =>
          let s := default nil_slice (hm !! k) in
          if (i <? s_len s)%nat
          then Some (set_arrays (alter <[(s_off s + i)%nat := v]> (s_arr s)) h)
          else None
      end
  end.

Fixpoint header_writes (m : loc) (h : store) (ops : list header_op) : option store :=
  match ops with
  | [] => Some h
  | op :: ops' =>
      match header_write m h op with
      | Some h' => header_writes m h' ops'
      | None => None
      end
  end.

(** ** The transport

    [client.Do(req)] belongs to [net/http]: it answers with a response or
    with an error.  Of a response the worker reads [StatusCode] and
    [ContentLength], and with [ReadAll] it copies [Body] to
    [ioutil.Discard], which may fail. *)
Record Response := mkResponse {
  StatusCode : Z;
  RespContentLength : Z;
  BodyReadError : option string   (* the error of [io.Copy], if any *)
}.

Inductive exchange :=
| Responded (resp : Response)
| Refused (msg : string).

(** [type Boomer struct], without the [results] channel, which is part of
    the run's state below. *)
Record Boomer := mkBoomer {
  Request : loc;
  RequestBody : string;
  N : Z;
  C : Z;
  Timeout : Z;
  Qps : Z;
  AllowInsecure : bool;
  DisableCompression : bool;
  DisableKeepAlives : bool;
  ProxyAddr : loc;
  ReadAll : bool
}.

(** [t.Sub(s)] of Go's [time] package: the difference of two clock
    readings in nanoseconds, kept within the range of a [Duration]. *)
Definition time_Sub (t s : Z) : Z :=
  Z.max (- 2 ^ 63) (Z.min GoInt.max_int (t - s)).

(** Lines 89 to 100 of [runWorker]: the values of [err], [code] and
    [size] once the exchange is over. *)
Definition observe (b : Boomer) (x : exchange) : option string * Z * Z :=
  match x with
  | Responded resp =>
      (if ReadAll b then BodyReadError resp else None,
       StatusCode resp, RespContentLength resp)
  | Refused msg => (Some msg, 0, 0)
  end.

(** The record of lines 104 to 109, built at clock reading [now] for a job
    started at [s]. *)
Definition outcome (s now : Z) (o : option string * Z * Z) : result :=
  {| err := o.1.1; statusCode := o.1.2; duration := time_Sub now s;
     contentLength := o.2 |}.

(** ** The run as a transition system

    [Run] starts [C] worker goroutines beside the main one.  A state holds
    the store, the two channels, the wait group's counter, the ticker's
    channel and the place each goroutine is at. *)

Inductive worker_pc :=
| WIdle                                   (* at [for req := range ch] *)
| WBusy (req : loc) (s : Z)               (* in [client.Do(req)] *)
| WSignal (s : Z) (o : option string * Z * Z)   (* before [wg.Done()] *)
| WSend (s : Z) (o : option string * Z * Z)     (* before [b.results <- ...] *)
| WExit.                                  (* the job channel is closed and empty *)

Inductive main_pc :=
| MEnqueue (i : Z)                        (* at the head of the enqueue loop *)
| MWait                                   (* at [wg.Wait()] *)
| MDrain (r : report)                     (* at the [select] of [finalize] *)
| MFinal (rr : ReportResult)              (* before [close(b.results)] *)
| MReturned (rr : ReportResult).          (* [Run] has returned [rr] *)

Record state := mkState {
  st_store : store;
  st_start : Z;                           (* [start := time.Now()] *)
  st_main : main_pc;
  st_workers : list worker_pc;
  jobsch : list loc;
  jobsch_closed : bool;
  results : list result;
  results_closed : bool;
  wg : Z;
  tick : bool;                            (* a tick is waiting in [throttle] *)
  panicked : bool
}.

(** [time.Tick(d)] of Go's [time] package gives [nil] when [d <= 0]. *)
Definition time_Tick (d : Z) : option Z :=
  if d <=? 0 then None else Some d.

(** [throttle] after lines 117 to 120: [None] is the [nil] channel. *)
Definition throttle (b : Boomer) : option Z :=
  if 0 <? Qps b
  then time_Tick (GoInt.mul (GoInt.quo 1000000 (Qps b)) Duration.Microsecond)
  else None.

(** The state after [wg.Add(b.N)], the two [make(chan ..., b.N)] and the
    [go b.runWorker(...)] statements. *)
Definition init (b : Boomer) (h : store) (start : Z) : state :=
  {| st_store := h; st_start := start; st_main := MEnqueue 0;
     st_workers := replicate (Z.to_nat (C b)) WIdle;
     jobsch := []; jobsch_closed := false;
     results := []; results_closed := false;
     wg := N b; tick := false; panicked := false |}.

Definition set_main (pc : main_pc) (s : state) : state :=
  mkState (st_store s) (st_start s) pc (st_workers s) (jobsch s)
    (jobsch_closed s) (results s) (results_closed s) (wg s) (tick s) (panicked s).
Definition set_worker (w : nat) (pc : worker_pc) (s : state) : state :=
  mkState (st_store s) (st_start s) (st_main s) (<[w := pc]> (st_workers s))
    (jobsch s) (jobsch_closed s) (results s) (results_closed s) (wg s) (tick s)
    (panicked s).
Definition set_jobsch (q : list loc) (closed : bool) (s : state) : state :=
  mkState (st_store s) (st_start s) (st_main s) (st_workers s) q closed
    (results s) (results_closed s) (wg s) (tick s) (panicked s).
Definition set_results (q : list result) (closed : bool) (s : state) : state :=
  mkState (st_store s) (st_start s) (st_main s) (st_workers s) (jobsch s)
    (jobsch_closed s) q closed (wg s) (tick s) (panicked s).
Definition set_wg (n : Z) (s : state) : state :=
  mkState (st_store s) (st_start s) (st_main s) (st_workers s) (jobsch s)
    (jobsch_closed s) (results s) (results_closed s) n (tick s) (panicked s).
Definition set_tick (t : bool) (s : state) : state :=
  mkState (st_store s) (st_start s) (st_main s) (st_workers s) (jobsch s)
    (jobsch_closed s) (results s) (results_closed s) (wg s) t (panicked s).
Definition set_store (h : store) (s : state) : state :=
  mkState h (st_start s) (st_main s) (st_workers s) (jobsch s)
    (jobsch_closed s) (results s) (results_closed s) (wg s) (tick s) (panicked s).
Definition panic (s : state) : state :=
  mkState (st_store s) (st_start s) (st_main s) (st_workers s) (jobsch s)
    (jobsch_closed s) (results s) (results_closed s) (wg s) (tick s) true.

(** [jobsch <- cloneRequest(b.Request, b.RequestBody)] and [i++]. *)
Definition enqueue (b : Boomer) (i : Z) (s : state) : state :=
  match cloneRequest (st_store s) (Request b) (RequestBody b) with
  | None => panic s
  | Some (r2, h) =>
      set_main (MEnqueue (i + 1))
        (set_jobsch (jobsch s ++ [r2]) (jobsch_closed s) (set_store h s))
  end.

(** One step of the main goroutine; [None] when it is blocked, or has
    returned.  [now] is the clock, read where the code reads it. *)
Definition main_step (b : Boomer) (now : Z) (s : state) : option state :=
  match st_main s with
  | MEnqueue i =>
      if i <? N b then
        if 0 <? Qps b then
          (* [<-throttle]: a [nil] channel never delivers *)
          match throttle b with
          | None => None
          | Some _ => if tick s then Some (enqueue b i (set_tick false s)) else None
          end
        else Some (enqueue b i s)
      else
        (* [close(jobsch)] *)
        Some (set_main MWait (set_jobsch (jobsch s) true s))
  | MWait =>
      (* [wg.Wait()], then [newReport(b.N, b.results, time.Now().Sub(start))] *)
      if wg s =? 0
      then Some (set_main (MDrain (newReport (time_Sub now (st_start s)))) s)
      else None
  | MDrain r =>
      match results s with
      | res :: rest =>
          Some (set_main (MDrain (consume r res)) (set_results rest (results_closed s) s))
      | [] =>
          match print (settle r) with
          | Some rr => Some (set_main (MFinal rr) s)
          | None => None
          end
      end
  | MFinal rr =>
      (* [close(b.results)]; [return result] *)
      Some (set_main (MReturned rr) (set_results (results s) true s))
  | MReturned _ => None
  end.

(** One step of worker [w]; [x] is what the transport answers, used by
    the step that waits for it. *)
Definition worker_step (b : Boomer) (w : nat) (now : Z) (x : exchange)
    (s : state) : option state :=
  match st_workers s !! w with
  | None => None
  | Some WIdle =>
      match jobsch s with
      | req :: rest =>
          Some (set_worker w (WBusy req now) (set_jobsch rest (jobsch_closed s) s))
      | [] => if jobsch_closed s then Some (set_worker w WExit s) else None
      end
  | Some (WBusy req s0) => Some (set_worker w (WSignal s0 (observe b x)) s)
  | Some (WSignal s0 o) =>
      (* [wg.Done()] *)
      Some (set_worker w (WSend s0 o) (set_wg (wg s - 1) s))
  | Some (WSend s0 o) =>
      (* [b.results <- &result{...}] on a channel of capacity [b.N] *)
      if results_closed s then Some (panic s)
      else if len (results s) <? N b
      then Some (set_worker w WIdle
                   (set_results (results s ++ [outcome s0 now o]) false s))
      else None
  | Some WExit => None
  end.

Inductive action :=
| Tick                                     (* the ticker fires *)
| Main (now : Z)
| Worker (w : nat) (now : Z) (x : exchange).

(** One step of the program: a panic stops every goroutine. *)
Definition step (b : Boomer) (a : action) (s : state) : option state :=
  if panicked s then None else
  match a with
  | Tick =>
      match throttle b with
      | Some _ => Some (set_tick true s)
      | None => None
      end
  | Main now => main_step b now s
  | Worker w now x => worker_step b w now x s
  end.

(** A schedule, run from a state. *)
Fixpoint run (b : Boomer) (sched : list action) (s : state) : option state :=
  match sched with
  | [] => Some s
  | a :: sched' =>
      match step b a s with
      | Some s' => run b sched' s'
      | None => None
      end
  end.


End Boomer.

(** * Properties *)

(** ** Go integers *)

Module GoIntFacts.
Import GoInt.

Lemma wrap_small z : - 2 ^ 63 <= z < 2 ^ 63 -> wrap z = z.
Proof.
  intros Hz. unfold wrap.
  rewrite Z.mod_small by lia. lia.
Qed.

Lemma wrap_add_l x y : wrap (wrap x + y) = wrap (x + y).
Proof.
  unfold wrap.
  replace ((x + 2 ^ 63) mod 2 ^ 64 - 2 ^ 63 + y + 2 ^ 63)
    with ((x + 2 ^ 63) mod 2 ^ 64 + y) by lia.
  rewrite Zplus_mod_idemp_l.
  do 2 f_equal. lia.
Qed.

Lemma add_swap a x y : add (add a x) y = add (add a y) x.
Proof.
  unfold add. rewrite !wrap_add_l. f_equal. lia.
Qed.

Lemma incr_small x : 0 <= x < max_int -> incr x = x + 1.
Proof.
  intros Hx. unfold incr, add, max_int in *. apply wrap_small. lia.
Qed.

Lemma mul_small x y : - 2 ^ 63 <= x * y < 2 ^ 63 -> mul x y = x * y.
Proof. apply wrap_small. Qed.

Lemma quo_small x y : 0 <= x < 2 ^ 63 -> 0 < y -> quo x y = x ÷ y.
Proof.
  intros Hx Hy. unfold quo. apply wrap_small.
  rewrite Z.quot_div_nonneg by lia.
  pose proof (Z.div_pos x y ltac:(lia) Hy).
  pose proof (Z.div_le_upper_bound x y x ltac:(lia) ltac:(nia)). lia.
Qed.

End GoIntFacts.

(** ** Counters *)

Section Counters.
Context `{Countable K}.

Lemma bump_comm (k1 k2 : K) (m : gmap K Z) :
  bump k1 (bump k2 m) = bump k2 (bump k1 m).
Proof.
  unfold bump. destruct (decide (k1 = k2)) as [->|Hne]; [done|].
  rewrite !lookup_insert_ne by done.
  by apply insert_insert_ne.
Qed.

Lemma bump_nonempty (k : K) (m : gmap K Z) : bump k m ≠ ∅.
Proof. unfold bump. apply insert_non_empty. Qed.

End Counters.

(** ** The drain *)

Definition failed (res : result) : Prop := err res ≠ None.

Lemma drain_app r rs1 rs2 : drain (drain r rs1) rs2 = drain r (rs1 ++ rs2).
Proof. unfold drain. by rewrite fold_left_app. Qed.

Lemma drain_failed_frame r rs :
  Forall failed rs →
  lats (drain r rs) = lats r ∧ statusCodeDist (drain r rs) = statusCodeDist r
  ∧ sizeTotal (drain r rs) = sizeTotal r ∧ total (drain r rs) = total r.
Proof.
  intros Hall. revert r.
  induction Hall as [|res rs Hres _ IH]; intros r; [done|].
  change (drain r (res :: rs)) with (drain (consume r res) rs).
  destruct (IH (consume r res)) as (-> & -> & -> & ->).
  unfold consume. unfold failed in Hres.
  by destruct (err res).
Qed.

Lemma drain_errors_nonempty r rs :
  Forall failed rs → rs ≠ [] ∨ errorDist r ≠ ∅ → errorDist (drain r rs) ≠ ∅.
Proof.
  intros Hall. revert r.
  induction Hall as [|res rs Hres _ IH]; intros r Hne.
  - by destruct Hne.
  - change (drain r (res :: rs)) with (drain (consume r res) rs).
    apply IH. right. unfold consume. unfold failed in Hres.
    destruct (err res); [apply bump_nonempty | done].
Qed.

Lemma drain_no_failure_errors r rs :
  Forall (λ res, err res = None) rs → errorDist (drain r rs) = errorDist r.
Proof.
  intros Hall. revert r.
  induction Hall as [|res rs Hres _ IH]; intros r; [done|].
  change (drain r (res :: rs)) with (drain (consume r res) rs).
  rewrite IH. unfold consume. by rewrite Hres.
Qed.

Lemma print_errors_spec r :
  print_errors r = if decide (errorDist r = ∅) then None else Some (errorDist r).
Proof.
  unfold print_errors.
  destruct (decide (errorDist r = ∅)) as [->|Hne]; [done|].
  destruct (size (errorDist r)) eqn:Hsz; [|done].
  by apply map_size_empty_inv in Hsz.
Qed.

Lemma print_ErrorDist r rr : print r = Some rr → ErrorDist rr = print_errors r.
Proof.
  unfold print. intros Hp.
  destruct (0 <? length (lats (with_sorted_lats r)))%nat.
  - destruct (printHistogram _); by simplify_eq.
  - by simplify_eq.
Qed.

(** C9.  When every record carries an error the report is the zero
    [Summary] with no status codes, no histogram and no percentiles, and
    [ErrorDist] holds the (non-empty) error counts as soon as there is a
    record; and whenever no record carries an error, [ErrorDist] is [nil]. *)
Theorem report_of_failures (t : Z) (rs : list result) :
  (Forall failed rs →
   ∃ rr, finalize (newReport t) rs = Some rr
     ∧ summary rr = zeroSummary
     ∧ StatusCodeDist rr = None ∧ LatencyDist rr = None ∧ ResponseTimes rr = None
     ∧ ErrorDist rr
       = (if decide (rs = []) then None
          else Some (errorDist (drain (newReport t) rs)))
     ∧ (rs ≠ [] → errorDist (drain (newReport t) rs) ≠ ∅))
  ∧ (Forall (λ res, err res = None) rs →
     ∀ rr, finalize (newReport t) rs = Some rr → ErrorDist rr = None).
Proof.
  split.
  - intros Hall.
    destruct (drain_failed_frame (newReport t) rs Hall) as (Hl & _ & _ & _).
    unfold finalize, print. simpl. rewrite Hl. simpl.
    eexists. split; [done|]. simpl. repeat split; try done.
    + rewrite print_errors_spec. simpl.
      destruct (decide (rs = [])) as [->|Hne]; [done|].
      rewrite decide_False; [done|].
      apply drain_errors_nonempty; auto.
    + intros Hne. apply drain_errors_nonempty; auto.
  - intros Hall rr Hfin.
    unfold finalize in Hfin. apply print_ErrorDist in Hfin.
    rewrite Hfin, print_errors_spec. simpl.
    rewrite (drain_no_failure_errors _ _ Hall). done.
Qed.

Definition two_refusals : list result :=
  [mkResult (Some "refused") 0 5 0; mkResult (Some "refused") 0 7 0].

Definition one_success : list result := [mkResult None 200 5 0].

Lemma report_of_failures_witness :
  (Forall failed two_refusals
   ∧ ∃ rr, finalize (newReport 9) two_refusals = Some rr
       ∧ summary rr = zeroSummary ∧ ErrorDist rr = Some {[ "refused" := 2 ]})
  ∧ (Forall (λ res, err res = None) one_success
     ∧ ∃ rr, finalize (newReport 9) one_success = Some rr ∧ ErrorDist rr = None).
Proof.
  assert (Hall : Forall failed two_refusals).
  { repeat constructor; unfold failed; simpl; congruence. }
  assert (Hok : Forall (λ res, err res = None) one_success).
  { repeat constructor. }
  split; split; [exact Hall| |exact Hok|].
  - destruct (proj1 (report_of_failures 9 two_refusals) Hall)
      as (rr & Hfin & Hsum & _ & _ & _ & Herr & _).
    exists rr. split; [exact Hfin|]. split; [exact Hsum|].
    rewrite Herr. reflexivity.
  - eexists. split; [vm_compute; reflexivity|].
    apply (proj2 (report_of_failures 9 one_success) Hok).
    vm_compute. reflexivity.
Defined.

(** ** Percentiles

    The walk of [printLatencies] in the words of its description: the rank
    of the sample at index [i] among [n] is [i*100/n]; a target percentile
    takes the first sample, after the one the previous target took, whose
    rank reaches it. *)

Definition rank (n i : nat) : Z := (Z.of_nat i * 100) ÷ Z.of_nat n.

(** The first index at or after [from], below [n], whose rank reaches [p]. *)
Definition first_reaching (n : nat) (p : Z) (from : nat) : option nat :=
  find (λ i, p <=? rank n i) (seq from (n - from)).

(** The index of the sample each target of [ps] takes, walking the samples
    from [from] on; [None] for a target that takes none. *)
Fixpoint assigned_from (n : nat) (ps : list Z) (from : nat) : list (option nat) :=
  match ps with
  | [] => []
  | p :: ps' =>
      match first_reaching n p from with
      | Some i => Some i :: assigned_from n ps' (S i)
      | None => None :: assigned_from n ps' n
      end
  end.

Definition assigned (n : nat) : list (option nat) := assigned_from n pctls 0.

Lemma first_reaching_unfold n p from :
  (from < n)%nat →
  first_reaching n p from
  = if p <=? rank n from then Some from else first_reaching n p (S from).
Proof.
  intros Hlt. unfold first_reaching.
  replace (n - from)%nat with (S (n - S from)) by lia.
  simpl. by destruct (p <=? rank n from).
Qed.

Lemma first_reaching_end n p from : (n ≤ from)%nat → first_reaching n p from = None.
Proof.
  intros Hle. unfold first_reaching.
  by replace (n - from)%nat with 0%nat by lia.
Qed.

(** [first_reaching] is the least index in range whose rank reaches [p]. *)
Lemma first_reaching_Some n p from i :
  first_reaching n p from = Some i ↔
  (from ≤ i < n)%nat ∧ p <= rank n i ∧ ∀ i', (from ≤ i' < i)%nat → rank n i' < p.
Proof.
  remember (n - from)%nat as m eqn:Hm. revert from Hm.
  induction m as [|m IH]; intros from Hm.
  - rewrite first_reaching_end by lia. split; [done|]. lia.
  - rewrite first_reaching_unfold by lia.
    destruct (Z.leb_spec p (rank n from)) as [Hp|Hp].
    + split.
      * intros [= <-]. repeat split; try lia.
      * intros (Hr & Hpi & Hmin). f_equal.
        destruct (decide (from = i)) as [|Hne]; [done|].
        specialize (Hmin from ltac:(lia)). lia.
    + rewrite (IH (S from)) by lia. split.
      * intros (Hr & Hpi & Hmin). repeat split; try lia.
        intros i' Hi'. destruct (decide (i' = from)) as [->|]; [done|].
        apply Hmin. lia.
      * intros (Hr & Hpi & Hmin).
        assert (from ≠ i) by (intros ->; lia).
        repeat split; try lia. intros i' Hi'. apply Hmin. lia.
Qed.

Lemma first_reaching_None n p from :
  (∀ i, (i < n)%nat → rank n i < p) → first_reaching n p from = None.
Proof.
  intros Hnone.
  destruct (first_reaching n p from) as [i|] eqn:Hf; [|done].
  apply first_reaching_Some in Hf as (Hr & Hp & _).
  specialize (Hnone i ltac:(lia)). lia.
Qed.

Lemma assigned_from_end n ps k i :
  assigned_from n ps n !! k ≠ Some (Some i).
Proof.
  revert k. induction ps as [|p ps IH]; intros k; simpl; [by destruct k|].
  rewrite first_reaching_end by lia.
  destruct k; simpl; [done|apply IH].
Qed.

(** A target only ever takes a sample whose rank reaches it. *)
Lemma assigned_from_reaches n ps from k p i :
  ps !! k = Some p → assigned_from n ps from !! k = Some (Some i) →
  (i < n)%nat ∧ p <= rank n i.
Proof.
  revert from k. induction ps as [|q ps IH]; intros from k Hp Ha; [done|].
  simpl in Ha.
  destruct (first_reaching n q from) as [i0|] eqn:Hf.
  - destruct k as [|k]; simpl in *.
    + simplify_eq. apply first_reaching_Some in Hf. lia.
    + eapply IH; eauto.
  - destruct k as [|k]; simpl in *; [done|].
    by apply assigned_from_end in Ha.
Qed.

Lemma current_rank (n i : nat) :
  (i < n)%nat → 100 * Z.of_nat n < 2 ^ 63 →
  GoInt.quo (GoInt.mul (Z.of_nat i) 100) (Z.of_nat n) = rank n i.
Proof.
  intros Hi Hn. unfold rank.
  rewrite GoIntFacts.mul_small by lia.
  apply GoIntFacts.quo_small; lia.
Qed.

(** The loop, from any point of the walk on. *)
Lemma latencies_loop_assigned (ls : list float) (m i j : nat) (data : list float) k :
  100 * len ls < 2 ^ 63 → m = (length ls - i)%nat → (i ≤ length ls)%nat →
  latencies_loop (len ls) (drop i ls) (Z.of_nat i) j data !! k
  = if decide (k < j)%nat then data !! k
    else match assigned_from (length ls) (drop j pctls) i !! (k - j)%nat with
         | Some (Some idx) => if decide (k < length data)%nat then ls !! idx else None
         | _ => data !! k
         end.
Proof.
  intros Hn. revert i j data.
  induction m as [|m IH]; intros i j data Hm Hi.
  - rewrite drop_ge by lia. simpl.
    replace i with (length ls) by lia.
    case_decide; [done|].
    destruct (assigned_from _ _ _ !! _) as [[idx|]|] eqn:Ha; try done.
    by apply assigned_from_end in Ha.
  - destruct (drop i ls) as [|x rest] eqn:Hdrop.
    { apply (f_equal length) in Hdrop. rewrite length_drop in Hdrop. simpl in Hdrop. lia. }
    assert (Hx : ls !! i = Some x).
    { rewrite <- (Nat.add_0_r i), <- lookup_drop, Hdrop. done. }
    assert (Hrest : rest = drop (S i) ls).
    { replace (S i) with (i + 1)%nat by lia. by rewrite <- drop_drop, Hdrop. }
    simpl. unfold len at 2. 
    destruct (pctls !! j) as [p|] eqn:Hp.
    + rewrite (drop_S _ _ _ Hp). simpl.
      unfold len. rewrite current_rank by (unfold len in Hn; lia).
      rewrite first_reaching_unfold by lia.
      replace (Z.of_nat i + 1) with (Z.of_nat (S i)) by lia.
      rewrite Hrest.
      destruct (p <=? rank (length ls) i) eqn:Hreach.
      * fold (len ls). rewrite (IH (S i) (S j)) by lia.
        rewrite length_insert.
        destruct (decide (k < j)%nat).
        { rewrite decide_True by lia. apply list_lookup_insert_ne. lia. }
        destruct (decide (k = j)) as [->|Hne].
        { rewrite decide_True by lia. rewrite Nat.sub_diag. simpl.
          case_decide.
          - rewrite list_lookup_insert_eq by done. done.
          - rewrite list_insert_ge by lia. apply lookup_ge_None. lia. }
        rewrite decide_False by lia.
        replace (k - j)%nat with (S (k - S j)) by lia. simpl.
        destruct (assigned_from _ _ _ !! _) as [[idx|]|]; try done;
          apply list_lookup_insert_ne; lia.
      * fold (len ls). rewrite (IH (S i) j) by lia.
        case_decide; [done|].
        rewrite (drop_S _ _ _ Hp). simpl. done.
    + apply lookup_ge_None in Hp.
      rewrite drop_ge by done.
      by case_decide.
Qed.

Lemma latencies_data_length ls : length (latencies_data ls) = length pctls.
Proof.
  unfold latencies_data.
  assert (Hgen : ∀ n rest i j data,
    length (latencies_loop n rest i j data) = length data).
  { intros n rest. induction rest as [|x rest IH]; intros i j data; simpl; [done|].
    destruct (pctls !! j); [|done].
    destruct (_ <=? _); rewrite IH; [apply length_insert|done]. }
  rewrite Hgen. apply length_replicate.
Qed.

(** [data[j]] after the first loop: the sample the target took, or the
    zero the slice was made with. *)
Lemma latencies_data_assigned (ls : list float) j :
  100 * len ls < 2 ^ 63 → (j < length pctls)%nat →
  latencies_data ls !! j
  = Some match assigned (length ls) !! j with
         | Some (Some idx) => default 0%float (ls !! idx)
         | _ => 0%float
         end.
Proof.
  intros Hn Hj. unfold latencies_data.
  pose proof (latencies_loop_assigned ls (length ls) 0 0
                (replicate (length pctls) 0%float) j Hn) as Hloop.
  rewrite drop_0 in Hloop. change (Z.of_nat 0) with 0 in Hloop.
  rewrite Hloop by lia. clear Hloop.
  rewrite decide_False by lia. rewrite Nat.sub_0_r, drop_0.
  fold (assigned (length ls)).
  destruct (assigned (length ls) !! j) as [[idx|]|] eqn:Ha.
  - rewrite decide_True by (by rewrite length_replicate).
    assert (Hp : is_Some (pctls !! j)) by (by apply lookup_lt_is_Some).
    destruct Hp as [p Hp].
    destruct (assigned_from_reaches _ _ _ _ _ _ Hp Ha) as [Hidx _].
    apply lookup_lt_is_Some in Hidx as [x Hx]. by rewrite Hx.
  - by rewrite lookup_replicate_2.
  - by rewrite lookup_replicate_2.
Qed.

(** The labels of the seven targets are pairwise distinct. *)
Lemma percent_label_inj i j p q :
  pctls !! i = Some p → pctls !! j = Some q →
  percent_label p = percent_label q → i = j.
Proof.
  intros Hi Hj.
  do 7 (destruct i as [|i]; [do 7 (destruct j as [|j]; [simpl in *; simplify_eq; vm_compute; first [done | intros; discriminate]|]); by destruct j|]).
  by destruct i.
Qed.

Lemma latencies_map_lookup (data : list float) j p :
  pctls !! j = Some p →
  latencies_map data !! percent_label p
  = match data !! j with
    | Some d => if (0 <? d)%float then Some d else None
    | None => None
    end.
Proof.
  intros Hp. unfold latencies_map.
  set (f := λ (m : gmap string float) (i : nat), _).
  assert (Hgen : ∀ idx (m : gmap string float), NoDup idx →
    fold_left f idx m !! percent_label p
    = if decide (j ∈ idx)
      then match data !! j with
           | Some d => if (0 <? d)%float then Some d else m !! percent_label p
           | None => m !! percent_label p
           end
      else m !! percent_label p).
  { induction idx as [|i idx IH]; intros m Hnd.
    - destruct (decide (j ∈ [])) as [Hin|_]; [by apply elem_of_nil in Hin|done].
    - apply NoDup_cons in Hnd as [Hni Hnd].
      change (fold_left f (i :: idx) m) with (fold_left f idx (f m i)).
      rewrite IH by done.
      destruct (decide (i = j)) as [->|Hne].
      + destruct (decide (j ∈ idx)) as [|_]; [done|].
        destruct (decide (j ∈ j :: idx)) as [_|Hn]; [|set_solver].
        unfold f. rewrite Hp.
        destruct (data !! j) as [d|]; [|done].
        destruct (0 <? d)%float; [|done]. by rewrite lookup_insert_eq.
      + assert (Hkeep : f m i !! percent_label p = m !! percent_label p).
        { unfold f. destruct (pctls !! i) as [q|] eqn:Hq; [|done].
          destruct (data !! i) as [d|]; [|done].
          destruct (0 <? d)%float; [|done].
          apply lookup_insert_ne. intros Heq.
          apply Hne. eapply percent_label_inj; eauto. }
        rewrite Hkeep.
        destruct (decide (j ∈ idx)) as [Hin|Hnin];
          destruct (decide (j ∈ i :: idx)) as [Hin'|Hnin']; try done.
        * exfalso. apply Hnin', elem_of_cons. by right.
        * exfalso. apply elem_of_cons in Hin' as [->|Hin']; [by apply Hne|by apply Hnin]. }
  rewrite Hgen by apply NoDup_seq.
  rewrite decide_True.
  - rewrite lookup_empty. by destruct (data !! j) as [d|]; [destruct (0 <? d)%float|].
  - apply elem_of_seq. apply lookup_lt_Some in Hp. lia.
Qed.

(** C5.  [printLatencies] walks the latencies once: target [j] of
    10, 25, 50, 75, 90, 95, 99 takes the first sample, after the one target
    [j-1] took, whose rank [i*100/len] reaches it, and is reported under
    its label when that sample is positive; a target that takes no sample,
    in particular one that no sample's rank reaches, has no entry. *)
Theorem percentile_walk (r : report) (j : nat) (p : Z) :
  100 * len (lats r) < 2 ^ 63 →
  pctls !! j = Some p →
  latencies_data (lats r) !! j
  = Some match assigned (length (lats r)) !! j with
         | Some (Some i) => default 0%float (lats r !! i)
         | _ => 0%float
         end
  ∧ printLatencies r !! percent_label p
    = match assigned (length (lats r)) !! j with
      | Some (Some i) =>
          match lats r !! i with
          | Some d => if (0 <? d)%float then Some d else None
          | None => None
          end
      | _ => None
      end
  ∧ ((∀ i, (i < length (lats r))%nat → rank (length (lats r)) i < p) →
     printLatencies r !! percent_label p = None).
Proof.
  intros Hn Hp.
  assert (Hj : (j < length pctls)%nat) by (by eapply lookup_lt_Some).
  pose proof (latencies_data_assigned (lats r) j Hn Hj) as Hdata.
  assert (Hmap : printLatencies r !! percent_label p
    = match assigned (length (lats r)) !! j with
      | Some (Some i) =>
          match lats r !! i with
          | Some d => if (0 <? d)%float then Some d else None
          | None => None
          end
      | _ => None
      end).
  { unfold printLatencies. rewrite (latencies_map_lookup _ j p Hp), Hdata.
    destruct (assigned (length (lats r)) !! j) as [[i|]|] eqn:Ha; try done.
    destruct (assigned_from_reaches _ _ _ _ _ _ Hp Ha) as [Hi _].
    apply lookup_lt_is_Some in Hi as [x Hx]. by rewrite Hx. }
  split; [done|]. split; [done|].
  intros Hnone. rewrite Hmap.
  destruct (assigned (length (lats r)) !! j) as [[i|]|] eqn:Ha; try done.
  destruct (assigned_from_reaches _ _ _ _ _ _ Hp Ha) as [Hi Hreach].
  specialize (Hnone i Hi). lia.
Qed.

(** Ten samples of 1, 2, ..., 10 seconds. *)
Definition ten_samples : report :=
  mkReport 0 0 0 0 0 0 ∅ ∅
    (map (λ i, GoFloat.of_int (Z.of_nat i)) (seq 1 10)) 0.

Lemma percentile_walk_witness :
  100 * len (lats ten_samples) < 2 ^ 63
  ∧ pctls !! 2%nat = Some 50
  ∧ latencies_data (lats ten_samples) !! 2%nat = Some 6%float
  ∧ printLatencies ten_samples !! percent_label 50 = Some 6%float.
Proof.
  assert (Hn : 100 * len (lats ten_samples) < 2 ^ 63) by (vm_compute; reflexivity).
  assert (Hp : pctls !! 2%nat = Some 50) by reflexivity.
  destruct (percentile_walk ten_samples 2 50 Hn Hp) as (Hdata & Hmap & _).
  split; [exact Hn|]. split; [exact Hp|]. split.
  - rewrite Hdata. vm_compute. reflexivity.
  - rewrite Hmap. vm_compute. reflexivity.
Defined.

(** ** Histogram *)

(** Ascending order of a list of latencies: every element is [<=] itself
    (so none is a NaN) and [<=] every later one. *)
Fixpoint ascending (ls : list float) : bool :=
  match ls with
  | [] => true
  | x :: ls' =>
      (x <=? x)%float && forallb (λ y, (x <=? y)%float) ls' && ascending ls'
  end.

Definition Zsum (l : list Z) : Z := foldr Z.add 0 l.

Lemma ascending_le_last ls x :
  ascending ls = true → x ∈ ls → (x <=? default 0%float (last ls))%float = true.
Proof.
  induction ls as [|y ls IH]; intros Hasc Hin; [by apply elem_of_nil in Hin|].
  simpl in Hasc. apply andb_prop in Hasc as [Hasc Hrest].
  apply andb_prop in Hasc as [Hrefl Hall].
  destruct ls as [|z ls].
  - apply list_elem_of_singleton in Hin as ->. done.
  - change (last (y :: z :: ls)) with (last (z :: ls)).
    apply elem_of_cons in Hin as [->|Hin]; [|by apply IH].
    rewrite forallb_forall in Hall. apply Hall.
    apply list_elem_of_In.
    destruct (last (z :: ls)) as [l|] eqn:Hlast.
    + simpl. apply last_Some_elem_of in Hlast. done.
    + by apply last_None in Hlast.
Qed.

Lemma Zsum_insert (l : list Z) i old c :
  l !! i = Some old → Zsum (<[i := c]> l) = Zsum l + c - old.
Proof.
  revert i. induction l as [|y l IH]; intros i Hi; [done|].
  destruct i as [|i]; simpl in *.
  - simplify_eq. lia.
  - rewrite (IH i Hi). lia.
Qed.

Lemma Zsum_le_bound (l : list Z) m :
  Forall (λ c, 0 <= c <= m) l → Zsum l <= m * len l.
Proof.
  unfold len. induction 1 as [|c l Hc _ IH]; simpl; [lia|]. nia.
Qed.

Lemma Zsum_elem_le (l : list Z) c :
  Forall (λ c, 0 <= c) l → c ∈ l → c <= Zsum l.
Proof.
  induction 1 as [|y l Hy Hall IH]; intros Hin; [by apply elem_of_nil in Hin|].
  assert (0 <= Zsum l).
  { clear -Hall. induction Hall; simpl; lia. }
  apply elem_of_cons in Hin as [->|Hin]; simpl; [lia|].
  specialize (IH Hin). lia.
Qed.

(** The state of the counting loop between two iterations. *)
Record histogram_inv (ls : list float) (nb i bi : nat) (counts : list Z) (max : Z)
    : Prop := {
  inv_bi : (bi < nb)%nat;
  inv_len : length counts = nb;
  inv_range : Forall (λ c, 0 <= c <= max) counts;
  inv_sum : Zsum counts = Z.of_nat i;
  inv_i : (i ≤ length ls)%nat;
  inv_max : max = 0 ∨ max ∈ counts
}.

Lemma histogram_loop_total ls buckets fuel i bi counts max :
  (∀ x, x ∈ ls → (x <=? default 0%float (last buckets))%float = true) →
  len ls < GoInt.max_int →
  histogram_inv ls (length buckets) i bi counts max →
  (length ls - i + (length buckets - 1 - bi) < fuel)%nat →
  ∃ counts' max' bi',
    histogram_loop fuel ls buckets i bi counts max = Some (counts', max')
    ∧ histogram_inv ls (length buckets) (length ls) bi' counts' max'.
Proof.
  intros Hlast Hbound. revert i bi counts max.
  induction fuel as [|fuel IH]; intros i bi counts max Hinv Hfuel; [lia|].
  destruct Hinv as [Hbi Hlen Hrange Hsum Hi Hmax].
  simpl. destruct (ls !! i) as [x|] eqn:Hx.
  - assert (Hilt : (i < length ls)%nat) by (by eapply lookup_lt_Some).
    destruct (x <=? default 0%float (buckets !! bi))%float eqn:Hle.
    + assert (Hold : is_Some (counts !! bi)) by (apply lookup_lt_is_Some; lia).
      destruct Hold as [old Hold]. rewrite Hold. simpl.
      assert (Hold_range : 0 <= old <= max).
      { rewrite Forall_lookup in Hrange. by apply (Hrange bi). }
      assert (Hold_sum : old <= Z.of_nat i).
      { rewrite <- Hsum. apply Zsum_elem_le.
        - eapply Forall_impl; [exact Hrange|]. simpl. lia.
        - eapply list_elem_of_lookup_2. exact Hold. }
      rewrite GoIntFacts.incr_small by (unfold len in Hbound; lia).
      apply IH; [|lia].
      constructor; try done.
      * by rewrite length_insert.
      * destruct (Z.ltb_spec max (old + 1)).
        -- apply Forall_insert; [|lia].
           eapply Forall_impl; [exact Hrange|]. simpl. lia.
        -- apply Forall_insert; [done|lia].
      * rewrite (Zsum_insert _ _ old) by done. lia.
      * destruct (Z.ltb_spec max (old + 1)) as [Hlt|Hge].
        -- right. apply list_elem_of_lookup. exists bi.
           apply list_lookup_insert_eq. lia.
        -- destruct Hmax as [->|Hin]; [lia|]. right.
           apply list_elem_of_lookup in Hin as [k Hk].
           apply list_elem_of_lookup. exists k.
           rewrite list_lookup_insert_ne; [done|].
           intros <-. rewrite Hold in Hk. simplify_eq. lia.
    + destruct (bi <? length buckets - 1)%nat eqn:Hroom.
      * apply Nat.ltb_lt in Hroom. apply IH; [|lia].
        constructor; try done. lia.
      * apply Nat.ltb_ge in Hroom.
        assert (Hbi_last : bi = (length buckets - 1)%nat) by lia.
        assert (Hlk : buckets !! bi = last buckets).
        { rewrite last_lookup. f_equal. lia. }
        rewrite Hlk, Hlast in Hle; [done|].
        eapply list_elem_of_lookup_2. exact Hx.
  - apply lookup_ge_None in Hx.
    exists counts, max, bi. split; [done|].
    replace (length ls) with i by lia. by constructor.
Qed.

Lemma histogram_bars_length buckets counts max :
  length (histogram_bars buckets counts max) = length buckets.
Proof. unfold histogram_bars. by rewrite length_map, length_seq. Qed.

Lemma histogram_bars_lookup buckets counts max i :
  (i < length buckets)%nat →
  histogram_bars buckets counts max !! i
  = Some {| Second := default 0%float (buckets !! i);
            Count := default 0 (counts !! i);
            BarLen := if 0 <? max
                      then GoInt.quo (GoInt.mul (default 0 (counts !! i)) 40) max
                      else 0 |}.
Proof.
  intros Hi. unfold histogram_bars.
  rewrite list_lookup_fmap, lookup_seq_lt by done. done.
Qed.

Lemma histogram_bars_counts buckets counts max :
  length counts = length buckets →
  Count <$> histogram_bars buckets counts max = counts.
Proof.
  intros Hlen. apply list_eq. intros i.
  rewrite list_lookup_fmap.
  destruct (decide (i < length buckets)%nat) as [Hi|Hi].
  - rewrite histogram_bars_lookup by done. simpl.
    destruct (counts !! i) eqn:Hc; [done|].
    apply lookup_ge_None in Hc. lia.
  - rewrite !lookup_ge_None_2; [done|lia|].
    rewrite histogram_bars_length. lia.
Qed.

Lemma bar_length c max :
  0 <= c <= max → 0 < max → 40 * max < 2 ^ 63 →
  0 <= GoInt.quo (GoInt.mul c 40) max <= 40
  ∧ (c = max → GoInt.quo (GoInt.mul c 40) max = 40).
Proof.
  intros Hc Hmax Hbound.
  rewrite GoIntFacts.mul_small by lia.
  rewrite GoIntFacts.quo_small by lia.
  rewrite Z.quot_div_nonneg by lia.
  split.
  - split; [apply Z.div_pos; lia|].
    apply Z.div_le_upper_bound; lia.
  - intros ->. rewrite Z.mul_comm. apply Z.div_mul. lia.
Qed.

Lemma histogram_bars_normalised buckets counts max :
  length counts = length buckets →
  Forall (λ c, 0 <= c <= max) counts → 0 < max → 40 * max < 2 ^ 63 →
  Forall (λ b, 0 <= BarLen b <= 40) (histogram_bars buckets counts max)
  ∧ (max ∈ counts → Exists (λ b, BarLen b = 40) (histogram_bars buckets counts max)).
Proof.
  intros Hlen Hrange Hmax Hbound.
  assert (Hpos : (0 <? max) = true) by (apply Z.ltb_lt; lia).
  split.
  - apply Forall_lookup. intros i b Hb.
    assert (Hi : (i < length buckets)%nat).
    { apply lookup_lt_Some in Hb. by rewrite histogram_bars_length in Hb. }
    rewrite histogram_bars_lookup in Hb by done. simplify_eq. simpl.
    rewrite Hpos.
    destruct (counts !! i) as [c|] eqn:Hc; simpl.
    + apply bar_length; try done.
      rewrite Forall_lookup in Hrange. by apply (Hrange i).
    + apply bar_length; lia.
  - intros Hin. apply list_elem_of_lookup in Hin as [i Hi].
    apply Exists_exists.
    assert (Hlt : (i < length buckets)%nat).
    { apply lookup_lt_Some in Hi. lia. }
    eexists. split.
    + eapply list_elem_of_lookup_2. by apply histogram_bars_lookup.
    + simpl. rewrite Hpos, Hi. simpl. apply bar_length; lia.
Qed.

Lemma make_buckets_length r : length (make_buckets r) = S bc.
Proof. done. Qed.

Lemma make_buckets_last r : last (make_buckets r) = Some (slowest r).
Proof. unfold make_buckets. apply last_snoc. Qed.

(** C6.  On a non-empty ascending list of latencies the histogram loop
    ends; the eleven buckets' counts add up to the number of latencies;
    every bar is at most 40 and one bar is exactly 40.  With a maximum
    count of 0 every bar is 0, which is what an empty list gives. *)
Theorem histogram_shape (r : report) :
  (lats r ≠ [] → ascending (lats r) = true → 40 * len (lats r) < 2 ^ 63 →
   ∃ bars, printHistogram (with_extremes r) = Some bars
     ∧ length bars = 11%nat
     ∧ Zsum (Count <$> bars) = len (lats r)
     ∧ Forall (λ b, 0 <= BarLen b <= 40) bars
     ∧ Exists (λ b, BarLen b = 40) bars)
  ∧ (∀ buckets counts,
       Forall (λ b, BarLen b = 0) (histogram_bars buckets counts 0))
  ∧ (lats r = [] →
     ∃ bars, printHistogram r = Some bars
       ∧ Forall (λ b, Count b = 0 ∧ BarLen b = 0) bars).
Proof.
  split; [|split].
  - intros Hne Hasc Hbound.
    unfold printHistogram.
    set (r' := with_extremes r).
    set (buckets := make_buckets r').
    assert (Hls : lats r' = lats r) by done.
    rewrite Hls.
    assert (Hnb : length buckets = 11%nat) by done.
    destruct (histogram_loop_total (lats r) buckets
                (histogram_fuel (lats r) buckets) 0 0 (replicate (S bc) 0) 0)
      as (counts & max & bi & Hloop & Hinv).
    + intros x Hx. subst buckets. rewrite make_buckets_last. simpl.
      by apply ascending_le_last.
    + unfold GoInt.max_int. lia.
    + rewrite Hnb.
      constructor; [lia|done|by repeat constructor|done|lia|by left].
    + unfold histogram_fuel. lia.
    + rewrite Hloop. destruct Hinv as [_ Hlen Hrange Hsum _ Hmax].
      assert (Hlen_pos : 0 < len (lats r)).
      { unfold len. destruct (lats r); [done|]. simpl. lia. }
      assert (Hmax_pos : 0 < max).
      { pose proof (Zsum_le_bound _ _ Hrange) as Hle.
        rewrite Hsum in Hle. fold (len (lats r)) in Hle. unfold len in Hle at 2.
        rewrite Hlen, Hnb in Hle. lia. }
      assert (Hin : max ∈ counts) by (destruct Hmax; [lia|done]).
      assert (Hmax_le : max <= len (lats r)).
      { unfold len. rewrite <- Hsum. apply Zsum_elem_le; [|done].
        eapply Forall_impl; [exact Hrange|]. simpl. lia. }
      destruct (histogram_bars_normalised buckets counts max) as [Hbars Hfull];
        try done; try lia.
      eexists. split; [done|].
      split; [by rewrite histogram_bars_length|].
      split; [by rewrite histogram_bars_counts|].
      split; [done|]. by apply Hfull.
  - intros buckets counts. apply Forall_lookup. intros i b Hb.
    assert (Hi : (i < length buckets)%nat).
    { apply lookup_lt_Some in Hb. by rewrite histogram_bars_length in Hb. }
    rewrite histogram_bars_lookup in Hb by done. by simplify_eq.
  - intros Hempty. unfold printHistogram. rewrite Hempty. simpl.
    eexists. split; [done|]. repeat constructor.
Qed.

(** Three latencies of 0.1, 0.2 and 0.3 seconds. *)
Definition three_latencies : report :=
  mkReport 0 0 0 0 0 0 ∅ ∅
    (map Duration.Seconds [100000000; 200000000; 300000000]) 0.

Lemma histogram_shape_witness :
  (lats three_latencies ≠ [] ∧ ascending (lats three_latencies) = true
   ∧ 40 * len (lats three_latencies) < 2 ^ 63)
  ∧ ∃ bars, printHistogram (with_extremes three_latencies) = Some bars
     ∧ length bars = 11%nat
     ∧ Zsum (Count <$> bars) = 3
     ∧ Exists (λ b, BarLen b = 40) bars.
Proof.
  assert (H1 : lats three_latencies ≠ []) by (vm_compute; discriminate).
  assert (H2 : ascending (lats three_latencies) = true) by (vm_compute; reflexivity).
  assert (H3 : 40 * len (lats three_latencies) < 2 ^ 63) by (vm_compute; reflexivity).
  split; [by repeat split|].
  destruct (proj1 (histogram_shape three_latencies) H1 H2 H3)
    as (bars & Hp & Hl & Hs & _ & He).
  exists bars. repeat split; assumption.
Defined.

(** * Properties of boomer.go *)

Section BoomerFacts.

Variable growcap : nat → nat.

(** ** The worker *)

(** A worker in [client.Do] goes through its three steps whatever the
    transport answers: it signals the wait group, sends one record and is
    back at the head of its loop. *)
Lemma worker_completes_job (b : Boomer) (st : state) (w : nat) (req : loc)
    (s0 t1 t2 now : Z) (x x1 x2 : exchange) :
  st_workers st !! w = Some (WBusy req s0) →
  panicked st = false → results_closed st = false → len (results st) < N b →
  ∃ st', run growcap b [Worker w t1 x; Worker w t2 x1; Worker w now x2] st = Some st'
    ∧ st_workers st' !! w = Some WIdle
    ∧ results st' = results st ++ [outcome s0 now (observe b x)]
    ∧ wg st' = wg st - 1
    ∧ panicked st' = false.
Proof.
  intros Hw Hp Hc Hroom.
  assert (Hlt : (w < length (st_workers st))%nat) by (by eapply lookup_lt_Some).
  unfold run, step. rewrite Hp. unfold worker_step at 1. rewrite Hw. simpl.
  rewrite Hp. unfold worker_step at 1. simpl.
  rewrite list_lookup_insert_eq by done. simpl.
  rewrite Hp. unfold worker_step at 1. simpl.
  rewrite list_lookup_insert_eq by (by rewrite length_insert).
  rewrite Hc. apply Z.ltb_lt in Hroom. rewrite Hroom.
  eexists. split; [done|]. simpl.
  rewrite list_lookup_insert_eq by (by rewrite !length_insert). done.
Qed.

(** C4.  With [ReadAll], a body that fails to read after a successful send
    gives a record with the read error, the response's status code (and
    content length) and the elapsed time; a failed send gives status code 0
    and content length 0; and in either case the worker sends its record
    and goes back to its loop. *)
Theorem failure_is_recorded (b : Boomer) (s0 now : Z) :
  (∀ resp e, ReadAll b = true → BodyReadError resp = Some e →
     outcome s0 now (observe b (Responded resp))
     = {| err := Some e; statusCode := StatusCode resp;
          duration := time_Sub now s0;
          contentLength := RespContentLength resp |})
  ∧ (∀ msg,
       outcome s0 now (observe b (Refused msg))
       = {| err := Some msg; statusCode := 0; duration := time_Sub now s0;
            contentLength := 0 |})
  ∧ (∀ st w req x t1 t2 x1 x2,
       st_workers st !! w = Some (WBusy req s0) →
       panicked st = false → results_closed st = false →
       len (results st) < N b →
       ∃ st', run growcap b [Worker w t1 x; Worker w t2 x1; Worker w now x2] st
              = Some st'
         ∧ st_workers st' !! w = Some WIdle
         ∧ results st' = results st ++ [outcome s0 now (observe b x)]
         ∧ panicked st' = false).
Proof.
  split; [|split].
  - intros resp e Hall Hbody. unfold outcome, observe. simpl.
    by rewrite Hall, Hbody.
  - done.
  - intros st w req x t1 t2 x1 x2 Hw Hp Hc Hroom.
    destruct (worker_completes_job b st w req s0 t1 t2 now x x1 x2 Hw Hp Hc Hroom)
      as (st' & Hrun & Hidle & Hres & _ & Hnp).
    by exists st'.
Qed.

End BoomerFacts.

(** A template request with a header of two keys and a four-byte body. *)
Definition template : http_Request :=
  mkRequest "POST" 1%nat "HTTP/1.1" 1 1 2%nat 5%nat 4 nil_slice false
    "example.org" 0%nat 0%nat 0%nat 0%nat EmptyString EmptyString 0%nat.

Definition template_store : store :=
  mkStore {[ 6%nat := template ]}
    {[ 2%nat := {[ "Content-Type"%string := mkSlice 3%nat 0%nat 1%nat 1%nat;
                   "X-Some"%string := mkSlice 4%nat 0%nat 2%nat 2%nat ]} ]}
    {[ 3%nat := ["text/html"%string]; 4%nat := ["a"%string; "b"%string] ]}
    {[ 5%nat := mkReader "Body" ]}
    7%nat.

Definition read_all_boomer : Boomer :=
  mkBoomer 6%nat EmptyString 2 1 0 0 false false false 0%nat true.

Definition broken_body : Response := mkResponse 200 17 (Some "unexpected EOF").

(** A worker that has taken the first of two jobs at clock reading 10. *)
Definition busy_state : state :=
  mkState template_store 0 MWait [WBusy 7%nat 10] [8%nat] true [] false 2 false false.

Lemma failure_is_recorded_witness :
  (ReadAll read_all_boomer = true ∧ BodyReadError broken_body = Some "unexpected EOF"%string
   ∧ outcome 10 25 (observe read_all_boomer (Responded broken_body))
     = mkResult (Some "unexpected EOF"%string) 200 15 17)
  ∧ ∃ st', run id read_all_boomer
             [Worker 0%nat 11 (Responded broken_body);
              Worker 0%nat 12 (Refused EmptyString);
              Worker 0%nat 25 (Refused EmptyString)] busy_state = Some st'
      ∧ st_workers st' !! 0%nat = Some WIdle
      ∧ results st' = [mkResult (Some "unexpected EOF"%string) 200 15 17].
Proof.
  destruct (failure_is_recorded id read_all_boomer 10 25) as (Hbody & _ & Hgo).
  split.
  - split; [reflexivity|]. split; [reflexivity|].
    rewrite (Hbody broken_body "unexpected EOF"%string eq_refl eq_refl).
    reflexivity.
  - destruct (Hgo busy_state 0%nat 7%nat (Responded broken_body) 11 12
                (Refused EmptyString) (Refused EmptyString) eq_refl eq_refl eq_refl eq_refl)
      as (st' & Hrun & Hidle & Hres & _).
    exists st'. split; [exact Hrun|]. split; [exact Hidle|].
    rewrite Hres. reflexivity.
Defined.

(** ** The store and cloneRequest *)

(** A store in which no object lies at or beyond the next free location,
    and no header map of a request or backing array of a header value is a
    dangling pointer. *)
Record wf (h : store) : Prop := {
  wf_nil : (0 < next h)%nat;
  wf_requests : map_Forall (λ l _, (l < next h)%nat) (requests h);
  wf_headers : map_Forall (λ l _, (l < next h)%nat) (headers h);
  wf_arrays : map_Forall (λ l _, (l < next h)%nat) (arrays h);
  wf_readers : map_Forall (λ l _, (l < next h)%nat) (readers h);
  wf_Header : map_Forall (λ _ req, (Header req < next h)%nat) (requests h);
  wf_Body : map_Forall (λ _ req, (Body req < next h)%nat) (requests h);
  wf_values :
    map_Forall (λ _ hm, map_Forall (λ (_ : string) s, (s_arr s < next h)%nat) hm)
      (headers h)
}.

(** What [h'] keeps of [h]: every object below [next h]. *)
Record extends (h h' : store) : Prop := {
  ext_next : (next h ≤ next h')%nat;
  ext_requests : ∀ l, (l < next h)%nat → requests h' !! l = requests h !! l;
  ext_headers : ∀ l, (l < next h)%nat → headers h' !! l = headers h !! l;
  ext_arrays : ∀ l, (l < next h)%nat → arrays h' !! l = arrays h !! l;
  ext_readers : ∀ l, (l < next h)%nat → readers h' !! l = readers h !! l
}.

(** A header value that its map owns: [nil], or a slice over an array at
    one of the locations [A]. *)
Definition owned_slice (A : loc → Prop) (s : slice) : Prop :=
  s = nil_slice ∨ A (s_arr s).

(** The locations from [lo] up to, and without, [hi]. *)
Definition between (lo hi : loc) (l : loc) : Prop := (lo ≤ l < hi)%nat.

Section StoreFacts.

Variable growcap : nat → nat.

Lemma fresh_None {A} (m : gmap loc A) (n l : loc) :
  map_Forall (λ l _, (l < n)%nat) m → (n ≤ l)%nat → m !! l = None.
Proof.
  intros Hall Hl. destruct (m !! l) eqn:Hm; [|done].
  apply Hall in Hm. lia.
Qed.

Lemma alloc_array_spec h xs s h' :
  alloc_array growcap h xs = (s, h') →
  s_arr s = next h ∧ s_off s = 0%nat ∧ s_len s = length xs
  ∧ (length xs ≤ s_cap s)%nat
  ∧ next h' = S (next h)
  ∧ requests h' = requests h ∧ headers h' = headers h ∧ readers h' = readers h
  ∧ (∃ pad, arrays h' = <[next h := xs ++ pad]> (arrays h)).
Proof.
  unfold alloc_array, fresh. intros [= <- <-]. simpl.
  repeat split; try done; [lia|]. by eexists.
Qed.

Lemma slice_elems_alloc h xs s h' :
  alloc_array growcap h xs = (s, h') → slice_elems h' s = xs.
Proof.
  intros Ha. apply alloc_array_spec in Ha
    as (Harr & Hoff & Hlen & _ & _ & _ & _ & _ & pad & Harrays).
  unfold slice_elems. rewrite Harr, Hoff, Hlen, Harrays, lookup_insert_eq.
  simpl. by rewrite drop_0, take_app_length.
Qed.

(** Reading a slice depends on its backing array only. *)
Lemma slice_elems_same h h' s :
  arrays h' !! s_arr s = arrays h !! s_arr s → slice_elems h' s = slice_elems h s.
Proof. unfold slice_elems. by intros ->. Qed.

Lemma slice_elems_nil h s : s_len s = 0%nat → slice_elems h s = [].
Proof. unfold slice_elems. by intros ->. Qed.

(** [append([]string(nil), xs...)] *)
Lemma append_to_nil h xs :
  slice_append growcap h nil_slice xs
  = match xs with
    | [] => (nil_slice, h)
    | _ => alloc_array growcap h xs
    end.
Proof.
  unfold slice_append. destruct xs as [|x xs]; simpl.
  - f_equal. destruct h as [rq hd ar rd nx]. unfold set_arrays. simpl. f_equal.
    by apply alter_id.
  - done.
Qed.

Lemma owned_slice_mono (A B : loc → Prop) s :
  (∀ l, A l → B l) → owned_slice A s → owned_slice B s.
Proof. unfold owned_slice. intros HAB [?|?]; [by left|right; auto]. Qed.

Lemma between_mono lo lo' hi hi' l :
  (lo' ≤ lo)%nat → (hi ≤ hi')%nat → between lo hi l → between lo' hi' l.
Proof. unfold between. lia. Qed.

(** One iteration of the copying loop. *)
Lemma clone_entry_spec m h k s M :
  headers h !! m = Some M →
  (∀ l, (next h ≤ l)%nat → arrays h !! l = None) →
  ∃ s',
    headers (clone_entry growcap m h (k, s)) !! m = Some (<[k := s']> M)
    ∧ (∀ l, l ≠ m →
         headers (clone_entry growcap m h (k, s)) !! l = headers h !! l)
    ∧ requests (clone_entry growcap m h (k, s)) = requests h
    ∧ readers (clone_entry growcap m h (k, s)) = readers h
    ∧ (next h ≤ next (clone_entry growcap m h (k, s)))%nat
    ∧ (∀ l, (l < next h)%nat →
         arrays (clone_entry growcap m h (k, s)) !! l = arrays h !! l)
    ∧ (∀ l, (next (clone_entry growcap m h (k, s)) ≤ l)%nat →
         arrays (clone_entry growcap m h (k, s)) !! l = None)
    ∧ slice_elems (clone_entry growcap m h (k, s)) s' = slice_elems h s
    ∧ owned_slice (between (next h) (next (clone_entry growcap m h (k, s)))) s'.
Proof.
  intros HM Hfree. unfold clone_entry. simpl.
  rewrite append_to_nil.
  destruct (slice_elems h s) as [|x xs] eqn:Hxs.
  - exists nil_slice. simpl.
    split; [by rewrite lookup_alter_eq, HM|].
    split; [by intros l Hl; rewrite lookup_alter_ne|].
    repeat split; try done. by left.
  - destruct (alloc_array growcap h (x :: xs)) as [s' h1] eqn:Ha.
    pose proof (slice_elems_alloc _ _ _ _ Ha) as Helems.
    apply alloc_array_spec in Ha
      as (Harr & Hoff & Hlen & Hcap & Hnext & Hreq & Hhd & Hrd & pad & Harrays).
    exists s'. simpl. rewrite Hhd, Hnext, Harrays.
    split; [by rewrite lookup_alter_eq, HM|].
    split; [by intros l Hl; rewrite lookup_alter_ne|].
    repeat split; try done.
    + lia.
    + intros l Hl. apply lookup_insert_ne. lia.
    + intros l Hl. rewrite lookup_insert_ne by lia. apply Hfree. lia.
    + right. unfold between. lia.
Qed.

(** The copying loop of [cloneRequest] over the entries [es] of the
    template's map, from a store [h] in which the clone's map is [M]. *)
Lemma clone_entries_spec m (es : list (string * slice)) h M :
  NoDup es.*1 →
  headers h !! m = Some M →
  (∀ l, (next h ≤ l)%nat → arrays h !! l = None) →
  ∃ Mf,
    headers (fold_left (clone_entry growcap m) es h) !! m = Some Mf
    ∧ (∀ l, l ≠ m →
         headers (fold_left (clone_entry growcap m) es h) !! l = headers h !! l)
    ∧ requests (fold_left (clone_entry growcap m) es h) = requests h
    ∧ readers (fold_left (clone_entry growcap m) es h) = readers h
    ∧ (next h ≤ next (fold_left (clone_entry growcap m) es h))%nat
    ∧ (∀ l, (l < next h)%nat →
         arrays (fold_left (clone_entry growcap m) es h) !! l = arrays h !! l)
    ∧ (∀ l, (next (fold_left (clone_entry growcap m) es h) ≤ l)%nat →
         arrays (fold_left (clone_entry growcap m) es h) !! l = None)
    ∧ (∀ k, k ∉ es.*1 → Mf !! k = M !! k)
    ∧ (∀ k s, (k, s) ∈ es → (s_arr s < next h)%nat →
         ∃ s', Mf !! k = Some s'
           ∧ slice_elems (fold_left (clone_entry growcap m) es h) s'
             = slice_elems h s
           ∧ owned_slice
               (between (next h) (next (fold_left (clone_entry growcap m) es h)))
               s').
Proof.
  revert h M. induction es as [|[k s] es IH]; intros h M Hnd HM Hfree.
  - exists M. simpl. repeat split; try done.
    intros k s Hin. by apply elem_of_nil in Hin.
  - simpl in Hnd. apply NoDup_cons in Hnd as [Hk Hnd].
    destruct (clone_entry_spec m h k s M HM Hfree)
      as (s1 & HM1 & Hhd1 & Hrq1 & Hrd1 & Hnx1 & Harr1 & Hfree1 & Hel1 & Hown1).
    simpl fold_left.
    set (h1 := clone_entry growcap m h (k, s)) in *.
    destruct (IH h1 _ Hnd HM1 Hfree1)
      as (Mf & HMf & Hhd & Hrq & Hrd & Hnx & Harr & Hfreef & Hkeep & Hcopied).
    set (hf := fold_left (clone_entry growcap m) es h1) in *.
    exists Mf. split; [done|].
    split; [by intros l Hl; rewrite Hhd, Hhd1|].
    split; [by rewrite Hrq|]. split; [by rewrite Hrd|].
    split; [lia|].
    split; [by intros l Hl; rewrite Harr, Harr1 by lia|].
    split; [done|].
    split.
    + intros k' Hk'. simpl in Hk'. apply not_elem_of_cons in Hk' as [Hne Hk'].
      rewrite Hkeep by done. by apply lookup_insert_ne.
    + intros k' s' Hin Hs'. apply elem_of_cons in Hin as [[= -> ->]|Hin].
      * exists s1. split; [by rewrite Hkeep, lookup_insert_eq|].
        split.
        2:{ eapply owned_slice_mono; [|exact Hown1].
            intros l. apply between_mono; lia. }
        rewrite <- Hel1.
        destruct Hown1 as [->|Hrange].
        -- by rewrite !slice_elems_nil.
        -- apply slice_elems_same, Harr. unfold between in Hrange. lia.
      * destruct (Hcopied k' s' Hin ltac:(lia)) as (s2 & Hs2 & Hel2 & Hown2).
        exists s2. split; [done|].
        split.
        2:{ eapply owned_slice_mono; [|exact Hown2].
            intros l. apply between_mono; lia. }
        rewrite Hel2. apply slice_elems_same, Harr1. done.
Qed.

(** What [cloneRequest] returns and what it leaves in the store. *)
Lemma cloneRequest_spec h r body req :
  wf h → requests h !! r = Some req →
  ∃ h' b M,
    cloneRequest growcap h r body = Some (next h, h')
    ∧ requests h' = <[next h := set_Body b (set_Header (S (next h)) req)]> (requests h)
    ∧ headers h' !! S (next h) = Some M
    ∧ (∀ l, l ≠ S (next h) → headers h' !! l = headers h !! l)
    ∧ readers h' = <[b := mkReader body]> (readers h)
    ∧ (S (next h) < b)%nat ∧ next h' = S b
    ∧ (∀ l, (l < next h)%nat → arrays h' !! l = arrays h !! l)
    ∧ (∀ l, (next h' ≤ l)%nat → arrays h' !! l = None)
    ∧ (∀ k, header_entries h (Header req) !! k = None → M !! k = None)
    ∧ (∀ k s, header_entries h (Header req) !! k = Some s →
         ∃ s', M !! k = Some s' ∧ slice_elems h' s' = slice_elems h s
           ∧ owned_slice (between (S (S (next h))) b) s').
Proof.
  intros Hwf Hreq. unfold cloneRequest. rewrite Hreq. unfold fresh. simpl.
  set (m := S (next h)).
  set (h5 := set_requests (alter (set_Header m) (next h)) _).
  set (es := map_to_list (header_entries h (Header req))).
  destruct (clone_entries_spec m es h5 ∅)
    as (Mf & HMf & Hhd & Hrq & Hrd & Hnx & Harr & Hfree & Hkeep & Hcopied).
  { apply NoDup_fst_map_to_list. }
  { subst h5. simpl. apply lookup_insert_eq. }
  { intros l Hl. subst h5. simpl in *.
    eapply fresh_None; [apply (wf_arrays _ Hwf)|]. lia. }
  set (hf := fold_left (clone_entry growcap m) es h5) in *.
  assert (Hnext5 : next h5 = S m) by done.
  eexists _, (next hf), Mf. split; [reflexivity|]. simpl.
  rewrite Hrq, Hrd. subst h5. simpl in *.
  split.
  { apply map_eq. intros l. destruct (decide (l = next h)) as [->|Hne].
    - by rewrite lookup_alter_eq, lookup_alter_eq, !lookup_insert_eq.
    - by rewrite !lookup_alter_ne, !lookup_insert_ne. }
  split; [done|].
  split. { intros l Hl. rewrite Hhd by done. by apply lookup_insert_ne. }
  split; [done|]. split; [lia|]. split; [done|].
  split. { intros l Hl. apply Harr. lia. }
  split. { intros l Hl. apply Hfree. lia. }
  split.
  { intros k Hk. rewrite Hkeep; [done|].
    intros Hin. apply list_elem_of_fmap in Hin as ([k' s] & -> & Hin).
    subst es. apply elem_of_map_to_list in Hin. simpl in *. congruence. }
  intros k s Hk.
  destruct (Hcopied k s) as (s' & Hs' & Hel & Hown).
  { subst es. by apply elem_of_map_to_list. }
  { unfold header_entries in Hk.
    destruct (headers h !! Header req) as [hm|] eqn:Hhm; [|done].
    simpl in Hk. pose proof (wf_values _ Hwf _ _ Hhm _ _ Hk) as Hlt.
    simpl in Hlt. lia. }
  exists s'. split; [done|]. split; [done|].
  eapply owned_slice_mono; [|exact Hown].
  intros l. apply between_mono; lia.
Qed.

Lemma header_view_lookup h m k :
  header_view h m !! k = slice_elems h <$> header_entries h m !! k.
Proof. unfold header_view. apply lookup_fmap. Qed.

(** A map reads the same in two stores that agree on it and on the arrays
    of its values. *)
Lemma header_view_agree h h' m :
  headers h' !! m = headers h !! m →
  (∀ M k s, headers h !! m = Some M → M !! k = Some s →
     arrays h' !! s_arr s = arrays h !! s_arr s) →
  header_view h' m = header_view h m.
Proof.
  intros Hm Harr. apply map_eq. intros k.
  rewrite !header_view_lookup. unfold header_entries. rewrite Hm.
  destruct (headers h !! m) as [M|] eqn:HM; simpl; [|done].
  destruct (M !! k) as [s|] eqn:Hs; simpl; [|done].
  f_equal. apply slice_elems_same. by eapply Harr.
Qed.

Lemma header_view_extends h h' m :
  wf h → extends h h' → (m < next h)%nat → header_view h' m = header_view h m.
Proof.
  intros Hwf Hext Hm. apply header_view_agree.
  - by apply (ext_headers _ _ Hext).
  - intros M k s HM Hs. apply (ext_arrays _ _ Hext).
    apply (wf_values _ Hwf _ _ HM _ _ Hs).
Qed.

(** [cloneRequest] writes to new locations only, keeps the store well
    formed, and gives the clone a header map that reads as the template's. *)
Lemma cloneRequest_frame h r body req :
  wf h → requests h !! r = Some req →
  ∃ h' req2,
    cloneRequest growcap h r body = Some (next h, h')
    ∧ requests h' !! next h = Some req2
    ∧ req2 = set_Body (Body req2) (set_Header (S (next h)) req)
    ∧ between (S (S (next h))) (next h') (Body req2)
    ∧ readers h' !! Body req2 = Some (mkReader body)
    ∧ extends h h' ∧ wf h'
    ∧ header_view h' (Header req2) = header_view h (Header req)
    ∧ (∀ M k s, headers h' !! Header req2 = Some M → M !! k = Some s →
         owned_slice (between (S (S (next h))) (next h')) s).
Proof.
  intros Hwf Hreq.
  destruct (cloneRequest_spec h r body req Hwf Hreq)
    as (h' & b & M & Hclone & Hrq & HM & Hhd & Hrd & Hb & Hnx & Harr & Hfree
        & Hnone & Hsome).
  exists h', (set_Body b (set_Header (S (next h)) req)).
  split; [done|].
  split; [by rewrite Hrq, lookup_insert_eq|].
  split; [done|]. simpl.
  split; [unfold between; lia|].
  split; [by rewrite Hrd, lookup_insert_eq|].
  assert (Hext : extends h h').
  { constructor.
    - lia.
    - intros l Hl. rewrite Hrq. apply lookup_insert_ne. lia.
    - intros l Hl. apply Hhd. lia.
    - done.
    - intros l Hl. rewrite Hrd. apply lookup_insert_ne. lia. }
  split; [done|].
  split.
  { constructor.
    - lia.
    - rewrite Hrq. apply map_Forall_insert_2; [lia|].
      eapply map_Forall_impl; [apply (wf_requests _ Hwf)|]. simpl. lia.
    - intros l x Hl. destruct (decide (l = S (next h))) as [->|Hne]; [simpl; lia|].
      rewrite Hhd in Hl by done. apply (wf_headers _ Hwf) in Hl. simpl in *. lia.
    - intros l x Hl. simpl.
      destruct (decide (l < next h')%nat) as [|Hge]; [done|].
      rewrite Hfree in Hl by lia. done.
    - rewrite Hrd. apply map_Forall_insert_2; [lia|].
      eapply map_Forall_impl; [apply (wf_readers _ Hwf)|]. simpl. lia.
    - rewrite Hrq. apply map_Forall_insert_2; [simpl; lia|].
      eapply map_Forall_impl; [apply (wf_Header _ Hwf)|]. simpl. lia.
    - rewrite Hrq. apply map_Forall_insert_2; [simpl; lia|].
      eapply map_Forall_impl; [apply (wf_Body _ Hwf)|]. simpl. lia.
    - intros l hm Hl k s Hs. simpl.
      destruct (decide (l = S (next h))) as [->|Hne].
      + rewrite HM in Hl. simplify_eq.
        destruct (header_entries h (Header req) !! k) as [s0|] eqn:Hk.
        * destruct (Hsome k s0 Hk) as (s' & Hs' & _ & Hown).
          rewrite Hs in Hs'. simplify_eq.
          destruct Hown as [->|Hin]; [simpl; lia|]. unfold between in Hin. lia.
        * rewrite (Hnone k Hk) in Hs. done.
      + rewrite Hhd in Hl by done.
        pose proof (wf_values _ Hwf _ _ Hl _ _ Hs) as Hlt. simpl in Hlt. lia. }
  split.
  { apply map_eq. intros k. rewrite !header_view_lookup.
    unfold header_entries at 1. rewrite HM. simpl.
    destruct (header_entries h (Header req) !! k) as [s0|] eqn:Hk.
    - destruct (Hsome k s0 Hk) as (s' & Hs' & Hel & _).
      rewrite Hs'. simpl. by rewrite Hel.
    - by rewrite (Hnone k Hk). }
  intros M' k s HM' Hs. rewrite HM in HM'. simplify_eq.
  destruct (header_entries h (Header req) !! k) as [s0|] eqn:Hk.
  - destruct (Hsome k s0 Hk) as (s' & Hs' & _ & Hown).
    rewrite Hs in Hs'. simplify_eq.
    eapply owned_slice_mono; [|exact Hown]. intros l. apply between_mono; lia.
  - rewrite (Hnone k Hk) in Hs. done.
Qed.

(** ** Writes through one header map

    [A] is a set of locations that holds the map, every array its values
    lie in, and every location not yet allocated.  Whatever is written
    through the map stays inside [A]. *)
Record confined (A : loc → Prop) (m : loc) (h : store) : Prop := {
  conf_map : A m;
  conf_fresh : ∀ l, (next h ≤ l)%nat → A l;
  conf_values : ∀ M k s, headers h !! m = Some M → M !! k = Some s →
                         owned_slice A s
}.

(** Two stores that hold the same objects outside [A]. *)
Definition same_outside (A : loc → Prop) (h h' : store) : Prop :=
  ∀ l, ¬ A l →
    requests h' !! l = requests h !! l ∧ headers h' !! l = headers h !! l
    ∧ arrays h' !! l = arrays h !! l ∧ readers h' !! l = readers h !! l.

Lemma alloc_array_confined A m h xs s h1 hm k :
  confined A m h → headers h !! m = Some hm →
  alloc_array growcap h xs = (s, h1) →
  same_outside A h (set_headers (alter <[k := s]> m) h1)
  ∧ confined A m (set_headers (alter <[k := s]> m) h1).
Proof.
  intros [Hm Hfresh Hvals] Hhm Ha.
  apply alloc_array_spec in Ha
    as (Harr & _ & _ & _ & Hnext & Hreq & Hhd & Hrd & pad & Harrays).
  split.
  - intros l Hl. simpl. rewrite Hreq, Hhd, Hrd, Harrays.
    assert (l ≠ m) by (by intros ->).
    assert (l ≠ next h) by (intros ->; by apply Hl, Hfresh).
    by rewrite lookup_alter_ne, lookup_insert_ne.
  - constructor; simpl; [done|intros l Hl; apply Hfresh; lia|].
    intros M k' s'. rewrite Hhd, lookup_alter_eq, Hhm. simpl. intros [= <-] Hs'.
    destruct (decide (k = k')) as [->|Hne].
    + rewrite lookup_insert_eq in Hs'. simplify_eq. right.
      rewrite Harr. by apply Hfresh.
    + rewrite lookup_insert_ne in Hs' by done. by eapply Hvals.
Qed.

Lemma header_write_confined A m h op h' :
  confined A m h → header_write growcap m h op = Some h' →
  same_outside A h h' ∧ confined A m h'.
Proof.
  intros Hconf Hw. pose proof Hconf as [Hm Hfresh Hvals].
  unfold header_write in Hw.
  destruct (headers h !! m) as [hm|] eqn:Hhm.
  2:{ destruct op; simplify_eq. by split; [intros l Hl|]. }
  assert (Hv : ∀ k s, hm !! k = Some s → owned_slice A s).
  { intros k s Hs. by eapply Hvals. }
  destruct op as [k vs|k v|k|k i v].
  - destruct (alloc_array growcap h vs) as [s h1] eqn:Ha. simplify_eq.
    by eapply alloc_array_confined.
  - unfold slice_append in Hw.
    set (s0 := default nil_slice (hm !! k)) in *.
    destruct (s_len s0 + length [v] <=? s_cap s0)%nat eqn:Hroom.
    + simplify_eq. apply Nat.leb_le in Hroom. simpl in Hroom.
      assert (Hs0 : A (s_arr s0)).
      { subst s0. destruct (hm !! k) as [s|] eqn:Hs; simpl in *; [|lia].
        destruct (Hv _ _ Hs) as [->|HA]; [simpl in *; lia|done]. }
      split.
      * intros l Hl. simpl.
        assert (l ≠ m) by (by intros ->).
        assert (l ≠ s_arr s0) by (by intros ->).
        by rewrite !lookup_alter_ne.
      * constructor; simpl; [done|done|].
        intros M k' s'. rewrite lookup_alter_eq, Hhm. simpl. intros [= <-] Hs'.
        destruct (decide (k = k')) as [->|Hne].
        -- rewrite lookup_insert_eq in Hs'. simplify_eq. by right.
        -- rewrite lookup_insert_ne in Hs' by done. by eapply Hv.
    + destruct (alloc_array growcap h (slice_elems h s0 ++ [v])) as [s h1] eqn:Ha.
      simplify_eq. by eapply alloc_array_confined.
  - simplify_eq. split.
    + intros l Hl. simpl. assert (l ≠ m) by (by intros ->).
      by rewrite lookup_alter_ne.
    + constructor; simpl; [done|done|].
      intros M k' s'. rewrite lookup_alter_eq, Hhm. simpl. intros [= <-] Hs'.
      apply lookup_delete_Some in Hs' as [_ Hs']. by eapply Hv.
  - set (s0 := default nil_slice (hm !! k)) in *.
    destruct (i <? s_len s0)%nat eqn:Hi; [|done]. simplify_eq.
    apply Nat.ltb_lt in Hi.
    assert (Hs0 : A (s_arr s0)).
    { subst s0. destruct (hm !! k) as [s|] eqn:Hs; simpl in *; [|lia].
      destruct (Hv _ _ Hs) as [->|HA]; [simpl in *; lia|done]. }
    split.
    + intros l Hl. simpl. assert (l ≠ s_arr s0) by (by intros ->).
      by rewrite lookup_alter_ne.
    + constructor; simpl; [done|done|]. intros M k' s'. rewrite Hhm.
      intros [= <-] Hs'. by eapply Hv.
Qed.

Lemma header_writes_confined A m ops : ∀ h h',
  confined A m h → header_writes growcap m h ops = Some h' →
  same_outside A h h' ∧ confined A m h'.
Proof.
  induction ops as [|op ops IH]; intros h h' Hconf Hw; simpl in Hw.
  - simplify_eq. by split; [intros l Hl|].
  - destruct (header_write growcap m h op) as [h1|] eqn:Hop; [|done].
    destruct (header_write_confined A m h op h1 Hconf Hop) as [Hsame1 Hconf1].
    destruct (IH h1 h' Hconf1 Hw) as [Hsame Hconf'].
    split; [|done]. intros l Hl.
    destruct (Hsame l Hl) as (-> & -> & -> & ->). by apply Hsame1.
Qed.

(** A map outside [A] whose values lie outside [A] reads the same. *)
Lemma header_view_outside A h h' m :
  same_outside A h h' → ¬ A m →
  (∀ M k s, headers h !! m = Some M → M !! k = Some s → ¬ A (s_arr s)) →
  header_view h' m = header_view h m.
Proof.
  intros Hsame Hm Hvals. apply header_view_agree.
  - by apply Hsame.
  - intros M k s HM Hs. apply Hsame. by eapply Hvals.
Qed.

(** C10.  The clone equals the template in every field other than
    [Header] and [Body]: putting the template's two values back gives the
    template.  The URL pointer and the other pointers, maps and slices of
    the struct are the template's own; the clone's header map and body
    reader are objects that did not exist before the call. *)
Theorem clone_shares_other_fields (h : store) (r : loc) (body : string)
    (req : http_Request) :
  wf h → requests h !! r = Some req →
  ∃ h' req2,
    cloneRequest growcap h r body = Some (next h, h')
    ∧ requests h' !! next h = Some req2
    ∧ set_Body (Body req) (set_Header (Header req) req2) = req
    ∧ (URL req2 = URL req ∧ Trailer req2 = Trailer req ∧ Form req2 = Form req
       ∧ PostForm req2 = PostForm req ∧ MultipartForm req2 = MultipartForm req
       ∧ TLS req2 = TLS req ∧ TransferEncoding req2 = TransferEncoding req)
    ∧ (headers h !! Header req2 = None ∧ is_Some (headers h' !! Header req2))
    ∧ (readers h !! Body req2 = None ∧ is_Some (readers h' !! Body req2)).
Proof.
  intros Hwf Hreq.
  destruct (cloneRequest_frame h r body req Hwf Hreq)
    as (h' & req2 & Hclone & Hreq2 & Heq & Hbody & Hrd & Hext & Hwf' & Hview & Hown).
  exists h', req2. split; [done|]. split; [done|].
  rewrite Heq. simpl. destruct req; simpl.
  split; [done|]. split; [done|].
  split.
  - split; [eapply fresh_None; [apply (wf_headers _ Hwf)|lia]|].
    rewrite Heq in Hreq2. simpl in Hreq2.
    destruct (cloneRequest_spec h r body _ Hwf Hreq)
      as (h'' & b & M & Hclone' & _ & HM & _).
    rewrite Hclone in Hclone'. simplify_eq. eauto.
  - split; [|by rewrite Hrd].
    eapply fresh_None; [apply (wf_readers _ Hwf)|].
    unfold between in Hbody. lia.
Qed.

(** C3, as the code has it.  The clone's body is a new reader over the
    [body] string, whatever the string is and whatever the template's own
    body is; every object the store held before the call, the template
    with its header map, its header values and its body reader among them,
    is as it was. *)
Theorem clone_body_from_string (h : store) (r : loc) (body : string)
    (req : http_Request) :
  wf h → requests h !! r = Some req →
  ∃ h' req2,
    cloneRequest growcap h r body = Some (next h, h')
    ∧ requests h' !! next h = Some req2
    ∧ readers h !! Body req2 = None
    ∧ readers h' !! Body req2 = Some (mkReader body)
    ∧ extends h h'
    ∧ requests h' !! r = Some req
    ∧ header_view h' (Header req) = header_view h (Header req)
    ∧ readers h' !! Body req = readers h !! Body req.
Proof.
  intros Hwf Hreq.
  destruct (cloneRequest_frame h r body req Hwf Hreq)
    as (h' & req2 & Hclone & Hreq2 & Heq & Hbody & Hrd & Hext & Hwf' & Hview & Hown).
  exists h', req2. split; [done|]. split; [done|].
  split.
  { eapply fresh_None; [apply (wf_readers _ Hwf)|]. unfold between in Hbody. lia. }
  split; [done|]. split; [done|].
  pose proof (wf_requests _ Hwf _ _ Hreq) as Hr. simpl in Hr.
  split; [by rewrite (ext_requests _ _ Hext)|].
  split.
  - apply header_view_extends; [done..|]. apply (wf_Header _ Hwf _ _ Hreq).
  - apply (ext_readers _ _ Hext). apply (wf_Body _ Hwf _ _ Hreq).
Qed.

(** Two clones of one template, in a row. *)
Lemma two_clones h0 r body1 body2 req :
  wf h0 → requests h0 !! r = Some req →
  ∃ h1 h2 q1 q2,
    cloneRequest growcap h0 r body1 = Some (next h0, h1)
    ∧ cloneRequest growcap h1 r body2 = Some (next h1, h2)
    ∧ requests h2 !! next h0 = Some q1 ∧ requests h2 !! next h1 = Some q2
    ∧ Header q1 = S (next h0) ∧ Header q2 = S (next h1)
    ∧ (S (S (next h0)) < next h1)%nat ∧ (S (S (next h1)) < next h2)%nat
    ∧ wf h1 ∧ wf h2 ∧ extends h0 h1 ∧ extends h1 h2
    ∧ header_view h2 (Header q1) = header_view h0 (Header req)
    ∧ header_view h2 (Header q2) = header_view h0 (Header req)
    ∧ (∀ M k s, headers h2 !! Header q1 = Some M → M !! k = Some s →
         owned_slice (between (S (S (next h0))) (next h1)) s)
    ∧ (∀ M k s, headers h2 !! Header q2 = Some M → M !! k = Some s →
         owned_slice (between (S (S (next h1))) (next h2)) s).
Proof.
  intros Hwf Hreq.
  destruct (cloneRequest_frame h0 r body1 req Hwf Hreq)
    as (h1 & q1 & Hc1 & Hq1 & Heq1 & Hb1 & _ & Hext1 & Hwf1 & Hview1 & Hown1).
  assert (Hr : (r < next h0)%nat) by apply (wf_requests _ Hwf _ _ Hreq).
  assert (Hreq1 : requests h1 !! r = Some req).
  { by rewrite (ext_requests _ _ Hext1). }
  destruct (cloneRequest_frame h1 r body2 req Hwf1 Hreq1)
    as (h2 & q2 & Hc2 & Hq2 & Heq2 & Hb2 & _ & Hext2 & Hwf2 & Hview2 & Hown2).
  assert (HH1 : Header q1 = S (next h0)) by (by rewrite Heq1).
  assert (HH2 : Header q2 = S (next h1)) by (by rewrite Heq2).
  assert (Hn1 : (S (S (next h0)) < next h1)%nat) by (unfold between in Hb1; lia).
  assert (Hn2 : (S (S (next h1)) < next h2)%nat) by (unfold between in Hb2; lia).
  assert (Hmt : (Header req < next h0)%nat) by apply (wf_Header _ Hwf _ _ Hreq).
  exists h1, h2, q1, q2.
  split; [done|]. split; [done|].
  split; [by rewrite (ext_requests _ _ Hext2) by lia|]. split; [done|].
  split; [done|]. split; [done|]. split; [done|]. split; [done|].
  split; [done|]. split; [done|]. split; [done|]. split; [done|].
  split.
  { rewrite <- Hview1. apply header_view_extends; [done..|]. rewrite HH1. lia. }
  split.
  { rewrite Hview2. apply header_view_extends; [done..|]. lia. }
  split; [|done].
  intros M k s HM Hs. rewrite (ext_headers _ _ Hext2) in HM by (rewrite HH1; lia).
  by eapply Hown1.
Qed.

(** C7.  Two clones of a template carry the template's headers, and no
    sequence of writes through the header map of one of them (a key
    assigned, appended to or deleted, an element of a value overwritten)
    changes what the other clone's header map or the template's reads as,
    nor the other two request structs. *)
Theorem clones_do_not_interfere (h0 : store) (r : loc) (body1 body2 : string)
    (req : http_Request) :
  wf h0 → requests h0 !! r = Some req →
  ∃ c1 h1 c2 h2 q1 q2,
    cloneRequest growcap h0 r body1 = Some (c1, h1)
    ∧ cloneRequest growcap h1 r body2 = Some (c2, h2)
    ∧ requests h2 !! c1 = Some q1 ∧ requests h2 !! c2 = Some q2
    ∧ header_view h2 (Header q1) = header_view h0 (Header req)
    ∧ header_view h2 (Header q2) = header_view h0 (Header req)
    ∧ (∀ ops h3, header_writes growcap (Header q1) h2 ops = Some h3 →
         header_view h3 (Header q2) = header_view h2 (Header q2)
         ∧ header_view h3 (Header req) = header_view h0 (Header req)
         ∧ requests h3 !! c2 = Some q2 ∧ requests h3 !! r = Some req)
    ∧ (∀ ops h3, header_writes growcap (Header q2) h2 ops = Some h3 →
         header_view h3 (Header q1) = header_view h2 (Header q1)
         ∧ header_view h3 (Header req) = header_view h0 (Header req)
         ∧ requests h3 !! c1 = Some q1 ∧ requests h3 !! r = Some req).
Proof.
  intros Hwf Hreq.
  destruct (two_clones h0 r body1 body2 req Hwf Hreq)
    as (h1 & h2 & q1 & q2 & Hc1 & Hc2 & Hq1 & Hq2 & HH1 & HH2 & Hn1 & Hn2
        & Hwf1 & Hwf2 & Hext1 & Hext2 & Hv1 & Hv2 & Hown1 & Hown2).
  assert (Hr : (r < next h0)%nat) by apply (wf_requests _ Hwf _ _ Hreq).
  assert (Hmt : (Header req < next h0)%nat) by apply (wf_Header _ Hwf _ _ Hreq).
  assert (Hn0 : (0 < next h0)%nat) by apply (wf_nil _ Hwf).
  assert (Hreq2 : requests h2 !! r = Some req).
  { rewrite (ext_requests _ _ Hext2), (ext_requests _ _ Hext1); [done|lia|].
    pose proof (ext_next _ _ Hext1). lia. }
  assert (Hvt : header_view h2 (Header req) = header_view h0 (Header req)).
  { rewrite (header_view_extends h1 h2), (header_view_extends h0 h1); try done.
    pose proof (ext_next _ _ Hext1). lia. }
  assert (Htvals : ∀ M k s, headers h2 !! Header req = Some M → M !! k = Some s →
                            (s_arr s < next h0)%nat).
  { intros M k s HM Hs.
    rewrite (ext_headers _ _ Hext2), (ext_headers _ _ Hext1) in HM;
      [|lia|pose proof (ext_next _ _ Hext1); lia].
    apply (wf_values _ Hwf _ _ HM _ _ Hs). }
  exists (next h0), h1, (next h1), h2, q1, q2.
  do 6 (split; [done|]).
  split.
  - intros ops h3 Hops.
    set (A := λ l, between (next h0) (next h1) l ∨ (next h2 ≤ l)%nat).
    destruct (header_writes_confined A (Header q1) ops h2 h3) as [Hsame _]; [|done|].
    { constructor.
      - left. rewrite HH1. unfold between. lia.
      - intros l Hl. by right.
      - intros M k s HM Hs. eapply owned_slice_mono; [|by eapply Hown1].
        intros l Hl. left. revert Hl. apply between_mono; lia. }
    split; [|split; [|split]].
    + apply (header_view_outside A); [done| |].
      * rewrite HH2. unfold A, between. lia.
      * intros M k s HM Hs. destruct (Hown2 M k s HM Hs) as [->|Hb];
          unfold A, between in *; simpl; lia.
    + rewrite <- Hvt. apply (header_view_outside A); [done| |].
      * unfold A, between. pose proof (ext_next _ _ Hext2). lia.
      * intros M k s HM Hs. specialize (Htvals M k s HM Hs).
        unfold A, between. pose proof (ext_next _ _ Hext2). lia.
    + destruct (Hsame (next h1)) as (-> & _); [|done].
      unfold A, between. lia.
    + destruct (Hsame r) as (-> & _); [|done].
      unfold A, between. pose proof (ext_next _ _ Hext2). lia.
  - intros ops h3 Hops.
    set (A := λ l, (next h1 ≤ l)%nat).
    destruct (header_writes_confined A (Header q2) ops h2 h3) as [Hsame _]; [|done|].
    { constructor.
      - unfold A. rewrite HH2. lia.
      - intros l Hl. unfold A. pose proof (ext_next _ _ Hext2). lia.
      - intros M k s HM Hs. eapply owned_slice_mono; [|by eapply Hown2].
        intros l Hl. unfold A, between in *. lia. }
    split; [|split; [|split]].
    + apply (header_view_outside A); [done| |].
      * rewrite HH1. unfold A. lia.
      * intros M k s HM Hs. destruct (Hown1 M k s HM Hs) as [->|Hb];
          unfold A, between in *; simpl; lia.
    + rewrite <- Hvt. apply (header_view_outside A); [done| |].
      * unfold A. pose proof (ext_next _ _ Hext1). lia.
      * intros M k s HM Hs. specialize (Htvals M k s HM Hs).
        unfold A. pose proof (ext_next _ _ Hext1). lia.
    + destruct (Hsame (next h0)) as (-> & _); [|done].
      unfold A. pose proof (ext_next _ _ Hext1). lia.
    + destruct (Hsame r) as (-> & _); [|done].
      unfold A. pose proof (ext_next _ _ Hext1). lia.
Qed.

End StoreFacts.

Lemma template_store_wf : wf template_store.
Proof.
  constructor; apply (bool_decide_unpack _); vm_compute; exact I.
Qed.

Lemma clone_shares_other_fields_witness :
  (wf template_store ∧ requests template_store !! 6%nat = Some template)
  ∧ ∃ h' req2,
      cloneRequest id template_store 6%nat "Body" = Some (7%nat, h')
      ∧ requests h' !! 7%nat = Some req2
      ∧ URL req2 = 1%nat ∧ Method req2 = "POST"%string.
Proof.
  split; [split; [exact template_store_wf|reflexivity]|].
  destruct (clone_shares_other_fields id template_store 6%nat "Body" template
              template_store_wf eq_refl)
    as (h' & req2 & Hclone & Hreq2 & Heq & (Hurl & _) & _).
  exists h', req2. split; [exact Hclone|]. split; [exact Hreq2|].
  split; [exact Hurl|].
  apply (f_equal Method) in Heq. exact Heq.
Defined.

(** The template carries the body [Body]; a clone made with the empty
    string, that is with no override, reads as empty. *)
Lemma clone_ignores_template_body :
  ∃ h' req2,
    cloneRequest id template_store 6%nat EmptyString = Some (7%nat, h')
    ∧ requests h' !! 7%nat = Some req2
    ∧ readers template_store !! Body template = Some (mkReader "Body")
    ∧ readers h' !! Body req2 = Some (mkReader EmptyString)
    ∧ readers h' !! Body req2 ≠ readers template_store !! Body template.
Proof.
  vm_compute. eexists _, _. repeat split. discriminate.
Qed.

Lemma clone_body_from_string_witness :
  (wf template_store ∧ requests template_store !! 6%nat = Some template)
  ∧ ∃ h' req2,
      cloneRequest id template_store 6%nat "Body" = Some (7%nat, h')
      ∧ requests h' !! 7%nat = Some req2
      ∧ readers h' !! Body req2 = Some (mkReader "Body")
      ∧ readers h' !! 5%nat = Some (mkReader "Body").
Proof.
  split; [split; [exact template_store_wf|reflexivity]|].
  destruct (clone_body_from_string id template_store 6%nat "Body" template
              template_store_wf eq_refl)
    as (h' & req2 & Hclone & Hreq2 & _ & Hrd & _ & _ & _ & Hkeep).
  exists h', req2. split; [exact Hclone|]. split; [exact Hreq2|].
  split; [exact Hrd|]. exact Hkeep.
Defined.

(** Writes through the first clone's header map. *)
Definition sample_writes : list header_op :=
  [ElemAssign "Content-Type" 0 "application/json";
   MapAppend "X-Some" "c";
   MapAssign "Accept" ["*/*"%string];
   MapDelete "X-Some"].

Lemma clones_do_not_interfere_witness :
  (wf template_store ∧ requests template_store !! 6%nat = Some template)
  ∧ ∃ c1 h1 c2 h2 q1 q2 h3,
      cloneRequest id template_store 6%nat "one" = Some (c1, h1)
      ∧ cloneRequest id h1 6%nat "two" = Some (c2, h2)
      ∧ requests h2 !! c1 = Some q1 ∧ requests h2 !! c2 = Some q2
      ∧ header_writes id (Header q1) h2 sample_writes = Some h3
      ∧ header_view h3 (Header q1) !! "Content-Type"%string
        = Some ["application/json"%string]
      ∧ header_view h3 (Header q2) = header_view template_store 2%nat
      ∧ header_view h3 2%nat = header_view template_store 2%nat.
Proof.
  split; [split; [exact template_store_wf|reflexivity]|].
  destruct (clones_do_not_interfere id template_store 6%nat "one" "two" template
              template_store_wf eq_refl)
    as (c1 & h1 & c2 & h2 & q1 & q2 & Hc1 & Hc2 & Hq1 & Hq2 & Hv1 & Hv2 & Hframe & _).
  destruct (header_writes id (Header q1) h2 sample_writes) as [h3|] eqn:Hops.
  - destruct (Hframe sample_writes h3 Hops) as (Hother & Htemplate & _).
    exists c1, h1, c2, h2, q1, q2, h3.
    split; [exact Hc1|]. split; [exact Hc2|]. split; [exact Hq1|].
    split; [exact Hq2|]. split; [exact Hops|].
    split.
    + vm_compute in Hc1. injection Hc1 as <- <-.
      vm_compute in Hc2. injection Hc2 as <- <-.
      vm_compute in Hq1. injection Hq1 as <-.
      vm_compute in Hops. injection Hops as <-.
      vm_compute. reflexivity.
    + split; [|exact Htemplate].
      rewrite Hother. exact Hv2.
  - exfalso.
    vm_compute in Hc1. injection Hc1 as <- <-.
    vm_compute in Hc2. injection Hc2 as <- <-.
    vm_compute in Hq1. injection Hq1 as <-.
    vm_compute in Hops. discriminate Hops.
Defined.

(** ** The enqueue loop and the rate limit *)

Section RunFacts.

Variable growcap : nat → nat.

Lemma throttle_disabled b : Qps b <= 0 → throttle b = None.
Proof.
  intros Hq. unfold throttle.
  destruct (Z.ltb_spec 0 (Qps b)); [lia|done].
Qed.

(** A rate above a million a second gives an interval of zero
    microseconds, for which [time.Tick] gives the [nil] channel. *)
Lemma throttle_nil b : 1000000 < Qps b <= GoInt.max_int → throttle b = None.
Proof.
  intros Hq. unfold throttle, GoInt.max_int in *.
  destruct (Z.ltb_spec 0 (Qps b)); [|done].
  rewrite GoIntFacts.quo_small by lia.
  rewrite Z.quot_small by lia. done.
Qed.

(** With a [nil] throttle and a positive rate nothing can move in the
    initial state: the main goroutine waits on the channel, the workers
    wait for a job, and there is no ticker. *)
Lemma init_stuck b h start a :
  0 < Qps b → throttle b = None → 0 < N b →
  step growcap b a (init b h start) = None.
Proof.
  intros Hq Hth Hn. unfold step. simpl.
  destruct a as [|now|w now x].
  - by rewrite Hth.
  - unfold main_step. simpl.
    apply Z.ltb_lt in Hn, Hq. by rewrite Hn, Hq, Hth.
  - unfold worker_step. simpl.
    destruct (replicate (Z.to_nat (C b)) WIdle !! w) as [pc|] eqn:Hw; [|done].
    apply lookup_replicate in Hw as [-> _]. done.
Qed.

(** C2.  With [Qps <= 0] the enqueue loop never waits: the main goroutine
    can always enqueue the next job.  With a rate above a million a second
    the throttle is the [nil] channel and the loop waits on it before the
    first job for ever: no schedule leaves the initial state. *)
Theorem rate_limit_edge_cases (b : Boomer) (h : store) (start : Z) :
  (Qps b <= 0 →
   throttle b = None
   ∧ ∀ s i now, st_main s = MEnqueue i → i < N b →
       main_step growcap b now s = Some (enqueue growcap b i s))
  ∧ (1000000 < Qps b <= GoInt.max_int → 0 < N b →
     throttle b = None
     ∧ ∀ sched s', run growcap b sched (init b h start) = Some s' →
         sched = [] ∧ s' = init b h start).
Proof.
  split.
  - intros Hq. split; [by apply throttle_disabled|].
    intros s i now Hmain Hi. unfold main_step. rewrite Hmain.
    apply Z.ltb_lt in Hi. rewrite Hi.
    destruct (Z.ltb_spec 0 (Qps b)); [lia|done].
  - intros Hq Hn. pose proof (throttle_nil b Hq) as Hth.
    split; [done|].
    intros sched s' Hrun. destruct sched as [|a sched]; simpl in Hrun.
    + by simplify_eq.
    + rewrite init_stuck in Hrun by (done || lia). done.
Qed.

End RunFacts.

(** One job, one worker, and a rate of a million and one a second. *)
Definition too_fast : Boomer :=
  mkBoomer 6%nat EmptyString 1 1 0 1000001 false false false 0%nat false.

(** One job, one worker, no rate limit. *)
Definition one_job : Boomer :=
  mkBoomer 6%nat EmptyString 1 1 0 0 false false false 0%nat false.

Lemma rate_limit_edge_cases_witness :
  (Qps one_job <= 0
   ∧ main_step id one_job 0 (init one_job template_store 0)
     = Some (enqueue id one_job 0 (init one_job template_store 0)))
  ∧ (1000000 < Qps too_fast <= GoInt.max_int ∧ 0 < N too_fast
     ∧ throttle too_fast = None
     ∧ run id too_fast [Main 0] (init too_fast template_store 0) = None).
Proof.
  assert (Hq : Qps one_job <= 0) by (vm_compute; discriminate).
  assert (Hf : 1000000 < Qps too_fast <= GoInt.max_int)
    by (split; vm_compute; [reflexivity|discriminate]).
  assert (Hn : 0 < N too_fast) by reflexivity.
  split.
  - split; [exact Hq|].
    apply (proj1 (rate_limit_edge_cases id one_job template_store 0) Hq);
      reflexivity.
  - split; [exact Hf|]. split; [exact Hn|].
    destruct (proj2 (rate_limit_edge_cases id too_fast template_store 0) Hf Hn)
      as [Hth Hstuck].
    split; [exact Hth|].
    destruct (run id too_fast [Main 0] (init too_fast template_store 0))
      as [s'|] eqn:Hrun; [|reflexivity].
    destruct (Hstuck _ _ Hrun) as [Hnil _]. discriminate Hnil.
Defined.

(** ** The completion barrier *)

Definition dist_sum `{Countable K} (m : option (gmap K Z)) : Z :=
  match m with
  | None => 0
  | Some m => map_fold (λ _ v acc, v + acc) 0 m
  end.

(** The number of outcomes a report accounts for. *)
Definition accounted (rr : ReportResult) : Z :=
  dist_sum (StatusCodeDist rr) + dist_sum (ErrorDist rr).

Definition ok_200 : exchange := Responded (mkResponse 200 0 None).

(** The worker takes the job, gets its answer and calls [wg.Done()]; the
    main goroutine then passes [wg.Wait()] and runs [finalize], which finds
    the channel empty; only then does the worker send its record. *)
Definition racy_schedule : list action :=
  [Main 0; Main 1;
   Worker 0 2 ok_200; Worker 0 3 ok_200; Worker 0 4 ok_200;
   Main 5; Main 6;
   Worker 0 7 ok_200;
   Main 8].

(** C1, at a run of one job by one worker: under [racy_schedule] [Run]
    returns, without a panic, a report that accounts for no outcome, while
    the one record sits in the channel. *)
Theorem barrier_released_before_send :
  N one_job = 1 ∧ C one_job = 1
  ∧ ∃ s' rr,
      run id one_job racy_schedule (init one_job template_store 0) = Some s'
      ∧ st_main s' = MReturned rr ∧ panicked s' = false
      ∧ accounted rr = 0
      ∧ StatusCodeDist rr = None ∧ ErrorDist rr = None
      ∧ results s' = [mkResult None 200 5 0].
Proof.
  split; [reflexivity|]. split; [reflexivity|].
  vm_compute. eexists _, _. repeat split.
Qed.

(** ** What the drain accounts for

    The race above is the only way an outcome gets lost: [finalize]
    accounts for every record it finds in the channel. *)

Section CounterSums.
Context `{Countable K}.

Definition counter_sum (m : gmap K Z) : Z := map_fold (λ _ v acc, v + acc) 0 m.

Lemma counter_sum_insert (m : gmap K Z) k v :
  m !! k = None → counter_sum (<[k := v]> m) = v + counter_sum m.
Proof.
  intros Hk. unfold counter_sum.
  apply (map_fold_insert_L (λ _ v acc, v + acc)); [|done].
  intros. lia.
Qed.

Lemma counter_sum_delete (m : gmap K Z) k v :
  m !! k = Some v → counter_sum m = v + counter_sum (delete k m).
Proof.
  intros Hk. unfold counter_sum.
  apply (map_fold_delete_L (λ _ v acc, v + acc)); [|done].
  intros. lia.
Qed.

Definition nonneg (m : gmap K Z) : Prop := map_Forall (λ _ v, 0 <= v) m.

Lemma counter_sum_nonneg (m : gmap K Z) : nonneg m → 0 <= counter_sum m.
Proof.
  induction m as [|k v m Hk IH] using map_ind; intros Hall.
  - unfold counter_sum. by rewrite map_fold_empty.
  - rewrite counter_sum_insert by done.
    apply map_Forall_insert in Hall as [Hv Hall]; [|done].
    specialize (IH Hall). lia.
Qed.

Lemma bump_sum (m : gmap K Z) k :
  nonneg m → counter_sum m < GoInt.max_int →
  counter_sum (bump k m) = counter_sum m + 1 ∧ nonneg (bump k m).
Proof.
  intros Hall Hlt. unfold bump.
  destruct (m !! k) as [old|] eqn:Hk; simpl.
  - pose proof (Hall _ _ Hk) as Hold. simpl in Hold.
    pose proof (counter_sum_delete _ _ _ Hk) as Hsum.
    assert (Hrest : 0 <= counter_sum (delete k m)).
    { apply counter_sum_nonneg. by apply map_Forall_delete. }
    rewrite GoIntFacts.incr_small by lia.
    split.
    + rewrite <- insert_delete_eq, counter_sum_insert by apply lookup_delete_eq.
      lia.
    + apply map_Forall_insert_2; [lia|done].
  - rewrite GoIntFacts.incr_small by (unfold GoInt.max_int; lia).
    split.
    + rewrite counter_sum_insert by done. lia.
    + apply map_Forall_insert_2; [lia|done].
Qed.

End CounterSums.

(** The counters of a report that has taken in [n] records. *)
Record tally (r : report) (n : Z) : Prop := {
  tally_errors : nonneg (errorDist r);
  tally_codes : nonneg (statusCodeDist r);
  tally_sum : counter_sum (errorDist r) + counter_sum (statusCodeDist r) = n;
  tally_lats : counter_sum (statusCodeDist r) = len (lats r)
}.

Lemma consume_tally r res n :
  tally r n → n < GoInt.max_int → tally (consume r res) (n + 1).
Proof.
  intros [He Hc Hsum Hl] Hn.
  pose proof (counter_sum_nonneg _ He). pose proof (counter_sum_nonneg _ Hc).
  unfold consume. destruct (err res) as [msg|].
  - destruct (bump_sum (errorDist r) msg He ltac:(lia)) as [Hs Hnn].
    constructor; simpl; try done. lia.
  - destruct (bump_sum (statusCodeDist r) (statusCode res) Hc ltac:(lia)) as [Hs Hnn].
    constructor; simpl; try done; [lia|].
    rewrite Hs, Hl. unfold len. rewrite length_app. simpl. lia.
Qed.

Lemma drain_tally rs : ∀ r n,
  tally r n → n + len rs <= GoInt.max_int → tally (drain r rs) (n + len rs).
Proof.
  induction rs as [|res rs IH]; intros r n Ht Hn.
  - unfold len. simpl. by rewrite Z.add_0_r.
  - change (drain r (res :: rs)) with (drain (consume r res) rs).
    unfold len in *. simpl length in *.
    replace (n + Z.of_nat (S (length rs))) with (n + 1 + Z.of_nat (length rs)) by lia.
    apply IH; [|lia]. apply consume_tally; [done|lia].
Qed.

Lemma sort_insert_length x l : length (sort_insert x l) = S (length l).
Proof.
  induction l as [|y l IH]; simpl; [done|].
  destruct (float64_less x y); simpl; by rewrite ?IH.
Qed.

Lemma sort_Float64s_length l : length (sort_Float64s l) = length l.
Proof.
  induction l as [|x l IH]; simpl; [done|].
  by rewrite sort_insert_length, IH.
Qed.

(** Every record [finalize] drains is in one of the two distributions of
    the report it returns. *)
Lemma finalize_accounts_for_drained (t : Z) (rs : list result) (rr : ReportResult) :
  len rs <= GoInt.max_int →
  finalize (newReport t) rs = Some rr → accounted rr = len rs.
Proof.
  intros Hn Hfin.
  assert (Ht : tally (drain (newReport t) rs) (0 + len rs)).
  { apply drain_tally; [|lia]. constructor; simpl; try done;
      unfold nonneg; try apply map_Forall_empty. }
  rewrite Z.add_0_l in Ht. destruct Ht as [He Hc Hsum Hl].
  unfold finalize, print in Hfin. simpl in Hfin.
  rewrite sort_Float64s_length in Hfin.
  set (r := drain (newReport t) rs) in *.
  assert (Herr : dist_sum (print_errors r) = counter_sum (errorDist r)).
  { rewrite print_errors_spec. case_decide as Hempty; [|done].
    rewrite Hempty. simpl. unfold counter_sum. by rewrite map_fold_empty. }
  destruct (0 <? length (lats r))%nat eqn:Hpos.
  - destruct (printHistogram _); simplify_eq.
    unfold accounted. simpl. fold r. 
    change (print_errors _) with (print_errors r). rewrite Herr.
    unfold counter_sum in *. simpl. lia.
  - simplify_eq. unfold accounted. simpl.
    change (print_errors _) with (print_errors r). rewrite Herr.
    apply Nat.ltb_ge in Hpos. unfold len in Hl at 1. lia.
Qed.

(** ** The order of float64 values

    [<=] on floats is read through the specification of primitive floats
    ([Prim2SF], [leb_spec]): on values that are not NaN it is the
    lexicographic order of a key made of the class, the exponent and the
    mantissa, and on ordinary values the key determines the float. *)

Module FloatOrder.

Definition key (f : spec_float) : Z * Z * Z :=
  match f with
  | S754_nan => (0, 0, 0)
  | S754_infinity true => (-2, 0, 0)
  | S754_finite true m e => (-1, - e, - Zpos m)
  | S754_zero _ => (0, 0, 0)
  | S754_finite false m e => (1, e, Zpos m)
  | S754_infinity false => (2, 0, 0)
  end.

Definition key_le (k1 k2 : Z * Z * Z) : Prop :=
  k1.1.1 < k2.1.1
  ∨ (k1.1.1 = k2.1.1
     ∧ (k1.1.2 < k2.1.2 ∨ (k1.1.2 = k2.1.2 ∧ k1.2 <= k2.2))).

Definition not_nan (f : spec_float) : Prop := f ≠ S754_nan.

Definition sf_ordinary (f : spec_float) : Prop :=
  f ≠ S754_nan ∧ f ≠ S754_zero true.

Lemma SFleb_key f1 f2 :
  not_nan f1 → not_nan f2 → SFleb f1 f2 = true ↔ key_le (key f1) (key f2).
Proof.
  unfold not_nan, SFleb, SFcompare, key_le.
  destruct f1 as [s1|s1| |s1 m1 e1], f2 as [s2|s2| |s2 m2 e2];
    intros H1 H2; try done;
    repeat match goal with s : bool |- _ => destruct s end; simpl;
    try (split; [intros; lia | done]);
    try (split; [done | intros; lia]).
  - change (Pos.compare_cont Eq m1 m2) with (Pos.compare m1 m2).
    destruct (Z.compare_spec e1 e2), (Pos.compare_spec m1 m2); simpl;
      split; intros; try done; lia.
  - change (Pos.compare_cont Eq m1 m2) with (Pos.compare m1 m2).
    destruct (Z.compare_spec e1 e2), (Pos.compare_spec m1 m2); simpl;
      split; intros; try done; lia.
Qed.

Lemma key_inj f1 f2 :
  sf_ordinary f1 → sf_ordinary f2 → key f1 = key f2 → f1 = f2.
Proof.
  unfold sf_ordinary.
  destruct f1 as [s1|s1| |s1 m1 e1], f2 as [s2|s2| |s2 m2 e2];
    intros [H1 H1'] [H2 H2'];
    repeat match goal with s : bool |- _ => destruct s end; simpl;
    intros Hk; try done; simplify_eq; try done.
  - f_equal; lia.
Qed.

Lemma ordinary_spec x :
  GoFloat.ordinary x = true ↔ sf_ordinary (Prim2SF x).
Proof.
  unfold GoFloat.ordinary, sf_ordinary.
  destruct (Prim2SF x) as [[]|[]| |]; split; try done; intros [? ?]; done.
Qed.

Lemma leb_key x y :
  GoFloat.ordinary x = true → GoFloat.ordinary y = true →
  (x <=? y)%float = true ↔ key_le (key (Prim2SF x)) (key (Prim2SF y)).
Proof.
  intros Hx%ordinary_spec Hy%ordinary_spec.
  rewrite leb_spec. apply SFleb_key; [apply Hx|apply Hy].
Qed.

Lemma leb_total x y :
  GoFloat.ordinary x = true → GoFloat.ordinary y = true →
  (x <=? y)%float = true ∨ (y <=? x)%float = true.
Proof.
  intros Hx Hy. rewrite !leb_key by done. unfold key_le.
  destruct (key (Prim2SF x)) as [[a b] c], (key (Prim2SF y)) as [[a' b'] c'].
  simpl. lia.
Qed.

Lemma leb_trans x y z :
  GoFloat.ordinary x = true → GoFloat.ordinary y = true →
  GoFloat.ordinary z = true →
  (x <=? y)%float = true → (y <=? z)%float = true → (x <=? z)%float = true.
Proof.
  intros Hx Hy Hz. rewrite !leb_key by done. unfold key_le.
  destruct (key (Prim2SF x)) as [[a b] c], (key (Prim2SF y)) as [[a' b'] c'],
    (key (Prim2SF z)) as [[a'' b''] c''].
  simpl. lia.
Qed.

Lemma leb_antisym x y :
  GoFloat.ordinary x = true → GoFloat.ordinary y = true →
  (x <=? y)%float = true → (y <=? x)%float = true → x = y.
Proof.
  intros Hx Hy H1 H2.
  apply leb_key in H1; [|done..]. apply leb_key in H2; [|done..].
  apply Prim2SF_inj, key_inj; [by apply ordinary_spec..|].
  unfold key_le in *.
  destruct (key (Prim2SF x)) as [[a b] c], (key (Prim2SF y)) as [[a' b'] c'].
  simpl in *. repeat f_equal; lia.
Qed.

Lemma leb_refl x : GoFloat.ordinary x = true → (x <=? x)%float = true.
Proof. intros Hx. destruct (leb_total x x Hx Hx); done. Qed.

(** On ordinary values the ordering of [sort.Float64s] is [<], and where
    it does not hold the converse [<=] does. *)
Lemma not_less_leb x y :
  GoFloat.ordinary x = true → GoFloat.ordinary y = true →
  float64_less x y = false → (y <=? x)%float = true.
Proof.
  intros Hx Hy. unfold float64_less. intros Hless.
  apply orb_false_elim in Hless as [Hlt _].
  rewrite ltb_spec in Hlt. rewrite leb_spec.
  apply ordinary_spec in Hx as [Hx _]. apply ordinary_spec in Hy as [Hy _].
  revert Hlt. unfold SFltb, SFleb.
  destruct (Prim2SF x) as [s1|s1| |s1 m1 e1], (Prim2SF y) as [s2|s2| |s2 m2 e2];
    try done;
    repeat match goal with s : bool |- _ => destruct s end; simpl; try done.
  - rewrite (Z.compare_antisym e1 e2).
    change (Pos.compare_cont Eq m1 m2) with (Pos.compare m1 m2).
    change (Pos.compare_cont Eq m2 m1) with (Pos.compare m2 m1).
    rewrite (Pos.compare_antisym m1 m2).
    by destruct (e1 ?= e2), (m1 ?= m2)%positive.
  - rewrite (Z.compare_antisym e1 e2).
    change (Pos.compare_cont Eq m1 m2) with (Pos.compare m1 m2).
    change (Pos.compare_cont Eq m2 m1) with (Pos.compare m2 m1).
    rewrite (Pos.compare_antisym m1 m2).
    by destruct (e1 ?= e2), (m1 ?= m2)%positive.
Qed.

Lemma less_leb x y :
  GoFloat.ordinary x = true → GoFloat.ordinary y = true →
  float64_less x y = true → (x <=? y)%float = true.
Proof.
  intros Hx Hy Hless.
  destruct (leb_total x y Hx Hy) as [|Hyx]; [done|].
  unfold float64_less in Hless. apply orb_prop in Hless as [Hlt|Hnan].
  - rewrite ltb_spec in Hlt. rewrite leb_spec. revert Hlt.
    unfold SFltb, SFleb. by destruct (SFcompare _ _) as [[]|].
  - apply andb_prop in Hnan as [Hnan _]. unfold GoFloat.isNaN in Hnan.
    apply negb_true_iff in Hnan.
    pose proof (leb_refl x Hx) as Hrefl.
    rewrite FloatAxioms.eqb_spec in Hnan. rewrite leb_spec in Hrefl.
    apply ordinary_spec in Hx as [Hx _].
    revert Hnan Hrefl. unfold SFeqb, SFleb, SFcompare.
    destruct (Prim2SF x) as [[]|[]| |[] m e]; try done; simpl.
    + rewrite Z.compare_refl.
      change (Pos.compare_cont Eq m m) with (Pos.compare m m).
      by rewrite Pos.compare_refl.
    + rewrite Z.compare_refl.
      change (Pos.compare_cont Eq m m) with (Pos.compare m m).
      by rewrite Pos.compare_refl.
Qed.

End FloatOrder.

(** ** Sorting the latencies *)

Definition float_le (x y : float) : Prop := (x <=? y)%float = true.

Definition all_ordinary (l : list float) : Prop :=
  Forall (λ x, GoFloat.ordinary x = true) l.

Lemma sort_insert_perm x l : sort_insert x l ≡ₚ x :: l.
Proof.
  induction l as [|y l IH]; simpl; [done|].
  destruct (float64_less x y); [done|].
  rewrite IH. apply Permutation_swap.
Qed.

Lemma sort_Float64s_perm l : sort_Float64s l ≡ₚ l.
Proof.
  induction l as [|x l IH]; simpl; [done|].
  by rewrite sort_insert_perm, IH.
Qed.

Lemma sort_insert_sorted x l :
  GoFloat.ordinary x = true → all_ordinary l →
  StronglySorted float_le l → StronglySorted float_le (sort_insert x l).
Proof.
  intros Hx Hl Hs. induction Hs as [|y l Hs IH Hy]; simpl.
  - repeat constructor.
  - apply Forall_cons in Hl as [Hoy Hl].
    destruct (float64_less x y) eqn:Hless.
    + constructor; [by constructor|].
      assert (Hxy : float_le x y) by (by apply FloatOrder.less_leb).
      constructor; [done|].
      rewrite Forall_forall in Hy, Hl. apply Forall_forall. intros z Hz.
      eapply FloatOrder.leb_trans; [done| exact Hoy |by apply Hl|done|by apply Hy].
    + constructor; [by apply IH|].
      rewrite sort_insert_perm. constructor; [|done].
      by apply FloatOrder.not_less_leb.
Qed.

Lemma sort_Float64s_sorted l :
  all_ordinary l → StronglySorted float_le (sort_Float64s l).
Proof.
  induction 1 as [|x l Hx Hl IH]; simpl; [constructor|].
  apply sort_insert_sorted; [done| |done].
  unfold all_ordinary. by rewrite sort_Float64s_perm.
Qed.

(** On ordinary values the sorted list does not depend on the order of
    the input. *)
Lemma sort_Float64s_order l1 l2 :
  l1 ≡ₚ l2 → all_ordinary l1 → sort_Float64s l1 = sort_Float64s l2.
Proof.
  intros Hperm Hl1.
  assert (Hl2 : all_ordinary l2) by (unfold all_ordinary; by rewrite <- Hperm).
  apply (StronglySorted_unique_strong float_le).
  - intros x1 x2 Hx1 Hx2. apply FloatOrder.leb_antisym.
    + rewrite sort_Float64s_perm in Hx1.
      unfold all_ordinary in Hl1. rewrite Forall_forall in Hl1. by apply Hl1.
    + rewrite sort_Float64s_perm in Hx2.
      unfold all_ordinary in Hl2. rewrite Forall_forall in Hl2. by apply Hl2.
  - by apply sort_Float64s_sorted.
  - by apply sort_Float64s_sorted.
  - by rewrite !sort_Float64s_perm.
Qed.

Lemma sorted_ascending l :
  all_ordinary l → StronglySorted float_le l → ascending l = true.
Proof.
  intros Hl Hs. induction Hs as [|x l Hs IH Hx]; simpl; [done|].
  apply Forall_cons in Hl as [Hox Hl].
  rewrite FloatOrder.leb_refl by done. rewrite IH by done.
  rewrite andb_true_r. simpl. apply forallb_forall.
  intros y Hy. rewrite Forall_forall in Hx. apply Hx. by apply list_elem_of_In.
Qed.

Lemma sort_Float64s_ascending l :
  all_ordinary l → ascending (sort_Float64s l) = true.
Proof.
  intros Hl. apply sorted_ascending; [|by apply sort_Float64s_sorted].
  unfold all_ordinary. by rewrite sort_Float64s_perm.
Qed.

(** ** Arrival order *)

(** The latencies of the successful records, in arrival order. *)
Definition success_latencies (rs : list result) : list float :=
  map (λ res, Duration.Seconds (duration res))
      (filter (λ res, err res = None) rs).

(** The average [finalize] computes: the latencies are added up one by
    one as they arrive, and the sum is divided by their number. *)
Definition arrival_average (rs : list result) : float :=
  (fold_left PrimFloat.add (success_latencies rs) 0
   / GoFloat.of_int (len (success_latencies rs)))%float.

Definition set_AverageSecond (a : float) (rr : ReportResult) : ReportResult :=
  {| summary :=
       {| TotalSecond := TotalSecond (summary rr);
          SlowestSecond := SlowestSecond (summary rr);
          FastestSecond := FastestSecond (summary rr);
          AverageSecond := a;
          RequestsPerSec := RequestsPerSec (summary rr);
          TotalSize := TotalSize (summary rr);
          SizePerRequest := SizePerRequest (summary rr) |};
     StatusCodeDist := StatusCodeDist rr;
     ResponseTimes := ResponseTimes rr;
     LatencyDist := LatencyDist rr;
     ErrorDist := ErrorDist rr |}.

(** Two reports in the making that hold the same counts, the same sizes
    and the same latencies up to their order. *)
Record same_tally (r r' : report) : Prop := {
  same_lats : lats r ≡ₚ lats r';
  same_errors : errorDist r = errorDist r';
  same_codes : statusCodeDist r = statusCodeDist r';
  same_size : sizeTotal r = sizeTotal r';
  same_total : total r = total r'
}.

Lemma same_tally_refl r : same_tally r r.
Proof. by constructor. Qed.

Lemma same_tally_trans r1 r2 r3 :
  same_tally r1 r2 → same_tally r2 r3 → same_tally r1 r3.
Proof.
  intros [] []. constructor; try congruence. by etrans.
Qed.

Lemma consume_same_tally r r' res :
  same_tally r r' → same_tally (consume r res) (consume r' res).
Proof.
  intros [Hl He Hc Hs Ht]. unfold consume.
  destruct (err res); constructor; simpl;
    rewrite ?He, ?Hc, ?Hs, ?Ht; try done; by rewrite Hl.
Qed.

Lemma consume_swap r x y :
  same_tally (consume (consume r x) y) (consume (consume r y) x).
Proof.
  unfold consume.
  destruct (err x) as [mx|], (err y) as [my|]; constructor; simpl; try done.
  - apply bump_comm.
  - rewrite <- !app_assoc. apply Permutation_app_head, Permutation_swap.
  - apply bump_comm.
  - destruct (0 <? contentLength x), (0 <? contentLength y); try done.
    apply GoIntFacts.add_swap.
Qed.

Lemma drain_same_tally rs r r' :
  same_tally r r' → same_tally (drain r rs) (drain r' rs).
Proof.
  revert r r'. induction rs as [|res rs IH]; intros r r' Hrr'; [done|].
  apply (IH (consume r res) (consume r' res)). by apply consume_same_tally.
Qed.

Lemma drain_permutation rs1 rs2 :
  rs1 ≡ₚ rs2 → ∀ r r', same_tally r r' → same_tally (drain r rs1) (drain r' rs2).
Proof.
  induction 1 as [|x l l' _ IH|x y l|l l' l'' _ IH1 _ IH2]; intros r r' Hrr'.
  - done.
  - apply (IH (consume r x) (consume r' x)). by apply consume_same_tally.
  - change (drain r (y :: x :: l)) with (drain (consume (consume r y) x) l).
    change (drain r' (x :: y :: l)) with (drain (consume (consume r' x) y) l).
    apply drain_same_tally.
    eapply same_tally_trans; [apply consume_swap|].
    by do 2 apply consume_same_tally.
  - eapply same_tally_trans; [by apply IH1|]. apply IH2, same_tally_refl.
Qed.

(** What the drain leaves in [lats] and [avgTotal]. *)
Lemma drain_latencies rs : ∀ r,
  lats (drain r rs) = lats r ++ success_latencies rs
  ∧ avgTotal (drain r rs)
    = fold_left PrimFloat.add (success_latencies rs) (avgTotal r).
Proof.
  induction rs as [|res rs IH]; intros r.
  - unfold success_latencies. simpl. by rewrite app_nil_r.
  - change (drain r (res :: rs)) with (drain (consume r res) rs).
    destruct (IH (consume r res)) as [-> ->].
    unfold success_latencies, consume. rewrite filter_cons.
    case_decide as Herr.
    + rewrite Herr. simpl. by rewrite <- app_assoc.
    + by destruct (err res).
Qed.

(** The histogram [print] builds from the sorted latencies [ls]. *)
Definition histogram_of (ls : list float) : option (list ResponseTime) :=
  printHistogram (with_extremes (mkReport 0 0 0 0 0 0 ∅ ∅ ls 0)).

Lemma printHistogram_extremes r :
  printHistogram (with_extremes r) = histogram_of (lats r).
Proof. done. Qed.

Lemma histogram_of_total ls :
  ls ≠ [] → ascending ls = true → len ls < GoInt.max_int →
  is_Some (histogram_of ls).
Proof.
  intros Hne Hasc Hbound. unfold histogram_of, printHistogram.
  set (r' := with_extremes _).
  set (buckets := make_buckets r').
  change (lats r') with ls.
  destruct (histogram_loop_total ls buckets (histogram_fuel ls buckets)
              0 0 (replicate (S bc) 0) 0)
    as (counts & max & bi & Hloop & _).
  - intros x Hx. subst buckets. rewrite make_buckets_last. simpl.
    by apply ascending_le_last.
  - done.
  - constructor; [simpl; lia|done|by repeat constructor|done|lia|by left].
  - unfold histogram_fuel. simpl. lia.
  - rewrite Hloop. eauto.
Qed.

(** [print] read off the sorted latencies. *)
Lemma print_unfold r :
  print r
  = if (0 <? length (sort_Float64s (lats r)))%nat then
      match histogram_of (sort_Float64s (lats r)) with
      | Some bars =>
          Some {| summary :=
                    {| TotalSecond := Duration.Seconds (total r);
                       SlowestSecond := default 0%float (last (sort_Float64s (lats r)));
                       FastestSecond := default 0%float (head (sort_Float64s (lats r)));
                       AverageSecond := average r;
                       RequestsPerSec := rps r;
                       TotalSize := if 0 <? sizeTotal r then sizeTotal r else 0;
                       SizePerRequest :=
                         if 0 <? sizeTotal r
                         then GoInt.quo (sizeTotal r) (len (sort_Float64s (lats r)))
                         else 0 |};
                  StatusCodeDist := Some (statusCodeDist r);
                  ResponseTimes := Some bars;
                  LatencyDist :=
                    Some (latencies_map (latencies_data (sort_Float64s (lats r))));
                  ErrorDist := print_errors r |}
      | None => None
      end
    else
      Some {| summary := zeroSummary; StatusCodeDist := None;
              ResponseTimes := None; LatencyDist := None;
              ErrorDist := print_errors r |}.
Proof.
  unfold print. simpl.
  destruct (0 <? length (sort_Float64s (lats r)))%nat; [|done].
  rewrite printHistogram_extremes. simpl.
  by destruct (histogram_of _).
Qed.

Lemma success_latencies_length rs :
  (length (success_latencies rs) ≤ length rs)%nat.
Proof.
  unfold success_latencies. rewrite length_map. apply length_filter.
Qed.

Lemma print_errors_same r r' :
  errorDist r = errorDist r' → print_errors r = print_errors r'.
Proof. unfold print_errors. by intros ->. Qed.

(** C8, as the code has it.  Two arrival orders of the same records give
    reports that agree in every field but [AverageSecond]: the latencies
    are sorted before the extremes, the percentiles and the histogram are
    read off them, and the counters do not depend on the order; the
    average is the sum of the latencies in arrival order over their
    number. *)
Theorem report_up_to_average (t : Z) (rs1 rs2 : list result) :
  rs1 ≡ₚ rs2 →
  all_ordinary (success_latencies rs1) →
  len rs1 < GoInt.max_int →
  ∃ rr1 rr2,
    finalize (newReport t) rs1 = Some rr1
    ∧ finalize (newReport t) rs2 = Some rr2
    ∧ rr2 = set_AverageSecond (AverageSecond (summary rr2)) rr1
    ∧ AverageSecond (summary rr1)
      = (if decide (success_latencies rs1 = []) then 0%float
         else arrival_average rs1)
    ∧ AverageSecond (summary rr2)
      = (if decide (success_latencies rs2 = []) then 0%float
         else arrival_average rs2).
Proof.
  intros Hperm Hord Hbound.
  pose proof (drain_permutation rs1 rs2 Hperm (newReport t) (newReport t)
                (same_tally_refl _)) as [Hl He Hc Hs Ht].
  destruct (drain_latencies rs1 (newReport t)) as [Hl1 Ha1].
  destruct (drain_latencies rs2 (newReport t)) as [Hl2 Ha2].
  simpl in Hl1, Hl2, Ha1, Ha2.
  set (d1 := drain (newReport t) rs1) in *.
  set (d2 := drain (newReport t) rs2) in *.
  assert (Hsort : sort_Float64s (lats d1) = sort_Float64s (lats d2)).
  { apply sort_Float64s_order; [done|]. by rewrite Hl1. }
  assert (Hlen : length (lats d2) = length (lats d1)) by (by rewrite Hl).
  unfold finalize. fold d1 d2. rewrite !print_unfold.
  cbn [settle lats total sizeTotal statusCodeDist average rps avgTotal].
  rewrite <- Hsort, <- Hc, <- Hs, <- Ht.
  rewrite (print_errors_same (settle d2) (settle d1)) by (by simpl).
  assert (Hlen' : len (lats d2) = len (lats d1)) by (unfold len; congruence).
  rewrite !Hlen'.
  destruct (0 <? length (sort_Float64s (lats d1)))%nat eqn:Hpos.
  - apply Nat.ltb_lt in Hpos.
    assert (Hne : lats d1 ≠ []).
    { intros Hnil. rewrite Hnil in Hpos. simpl in Hpos. lia. }
    destruct (histogram_of_total (sort_Float64s (lats d1))) as [bars Hbars].
    + intros Hnil. rewrite Hnil in Hpos. simpl in Hpos. lia.
    + apply sort_Float64s_ascending. by rewrite Hl1.
    + unfold len in *. rewrite sort_Float64s_length, Hl1.
      pose proof (success_latencies_length rs1). lia.
    + rewrite Hbars. eexists _, _. split; [done|]. split; [done|].
      split; [done|]. simpl.
      assert (Hne1 : success_latencies rs1 ≠ []) by (by rewrite <- Hl1).
      assert (Hne2 : success_latencies rs2 ≠ []).
      { rewrite <- Hl2. intros Hnil. rewrite Hnil in Hlen.
        destruct (lats d1); [done|simpl in Hlen; lia]. }
      rewrite !decide_False by done.
      unfold arrival_average. by rewrite Ha1, Ha2, <- Hl1, <- Hl2, Hlen'.
  - apply Nat.ltb_ge in Hpos. rewrite sort_Float64s_length in Hpos.
    eexists _, _. split; [done|]. split; [done|]. split; [done|]. simpl.
    assert (H1 : success_latencies rs1 = []).
    { rewrite <- Hl1. destruct (lats d1); [done|simpl in Hpos; lia]. }
    assert (H2 : success_latencies rs2 = []).
    { rewrite <- Hl2. destruct (lats d2); [done|simpl in *; lia]. }
    by rewrite !decide_True.
Qed.

(** Three successes of 0.1, 0.2 and 0.3 seconds, and the same three the
    other way round. *)
Definition arrival_1 : list result :=
  [mkResult None 200 100000000 0; mkResult None 200 200000000 0;
   mkResult None 200 300000000 0].

Definition arrival_2 : list result :=
  [mkResult None 200 300000000 0; mkResult None 200 200000000 0;
   mkResult None 200 100000000 0].

Lemma arrivals_permuted : arrival_1 ≡ₚ arrival_2.
Proof.
  unfold arrival_1, arrival_2.
  etrans; [apply perm_skip, perm_swap|].
  etrans; [apply perm_swap|].
  apply perm_skip, perm_swap.
Qed.

(** The two orders give two averages: (0.1 + 0.2) + 0.3 and
    (0.3 + 0.2) + 0.1 are not the same float. *)
Lemma average_depends_on_arrival :
  arrival_1 ≡ₚ arrival_2
  ∧ ∃ rr1 rr2,
      finalize (newReport 1000000000) arrival_1 = Some rr1
      ∧ finalize (newReport 1000000000) arrival_2 = Some rr2
      ∧ AverageSecond (summary rr1) = 0x1.999999999999bp-3%float
      ∧ AverageSecond (summary rr2) = 0x1.9999999999999p-3%float
      ∧ rr1 ≠ rr2.
Proof.
  split.
  - exact arrivals_permuted.
  - eexists _, _. split; [vm_compute; reflexivity|].
    split; [vm_compute; reflexivity|].
    split; [vm_compute; reflexivity|]. split; [vm_compute; reflexivity|].
    intros Heq. apply (f_equal (λ rr, AverageSecond (summary rr))) in Heq.
    vm_compute in Heq. discriminate Heq.
Qed.

Lemma report_up_to_average_witness :
  (arrival_1 ≡ₚ arrival_2 ∧ all_ordinary (success_latencies arrival_1)
   ∧ len arrival_1 < GoInt.max_int)
  ∧ ∃ rr1 rr2,
      finalize (newReport 1000000000) arrival_1 = Some rr1
      ∧ finalize (newReport 1000000000) arrival_2 = Some rr2
      ∧ rr2 = set_AverageSecond (AverageSecond (summary rr2)) rr1.
Proof.
  assert (Hperm : arrival_1 ≡ₚ arrival_2) by exact arrivals_permuted.
  assert (Hord : all_ordinary (success_latencies arrival_1)).
  { repeat constructor. }
  assert (Hlen : len arrival_1 < GoInt.max_int) by reflexivity.
  split; [split; [exact Hperm|split; [exact Hord|exact Hlen]]|].
  destruct (report_up_to_average 1000000000 arrival_1 arrival_2 Hperm Hord Hlen)
    as (rr1 & rr2 & H1 & H2 & Heq & _).
  exists rr1, rr2. split; [exact H1|]. split; [exact H2|exact Heq].
Defined.

(** * Further properties of the report *)

(** [finalize] returns: on latencies that are ordinary floats the
    histogram loop ends. *)
Lemma finalize_returns (t : Z) (rs : list result) :
  all_ordinary (success_latencies rs) → len rs < GoInt.max_int →
  is_Some (finalize (newReport t) rs).
Proof.
  intros Hord Hbound.
  destruct (drain_latencies rs (newReport t)) as [Hl _]. simpl in Hl.
  unfold finalize. rewrite print_unfold.
  cbn [settle lats]. rewrite Hl.
  destruct (0 <? length (sort_Float64s (success_latencies rs)))%nat eqn:Hpos;
    [|eauto].
  apply Nat.ltb_lt in Hpos.
  destruct (histogram_of_total (sort_Float64s (success_latencies rs)))
    as [bars Hbars].
  - intros Hnil. rewrite Hnil in Hpos. simpl in Hpos. lia.
  - by apply sort_Float64s_ascending.
  - unfold len in *. rewrite sort_Float64s_length.
    pose proof (success_latencies_length rs). lia.
  - rewrite Hbars. eauto.
Qed.

(** The report of a run accounts for every record that was in the
    channel: the counts of the two distributions add up to the number of
    records drained. *)
Theorem every_drained_record_counted (t : Z) (rs : list result) :
  all_ordinary (success_latencies rs) → len rs < GoInt.max_int →
  ∃ rr, finalize (newReport t) rs = Some rr ∧ accounted rr = len rs.
Proof.
  intros Hord Hbound.
  destruct (finalize_returns t rs Hord Hbound) as [rr Hfin].
  exists rr. split; [done|].
  apply (finalize_accounts_for_drained t); [lia|done].
Qed.

(** Two successes, one of them with an unknown content length, and two
    failures with the same message. *)
Definition mixed_records : list result :=
  [mkResult None 200 100000000 120;
   mkResult (Some "connection refused") 0 5000000 0;
   mkResult None 404 300000000 (-1);
   mkResult (Some "connection refused") 0 7000000 0].

Lemma mixed_records_ordinary : all_ordinary (success_latencies mixed_records).
Proof. repeat constructor. Qed.

Lemma every_drained_record_counted_witness :
  (all_ordinary (success_latencies mixed_records)
   ∧ len mixed_records < GoInt.max_int)
  ∧ ∃ rr, finalize (newReport 1000000000) mixed_records = Some rr
      ∧ accounted rr = 4.
Proof.
  assert (Hlen : len mixed_records < GoInt.max_int) by reflexivity.
  split; [split; [exact mixed_records_ordinary|exact Hlen]|].
  exact (every_drained_record_counted 1000000000 mixed_records
           mixed_records_ordinary Hlen).
Defined.

(** ** The two distributions, key by key *)

(** How many records of [rs] satisfy [P]. *)
Definition count_where (P : result → Prop) `{∀ res, Decision (P res)}
    (rs : list result) : Z :=
  len (filter P rs).

Definition failed_with (msg : string) (res : result) : Prop :=
  err res = Some msg.

Definition succeeded_with (code : Z) (res : result) : Prop :=
  err res = None ∧ statusCode res = code.

Global Instance failed_with_dec msg res : Decision (failed_with msg res).
Proof. unfold failed_with. apply _. Defined.

Global Instance succeeded_with_dec code res : Decision (succeeded_with code res).
Proof. unfold succeeded_with. apply _. Defined.

(** The count a map of counters holds for a key; a missing key holds 0. *)
Definition count_at `{Countable K} (m : gmap K Z) (k : K) : Z :=
  default 0 (m !! k).

(** The entry a counter that reached [c] has in its map. *)
Definition entry_of (c : Z) : option Z := if decide (c = 0) then None else Some c.

Section CounterEntries.
Context `{Countable K}.

(** Every entry of the map is positive: a key is only ever entered by an
    increment. *)
Definition positive_entries (m : gmap K Z) : Prop := map_Forall (λ _ v, 0 < v) m.

Lemma count_at_bump (m : gmap K Z) (k k' : K) :
  0 <= count_at m k' < GoInt.max_int →
  count_at (bump k' m) k = count_at m k + (if decide (k = k') then 1 else 0).
Proof.
  intros Hrange. unfold count_at, bump in *.
  destruct (decide (k = k')) as [->|Hne].
  - rewrite lookup_insert_eq. simpl. by apply GoIntFacts.incr_small.
  - rewrite lookup_insert_ne by done. lia.
Qed.

Lemma positive_entries_bump (m : gmap K Z) (k : K) :
  positive_entries m → 0 <= count_at m k < GoInt.max_int →
  positive_entries (bump k m).
Proof.
  intros Hpos Hrange. unfold bump. apply map_Forall_insert_2; [|done].
  unfold count_at in Hrange. rewrite GoIntFacts.incr_small by done. lia.
Qed.

Lemma positive_entry (m : gmap K Z) (k : K) :
  positive_entries m → m !! k = entry_of (count_at m k).
Proof.
  intros Hpos. unfold entry_of, count_at.
  destruct (m !! k) as [v|] eqn:Hk; simpl.
  - apply Hpos in Hk. simpl in Hk. by rewrite decide_False by lia.
  - done.
Qed.

End CounterEntries.

Lemma count_where_cons (P : result → Prop) `{∀ res, Decision (P res)} res rs :
  count_where P (res :: rs)
  = (if decide (P res) then 1 else 0) + count_where P rs.
Proof.
  unfold count_where, len. rewrite filter_cons.
  destruct (decide (P res)); simpl; lia.
Qed.

Lemma count_where_range (P : result → Prop) `{∀ res, Decision (P res)} rs :
  0 <= count_where P rs <= len rs.
Proof.
  unfold count_where, len. pose proof (length_filter P rs). lia.
Qed.

(** The counters after a drain, from any report in the making whose
    counters leave room for [len rs] increments. *)
Lemma drain_counts (rs : list result) : ∀ (r : report) (bound : Z),
  positive_entries (errorDist r) → positive_entries (statusCodeDist r) →
  (∀ msg, 0 <= count_at (errorDist r) msg <= bound) →
  (∀ code, 0 <= count_at (statusCodeDist r) code <= bound) →
  bound + len rs < GoInt.max_int →
  positive_entries (errorDist (drain r rs))
  ∧ positive_entries (statusCodeDist (drain r rs))
  ∧ (∀ msg, count_at (errorDist (drain r rs)) msg
            = count_at (errorDist r) msg + count_where (failed_with msg) rs)
  ∧ (∀ code, count_at (statusCodeDist (drain r rs)) code
             = count_at (statusCodeDist r) code
               + count_where (succeeded_with code) rs).
Proof.
  induction rs as [|res rs IH]; intros r bound Hpe Hpc Hbe Hbc Hroom.
  - simpl. unfold count_where, len. simpl.
    repeat split; try done; intros; lia.
  - change (drain r (res :: rs)) with (drain (consume r res) rs).
    assert (Hlen : len (res :: rs) = 1 + len rs) by (unfold len; simpl; lia).
    rewrite Hlen in Hroom.
    assert (Hnn : 0 <= len rs) by (unfold len; lia).
    destruct (IH (consume r res) (bound + 1)) as (Hpe' & Hpc' & He' & Hc').
    + unfold consume. destruct (err res) as [m|]; simpl; [|done].
      apply positive_entries_bump; [done|]. specialize (Hbe m). lia.
    + unfold consume. destruct (err res) as [m|]; simpl; [done|].
      apply positive_entries_bump; [done|].
      specialize (Hbc (statusCode res)). lia.
    + intros msg. unfold consume. destruct (err res) as [m|]; simpl.
      * rewrite count_at_bump by (specialize (Hbe m); lia).
        specialize (Hbe msg). case_decide; lia.
      * specialize (Hbe msg). lia.
    + intros code. unfold consume. destruct (err res) as [m|]; simpl.
      * specialize (Hbc code). lia.
      * rewrite count_at_bump by (specialize (Hbc (statusCode res)); lia).
        specialize (Hbc code). case_decide; lia.
    + lia.
    + split; [done|]. split; [done|]. split.
      * intros msg. rewrite He', count_where_cons.
        destruct (decide (failed_with msg res)) as [Hf|Hf];
          unfold failed_with in Hf; unfold consume.
        -- rewrite Hf. simpl.
           rewrite count_at_bump by (specialize (Hbe msg); lia).
           rewrite decide_True by done. lia.
        -- destruct (err res) as [m|] eqn:Herr; simpl; [|lia].
           rewrite count_at_bump by (specialize (Hbe m); lia).
           rewrite decide_False by congruence. lia.
      * intros code. rewrite Hc', count_where_cons.
        destruct (decide (succeeded_with code res)) as [[Hn Hcode]|Hs];
          unfold consume.
        -- rewrite Hn. simpl.
           rewrite count_at_bump by (specialize (Hbc (statusCode res)); lia).
           rewrite decide_True by done. lia.
        -- destruct (err res) as [m|] eqn:Herr; simpl; [lia|].
           rewrite count_at_bump by (specialize (Hbc (statusCode res)); lia).
           rewrite decide_False; [lia|].
           intros ->. apply Hs. by split.
Qed.

Lemma drain_total rs : ∀ r, total (drain r rs) = total r.
Proof.
  induction rs as [|res rs IH]; intros r; [done|].
  change (drain r (res :: rs)) with (drain (consume r res) rs).
  rewrite IH. unfold consume. by destruct (err res).
Qed.

(** The fields of the report [finalize] returns, read off the records. *)
Lemma finalize_fields (t : Z) (rs : list result) (rr : ReportResult) :
  finalize (newReport t) rs = Some rr →
  ErrorDist rr = print_errors (drain (newReport t) rs)
  ∧ if (0 <? length (success_latencies rs))%nat then
      StatusCodeDist rr = Some (statusCodeDist (drain (newReport t) rs))
      ∧ LatencyDist rr
        = Some (latencies_map
                  (latencies_data (sort_Float64s (success_latencies rs))))
      ∧ ResponseTimes rr = histogram_of (sort_Float64s (success_latencies rs))
      ∧ TotalSecond (summary rr) = Duration.Seconds t
      ∧ SlowestSecond (summary rr)
        = default 0%float (last (sort_Float64s (success_latencies rs)))
      ∧ FastestSecond (summary rr)
        = default 0%float (head (sort_Float64s (success_latencies rs)))
      ∧ AverageSecond (summary rr) = arrival_average rs
      ∧ RequestsPerSec (summary rr)
        = (GoFloat.of_int (len (success_latencies rs)) / Duration.Seconds t)%float
      ∧ TotalSize (summary rr)
        = (if 0 <? sizeTotal (drain (newReport t) rs)
           then sizeTotal (drain (newReport t) rs) else 0)
      ∧ SizePerRequest (summary rr)
        = (if 0 <? sizeTotal (drain (newReport t) rs)
           then GoInt.quo (sizeTotal (drain (newReport t) rs))
                  (len (success_latencies rs))
           else 0)
    else
      summary rr = zeroSummary ∧ StatusCodeDist rr = None
      ∧ LatencyDist rr = None ∧ ResponseTimes rr = None.
Proof.
  intros Hfin.
  destruct (drain_latencies rs (newReport t)) as [Hl Ha]. simpl in Hl, Ha.
  pose proof (drain_total rs (newReport t)) as Htotal. simpl in Htotal.
  unfold finalize in Hfin. rewrite print_unfold in Hfin.
  cbn [settle lats total sizeTotal statusCodeDist average rps avgTotal] in Hfin.
  rewrite Hl, Htotal, Ha in Hfin.
  rewrite sort_Float64s_length in Hfin.
  assert (Hpe : print_errors (settle (drain (newReport t) rs))
                = print_errors (drain (newReport t) rs)) by done.
  rewrite Hpe in Hfin.
  destruct (0 <? length (success_latencies rs))%nat.
  - destruct (histogram_of _) as [bars|] eqn:Hh; [|done].
    injection Hfin as <-. cbn.
    unfold len. rewrite sort_Float64s_length.
    repeat (split; [reflexivity|]). reflexivity.
  - injection Hfin as <-. cbn. repeat (split; [reflexivity|]). reflexivity.
Qed.

Lemma count_succeeded_le code rs :
  count_where (succeeded_with code) rs <= len (success_latencies rs).
Proof.
  unfold count_where, success_latencies, len. rewrite length_map.
  induction rs as [|res rs IH]; [done|].
  rewrite !filter_cons.
  destruct (decide (succeeded_with code res)) as [[Hn _]|_].
  - rewrite decide_True by done. simpl. lia.
  - case_decide; simpl; lia.
Qed.

(** Each distribution of the report holds, under a key, the number of
    drained records with that key: an error message has the number of
    records that failed with it, a status code the number of records that
    succeeded with it; a key that no record has is absent. *)
Theorem distributions_count_records (t : Z) (rs : list result) :
  all_ordinary (success_latencies rs) → len rs < GoInt.max_int →
  ∃ rr, finalize (newReport t) rs = Some rr
    ∧ (∀ msg, ErrorDist rr ≫= (.!! msg)
              = entry_of (count_where (failed_with msg) rs))
    ∧ (∀ code, StatusCodeDist rr ≫= (.!! code)
               = entry_of (count_where (succeeded_with code) rs)).
Proof.
  intros Hord Hbound.
  destruct (finalize_returns t rs Hord Hbound) as [rr Hfin].
  exists rr. split; [done|].
  destruct (finalize_fields t rs rr Hfin) as [Herr Hrest].
  destruct (drain_counts rs (newReport t) 0) as (Hpe & Hpc & He & Hc);
    try (by apply map_Forall_empty); try (intros; unfold count_at; simpl;
      rewrite lookup_empty; simpl; lia); [lia|].
  split.
  - intros msg. rewrite Herr, print_errors_spec.
    specialize (He msg). unfold count_at at 2 in He. simpl in He.
    rewrite lookup_empty in He. simpl in He.
    case_decide as Hempty; simpl.
    + unfold count_at in He. rewrite Hempty, lookup_empty in He. simpl in He.
      assert (count_where (failed_with msg) rs = 0) as -> by lia. done.
    + rewrite (positive_entry _ _ Hpe). f_equal. lia.
  - intros code.
    specialize (Hc code). unfold count_at at 2 in Hc. simpl in Hc.
    rewrite lookup_empty in Hc. simpl in Hc.
    destruct (0 <? length (success_latencies rs))%nat eqn:Hpos.
    + destruct Hrest as (-> & _). simpl.
      rewrite (positive_entry _ _ Hpc). f_equal. lia.
    + destruct Hrest as (_ & -> & _). simpl.
      apply Nat.ltb_ge in Hpos.
      pose proof (count_succeeded_le code rs) as Hle.
      pose proof (count_where_range (succeeded_with code) rs) as Hge.
      unfold len in Hle at 1.
      unfold entry_of. rewrite decide_True; [done|lia].
Qed.

Lemma distributions_count_records_witness :
  (all_ordinary (success_latencies mixed_records)
   ∧ len mixed_records < GoInt.max_int)
  ∧ ∃ rr, finalize (newReport 1000000000) mixed_records = Some rr
      ∧ ErrorDist rr ≫= (.!! "connection refused"%string) = Some 2
      ∧ StatusCodeDist rr ≫= (.!! 404) = Some 1
      ∧ StatusCodeDist rr ≫= (.!! 500) = None.
Proof.
  assert (Hlen : len mixed_records < GoInt.max_int) by reflexivity.
  split; [split; [exact mixed_records_ordinary|exact Hlen]|].
  destruct (distributions_count_records 1000000000 mixed_records
              mixed_records_ordinary Hlen) as (rr & Hfin & He & Hc).
  exists rr. split; [exact Hfin|].
  split; [rewrite He; reflexivity|].
  split; rewrite Hc; reflexivity.
Defined.

(** ** Sizes *)

(** The content lengths that count: those of successful records, when
    positive (a response of unknown length has [-1]). *)
Definition success_sizes (rs : list result) : list Z :=
  map contentLength
      (filter (λ res, err res = None ∧ 0 < contentLength res) rs).

Lemma drain_size rs : ∀ r,
  sizeTotal (drain r rs) = fold_left GoInt.add (success_sizes rs) (sizeTotal r).
Proof.
  induction rs as [|res rs IH]; intros r; [done|].
  change (drain r (res :: rs)) with (drain (consume r res) rs).
  rewrite IH. unfold success_sizes. rewrite filter_cons.
  unfold consume.
  destruct (err res) as [msg|] eqn:Herr.
  - rewrite decide_False by (intros [? _]; done). done.
  - simpl. destruct (Z.ltb_spec 0 (contentLength res)).
    + rewrite decide_True by done. done.
    + rewrite decide_False by (intros [_ ?]; lia). done.
Qed.

Lemma fold_add_small (xs : list Z) : ∀ a,
  Forall (λ x, 0 < x) xs → 0 <= a → a + Zsum xs < 2 ^ 63 →
  fold_left GoInt.add xs a = a + Zsum xs.
Proof.
  induction xs as [|x xs IH]; intros a Hpos Ha Hsum; simpl in *; [lia|].
  apply Forall_cons in Hpos as [Hx Hpos].
  assert (0 <= Zsum xs).
  { clear -Hpos. induction Hpos; simpl; lia. }
  unfold GoInt.add at 2. rewrite GoIntFacts.wrap_small by lia.
  rewrite IH by (done || lia). lia.
Qed.

Lemma success_sizes_positive rs : Forall (λ x, 0 < x) (success_sizes rs).
Proof.
  unfold success_sizes. apply Forall_fmap, Forall_forall.
  intros res Hin. apply list_elem_of_filter in Hin as [[_ Hpos] _]. done.
Qed.

Lemma success_sizes_none rs : success_latencies rs = [] → success_sizes rs = [].
Proof.
  unfold success_latencies, success_sizes. intros Hnil.
  apply fmap_nil_inv in Hnil.
  induction rs as [|res rs IH]; [done|].
  rewrite filter_cons in Hnil. rewrite filter_cons.
  destruct (decide (err res = None)) as [Hn|Hn]; [done|].
  rewrite decide_False by (intros [? _]; done). by apply IH.
Qed.

(** [TotalSize] is the sum of the positive content lengths of the
    successful records, and [SizePerRequest] is that sum divided (towards
    zero) by the number of successes; a content length of zero or below
    (unknown) adds nothing. *)
Theorem size_summary (t : Z) (rs : list result) :
  all_ordinary (success_latencies rs) → len rs < GoInt.max_int →
  Zsum (success_sizes rs) < 2 ^ 63 →
  ∃ rr, finalize (newReport t) rs = Some rr
    ∧ TotalSize (summary rr) = Zsum (success_sizes rs)
    ∧ SizePerRequest (summary rr)
      = Zsum (success_sizes rs) ÷ len (success_latencies rs).
Proof.
  intros Hord Hbound Hsum.
  destruct (finalize_returns t rs Hord Hbound) as [rr Hfin].
  exists rr. split; [done|].
  destruct (finalize_fields t rs rr Hfin) as [_ Hrest].
  pose proof (success_sizes_positive rs) as Hpos.
  assert (Hnn : 0 <= Zsum (success_sizes rs)).
  { clear -Hpos. induction Hpos; simpl; lia. }
  assert (Hsize : sizeTotal (drain (newReport t) rs) = Zsum (success_sizes rs)).
  { rewrite drain_size. simpl. rewrite fold_add_small by (done || lia). lia. }
  rewrite Hsize in Hrest.
  destruct (0 <? length (success_latencies rs))%nat eqn:Hlen.
  - destruct Hrest as (_ & _ & _ & _ & _ & _ & _ & _ & -> & ->).
    apply Nat.ltb_lt in Hlen.
    destruct (Z.ltb_spec 0 (Zsum (success_sizes rs))) as [Hlt|Hge].
    + split; [done|]. apply GoIntFacts.quo_small; [lia|]. unfold len. lia.
    + assert (Zsum (success_sizes rs) = 0) as -> by lia.
      split; [done|]. symmetry. apply Z.quot_0_l. unfold len. lia.
  - destruct Hrest as (-> & _). simpl.
    apply Nat.ltb_ge in Hlen.
    assert (Hnil : success_latencies rs = []).
    { destruct (success_latencies rs); [done|simpl in Hlen; lia]. }
    rewrite (success_sizes_none rs Hnil), Hnil. done.
Qed.

Lemma size_summary_witness :
  (all_ordinary (success_latencies mixed_records)
   ∧ len mixed_records < GoInt.max_int
   ∧ Zsum (success_sizes mixed_records) < 2 ^ 63)
  ∧ ∃ rr, finalize (newReport 1000000000) mixed_records = Some rr
      ∧ TotalSize (summary rr) = 120 ∧ SizePerRequest (summary rr) = 60.
Proof.
  assert (Hlen : len mixed_records < GoInt.max_int) by reflexivity.
  assert (Hsum : Zsum (success_sizes mixed_records) < 2 ^ 63) by reflexivity.
  split; [split; [exact mixed_records_ordinary|split; [exact Hlen|exact Hsum]]|].
  destruct (size_summary 1000000000 mixed_records mixed_records_ordinary Hlen Hsum)
    as (rr & Hfin & Ht & Hp).
  exists rr. split; [exact Hfin|].
  split; [rewrite Ht; reflexivity|rewrite Hp; reflexivity].
Defined.

(** ** Fastest and slowest *)

(** With at least one success, [FastestSecond] and [SlowestSecond] are
    latencies of the run, and every latency of the run lies between
    them. *)
Theorem extremes_bound_latencies (t : Z) (rs : list result) :
  all_ordinary (success_latencies rs) → len rs < GoInt.max_int →
  success_latencies rs ≠ [] →
  ∃ rr, finalize (newReport t) rs = Some rr
    ∧ FastestSecond (summary rr) ∈ success_latencies rs
    ∧ SlowestSecond (summary rr) ∈ success_latencies rs
    ∧ ∀ x, x ∈ success_latencies rs →
        (FastestSecond (summary rr) <=? x)%float = true
        ∧ (x <=? SlowestSecond (summary rr))%float = true.
Proof.
  intros Hord Hbound Hne.
  destruct (finalize_returns t rs Hord Hbound) as [rr Hfin].
  exists rr. split; [done|].
  destruct (finalize_fields t rs rr Hfin) as [_ Hrest].
  destruct (0 <? length (success_latencies rs))%nat eqn:Hlen.
  2:{ apply Nat.ltb_ge in Hlen. destruct (success_latencies rs); [done|].
      simpl in Hlen. lia. }
  destruct Hrest as (_ & _ & _ & _ & -> & -> & _).
  pose proof (sort_Float64s_perm (success_latencies rs)) as Hperm.
  pose proof (sort_Float64s_sorted _ Hord) as Hsorted.
  pose proof (sort_Float64s_ascending _ Hord) as Hasc.
  assert (Hord' : all_ordinary (sort_Float64s (success_latencies rs))).
  { unfold all_ordinary. by rewrite Hperm. }
  destruct (sort_Float64s (success_latencies rs)) as [|h tl] eqn:Hs.
  { apply Permutation_nil in Hperm. done. }
  assert (Hlast : ∃ l, last (h :: tl) = Some l) by (by apply last_is_Some).
  destruct Hlast as [l Hl]. rewrite Hl. simpl.
  split; [rewrite <- Hperm; by left|].
  split; [rewrite <- Hperm; by eapply last_Some_elem_of|].
  intros x Hx. rewrite <- Hperm in Hx.
  split.
  - apply StronglySorted_inv in Hsorted as [_ Hall].
    apply elem_of_cons in Hx as [->|Hx].
    + apply FloatOrder.leb_refl. by apply Forall_cons in Hord' as [? _].
    + rewrite Forall_forall in Hall. by apply Hall.
  - pose proof (ascending_le_last _ x Hasc Hx) as Hle.
    by rewrite Hl in Hle.
Qed.

Lemma extremes_bound_latencies_witness :
  (all_ordinary (success_latencies mixed_records)
   ∧ len mixed_records < GoInt.max_int
   ∧ success_latencies mixed_records ≠ [])
  ∧ ∃ rr, finalize (newReport 1000000000) mixed_records = Some rr
      ∧ FastestSecond (summary rr) ∈ success_latencies mixed_records
      ∧ SlowestSecond (summary rr) ∈ success_latencies mixed_records.
Proof.
  assert (Hlen : len mixed_records < GoInt.max_int) by reflexivity.
  assert (Hne : success_latencies mixed_records ≠ []) by (vm_compute; discriminate).
  split; [split; [exact mixed_records_ordinary|split; [exact Hlen|exact Hne]]|].
  destruct (extremes_bound_latencies 1000000000 mixed_records
              mixed_records_ordinary Hlen Hne) as (rr & Hfin & Hf & Hs & _).
  exists rr. split; [exact Hfin|]. split; [exact Hf|exact Hs].
Defined.

(** ** More on the percentiles *)

Lemma latencies_loop_members (ls : list float) n : ∀ rest i j data,
  (∀ x, x ∈ rest → x ∈ ls) →
  Forall (λ d, d = 0%float ∨ d ∈ ls) data →
  Forall (λ d, d = 0%float ∨ d ∈ ls) (latencies_loop n rest i j data).
Proof.
  induction rest as [|x rest IH]; intros i j data Hsub Hdata; simpl; [done|].
  destruct (pctls !! j); [|done].
  assert (Hrest : ∀ y, y ∈ rest → y ∈ ls).
  { intros y Hy. apply Hsub. by right. }
  destruct (_ <=? _); apply IH; try done.
  apply Forall_insert; [done|]. right. apply Hsub. by left.
Qed.

Lemma latencies_map_Some (data : list float) (label : string) (v : float) :
  latencies_map data !! label = Some v →
  ∃ j p, pctls !! j = Some p ∧ label = percent_label p
         ∧ data !! j = Some v ∧ (0 <? v)%float = true.
Proof.
  unfold latencies_map.
  set (f := λ (m : gmap string float) (i : nat), _).
  assert (Hgen : ∀ idx (m : gmap string float),
    fold_left f idx m !! label = Some v →
    m !! label = Some v
    ∨ ∃ j p, pctls !! j = Some p ∧ label = percent_label p
             ∧ data !! j = Some v ∧ (0 <? v)%float = true).
  { induction idx as [|i idx IH]; intros m Hm; [by left|].
    change (fold_left f (i :: idx) m) with (fold_left f idx (f m i)) in Hm.
    destruct (IH _ Hm) as [Hstep|Hfound]; [|by right].
    unfold f in Hstep.
    destruct (pctls !! i) as [p|] eqn:Hp; [|by left].
    destruct (data !! i) as [d|] eqn:Hd; [|by left].
    destruct (0 <? d)%float eqn:Hpos; [|by left].
    destruct (decide (percent_label p = label)) as [<-|Hne].
    - rewrite lookup_insert_eq in Hstep. injection Hstep as ->.
      right. by exists i, p.
    - rewrite lookup_insert_ne in Hstep by done. by left. }
  intros Hm. destruct (Hgen _ _ Hm) as [Hempty|Hfound]; [|done].
  by rewrite lookup_empty in Hempty.
Qed.

(** Every entry of [LatencyDist] is a positive latency of the list, under
    the label of one of the seven targets: a latency of zero seconds is
    never reported. *)
Theorem percentile_entries (r : report) (label : string) (v : float) :
  printLatencies r !! label = Some v →
  (0 <? v)%float = true ∧ v ∈ lats r
  ∧ ∃ p, p ∈ pctls ∧ label = percent_label p.
Proof.
  unfold printLatencies. intros Hm.
  apply latencies_map_Some in Hm as (j & p & Hp & -> & Hd & Hpos).
  split; [done|]. split.
  - assert (Hall : Forall (λ d, d = 0%float ∨ d ∈ lats r)
                     (latencies_data (lats r))).
    { unfold latencies_data. apply latencies_loop_members; [done|].
      apply Forall_replicate. by left. }
    rewrite Forall_lookup in Hall. destruct (Hall j v Hd) as [->|Hin]; [|done].
    done.
  - exists p. split; [|done]. by eapply list_elem_of_lookup_2.
Qed.

Lemma percentile_entries_witness :
  printLatencies ten_samples !! percent_label 50 = Some 6%float
  ∧ (0 <? 6)%float = true ∧ 6%float ∈ lats ten_samples.
Proof.
  assert (Hm : printLatencies ten_samples !! percent_label 50 = Some 6%float)
    by (vm_compute; reflexivity).
  split; [exact Hm|].
  destruct (percentile_entries ten_samples (percent_label 50) 6%float Hm)
    as (Hpos & Hin & _).
  split; [exact Hpos|exact Hin].
Defined.

Lemma assigned_from_lower n ps : ∀ from k i,
  assigned_from n ps from !! k = Some (Some i) → (from ≤ i)%nat.
Proof.
  induction ps as [|p ps IH]; intros from k i Ha; [done|].
  simpl in Ha.
  destruct (first_reaching n p from) as [i0|] eqn:Hf.
  - apply first_reaching_Some in Hf as (Hr & _ & _).
    destruct k as [|k]; simpl in Ha.
    + simplify_eq. lia.
    + apply IH in Ha. lia.
  - destruct k as [|k]; simpl in Ha; [done|].
    by apply assigned_from_end in Ha.
Qed.

(** Later targets take later samples. *)
Lemma assigned_from_increasing n ps : ∀ from k k' i i',
  (k < k')%nat →
  assigned_from n ps from !! k = Some (Some i) →
  assigned_from n ps from !! k' = Some (Some i') → (i < i')%nat.
Proof.
  induction ps as [|p ps IH]; intros from k k' i i' Hk Ha Ha'; [done|].
  simpl in Ha, Ha'.
  destruct k' as [|k']; [lia|].
  destruct (first_reaching n p from) as [i0|] eqn:Hf.
  - simpl in Ha'. destruct k as [|k]; simpl in Ha.
    + simplify_eq. apply assigned_from_lower in Ha'. lia.
    + eapply IH; [|exact Ha|exact Ha']. lia.
  - simpl in Ha'. by apply assigned_from_end in Ha'.
Qed.

Lemma ascending_lookup (ls : list float) : ∀ i j x y,
  ascending ls = true → (i ≤ j)%nat → ls !! i = Some x → ls !! j = Some y →
  (x <=? y)%float = true.
Proof.
  induction ls as [|z ls IH]; intros i j x y Hasc Hij Hi Hj; [done|].
  simpl in Hasc. apply andb_prop in Hasc as [Hasc Hrest].
  apply andb_prop in Hasc as [Hrefl Hall].
  destruct i as [|i]; simpl in Hi.
  - simplify_eq. destruct j as [|j]; simpl in Hj; [by simplify_eq|].
    rewrite forallb_forall in Hall. apply Hall, list_elem_of_In.
    by eapply list_elem_of_lookup_2.
  - destruct j as [|j]; [lia|]. simpl in Hj.
    eapply (IH i j); eauto. lia.
Qed.

(** What [printLatencies] reports for a target: the positive sample the
    walk assigned to it, if any. *)
Lemma reported_percentile (r : report) (j : nat) (p : Z) (v : float) :
  100 * len (lats r) < 2 ^ 63 → pctls !! j = Some p →
  printLatencies r !! percent_label p = Some v →
  ∃ i, assigned (length (lats r)) !! j = Some (Some i) ∧ lats r !! i = Some v.
Proof.
  intros Hn Hp Hm.
  assert (Hj : (j < length pctls)%nat) by (by eapply lookup_lt_Some).
  unfold printLatencies in Hm.
  rewrite (latencies_map_lookup _ j p Hp) in Hm.
  rewrite (latencies_data_assigned _ j Hn Hj) in Hm.
  destruct (assigned (length (lats r)) !! j) as [[i|]|] eqn:Ha;
    try (by vm_compute in Hm).
  destruct (assigned_from_reaches _ _ _ _ _ _ Hp Ha) as [Hi _].
  apply lookup_lt_is_Some in Hi as [x Hx]. rewrite Hx in Hm. simpl in Hm.
  exists i. split; [done|].
  destruct (0 <? x)%float; by simplify_eq.
Qed.

(** On ascending latencies the reported percentiles ascend with their
    targets. *)
Theorem percentiles_ascend (r : report) (j j' : nat) (p p' : Z) (v v' : float) :
  100 * len (lats r) < 2 ^ 63 → ascending (lats r) = true →
  (j < j')%nat → pctls !! j = Some p → pctls !! j' = Some p' →
  printLatencies r !! percent_label p = Some v →
  printLatencies r !! percent_label p' = Some v' →
  (v <=? v')%float = true.
Proof.
  intros Hn Hasc Hjj Hp Hp' Hv Hv'.
  destruct (reported_percentile r j p v Hn Hp Hv) as (i & Ha & Hi).
  destruct (reported_percentile r j' p' v' Hn Hp' Hv') as (i' & Ha' & Hi').
  pose proof (assigned_from_increasing _ _ _ _ _ _ _ Hjj Ha Ha') as Hlt.
  eapply (ascending_lookup (lats r) i i'); eauto. lia.
Qed.

Lemma percentiles_ascend_witness :
  (100 * len (lats ten_samples) < 2 ^ 63 ∧ ascending (lats ten_samples) = true
   ∧ (0 < 2)%nat ∧ pctls !! 0%nat = Some 10 ∧ pctls !! 2%nat = Some 50
   ∧ printLatencies ten_samples !! percent_label 10 = Some 2%float
   ∧ printLatencies ten_samples !! percent_label 50 = Some 6%float)
  ∧ (2 <=? 6)%float = true.
Proof.
  assert (Hn : 100 * len (lats ten_samples) < 2 ^ 63) by (vm_compute; reflexivity).
  assert (Hasc : ascending (lats ten_samples) = true) by (vm_compute; reflexivity).
  assert (Hjj : (0 < 2)%nat) by lia.
  assert (Hv : printLatencies ten_samples !! percent_label 10 = Some 2%float)
    by (vm_compute; reflexivity).
  assert (Hv' : printLatencies ten_samples !! percent_label 50 = Some 6%float)
    by (vm_compute; reflexivity).
  split.
  - split; [exact Hn|]. split; [exact Hasc|]. split; [exact Hjj|].
    split; [reflexivity|]. split; [reflexivity|]. split; [exact Hv|exact Hv'].
  - exact (percentiles_ascend ten_samples 0 2 10 50 2 6 Hn Hasc Hjj
             eq_refl eq_refl Hv Hv').
Defined.

(** The least index whose rank among [n] reaches [p]: the ceiling of
    [p*n/100]. *)
Definition reaching_index (n : nat) (p : Z) : nat :=
  Z.to_nat ((p * Z.of_nat n + 99) / 100).

Lemma rank_reaches (n i : nat) (p : Z) :
  (0 < n)%nat → 0 <= p →
  p <= rank n i ↔ (reaching_index n p ≤ i)%nat.
Proof.
  intros Hn Hp. unfold rank, reaching_index.
  rewrite Z.quot_div_nonneg by lia.
  assert (Hq : p <= Z.of_nat i * 100 / Z.of_nat n ↔ p * Z.of_nat n <= Z.of_nat i * 100).
  { split; intros H.
    - pose proof (Z.mul_div_le (Z.of_nat i * 100) (Z.of_nat n) ltac:(lia)). nia.
    - apply Z.div_le_lower_bound; lia. }
  rewrite Hq.
  pose proof (Z.div_mod (p * Z.of_nat n + 99) 100 ltac:(lia)) as Hdm.
  pose proof (Z.mod_pos_bound (p * Z.of_nat n + 99) 100 ltac:(lia)) as Hmod.
  assert (0 <= (p * Z.of_nat n + 99) / 100) by (apply Z.div_pos; nia).
  split; intros H1; [|apply Nat2Z.inj_le in H1; rewrite Z2Nat.id in H1 by done];
    [apply Nat2Z.inj_le; rewrite Z2Nat.id by done|]; lia.
Qed.

Lemma first_reaching_index (n : nat) (p : Z) (from : nat) :
  (0 < n)%nat → 0 <= p → (from ≤ reaching_index n p < n)%nat →
  first_reaching n p from = Some (reaching_index n p).
Proof.
  intros Hn Hp Hr. apply first_reaching_Some.
  split; [done|]. split.
  - by apply rank_reaches.
  - intros i' Hi'.
    destruct (Z.lt_ge_cases (rank n i') p) as [|Hge]; [done|].
    apply rank_reaches in Hge; [lia|done..].
Qed.

(** Targets far enough apart for each to take its own least index. *)
Fixpoint spaced (n : nat) (from : nat) (ps : list Z) : Prop :=
  match ps with
  | [] => True
  | p :: ps' =>
      0 <= p ∧ (from ≤ reaching_index n p < n)%nat
      ∧ spaced n (S (reaching_index n p)) ps'
  end.

Lemma assigned_from_spaced (n : nat) (ps : list Z) : ∀ from,
  (0 < n)%nat → spaced n from ps →
  assigned_from n ps from = map (λ p, Some (reaching_index n p)) ps.
Proof.
  induction ps as [|p ps IH]; intros from Hn Hs; [done|].
  destruct Hs as (Hp & Hr & Hs). simpl.
  rewrite first_reaching_index by done. f_equal. by apply IH.
Qed.

Lemma reaching_index_bounds (n : nat) (p : Z) :
  0 <= p →
  100 * Z.of_nat (reaching_index n p) <= p * Z.of_nat n + 99
  ∧ p * Z.of_nat n + 99 < 100 * Z.of_nat (reaching_index n p) + 100.
Proof.
  intros Hp. unfold reaching_index.
  pose proof (Z.div_mod (p * Z.of_nat n + 99) 100 ltac:(lia)) as Hdm.
  pose proof (Z.mod_pos_bound (p * Z.of_nat n + 99) 100 ltac:(lia)) as Hmod.
  assert (0 <= (p * Z.of_nat n + 99) / 100) by (apply Z.div_pos; nia).
  rewrite Z2Nat.id by done. lia.
Qed.

Lemma pctls_spaced (n : nat) : (100 ≤ n)%nat → spaced n 0 pctls.
Proof.
  intros Hn.
  pose proof (reaching_index_bounds n 10 ltac:(lia)).
  pose proof (reaching_index_bounds n 25 ltac:(lia)).
  pose proof (reaching_index_bounds n 50 ltac:(lia)).
  pose proof (reaching_index_bounds n 75 ltac:(lia)).
  pose proof (reaching_index_bounds n 90 ltac:(lia)).
  pose proof (reaching_index_bounds n 95 ltac:(lia)).
  pose proof (reaching_index_bounds n 99 ltac:(lia)).
  unfold pctls, spaced. repeat split; lia.
Qed.

(** With a hundred latencies or more every target takes a sample: the one
    at index [ceil(p*n/100)] of the sorted list; the percentile is
    reported when that latency is positive. *)
Theorem percentile_of_many (r : report) (j : nat) (p : Z) :
  100 <= len (lats r) → 100 * len (lats r) < 2 ^ 63 →
  pctls !! j = Some p →
  (reaching_index (length (lats r)) p < length (lats r))%nat
  ∧ printLatencies r !! percent_label p
    = match lats r !! reaching_index (length (lats r)) p with
      | Some d => if (0 <? d)%float then Some d else None
      | None => None
      end.
Proof.
  intros Hmany Hn Hp. unfold len in Hmany.
  assert (Hj : (j < length pctls)%nat) by (by eapply lookup_lt_Some).
  assert (Ha : assigned (length (lats r)) !! j
               = Some (Some (reaching_index (length (lats r)) p))).
  { unfold assigned.
    rewrite assigned_from_spaced by (lia || apply pctls_spaced; lia).
    by rewrite list_lookup_fmap, Hp. }
  destruct (assigned_from_reaches _ _ _ _ _ _ Hp Ha) as [Hi _].
  split; [done|].
  unfold printLatencies.
  rewrite (latencies_map_lookup _ j p Hp).
  rewrite (latencies_data_assigned _ j Hn Hj), Ha.
  apply lookup_lt_is_Some in Hi as [x Hx]. by rewrite Hx.
Qed.

(** Two hundred samples of 1, 2, ..., 200 seconds. *)
Definition two_hundred_samples : report :=
  mkReport 0 0 0 0 0 0 ∅ ∅
    (map (λ i, GoFloat.of_int (Z.of_nat i)) (seq 1 200)) 0.

Lemma percentile_of_many_witness :
  (100 <= len (lats two_hundred_samples)
   ∧ 100 * len (lats two_hundred_samples) < 2 ^ 63
   ∧ pctls !! 6%nat = Some 99)
  ∧ reaching_index 200 99 = 198%nat
  ∧ printLatencies two_hundred_samples !! percent_label 99 = Some 199%float.
Proof.
  assert (Hmany : 100 <= len (lats two_hundred_samples))
    by (vm_compute; discriminate).
  assert (Hn : 100 * len (lats two_hundred_samples) < 2 ^ 63)
    by (vm_compute; reflexivity).
  split; [split; [exact Hmany|split; [exact Hn|reflexivity]]|].
  split; [reflexivity|].
  destruct (percentile_of_many two_hundred_samples 6 99 Hmany Hn eq_refl)
    as [_ Hm].
  rewrite Hm. vm_compute. reflexivity.
Defined.

(** * Further properties of the run *)

(** The report of a run that drained nothing. *)
Definition empty_report : ReportResult :=
  {| summary := zeroSummary; StatusCodeDist := None; ResponseTimes := None;
     LatencyDist := None; ErrorDist := None |}.

Section RunEdges.

Variable growcap : nat → nat.

Lemma run_app b sched1 sched2 s :
  run growcap b (sched1 ++ sched2) s
  = match run growcap b sched1 s with
    | Some s' => run growcap b sched2 s'
    | None => None
    end.
Proof.
  revert s. induction sched1 as [|a sched1 IH]; intros s; simpl; [done|].
  by destruct (step growcap b a s).
Qed.

(** With [N = 0] the main goroutine goes straight through: it closes the
    job channel, passes the barrier, finds nothing to drain and returns
    the empty report.  It never reads the throttle, whatever [Qps] is, and
    never touches the template. *)
Theorem run_of_nothing (b : Boomer) (h : store) (start t1 t2 t3 t4 : Z) :
  N b = 0 →
  ∃ s', run growcap b [Main t1; Main t2; Main t3; Main t4] (init b h start)
        = Some s'
    ∧ st_main s' = MReturned empty_report
    ∧ panicked s' = false ∧ st_store s' = h
    ∧ jobsch_closed s' = true ∧ results_closed s' = true.
Proof.
  intros HN. unfold run, step, main_step, init. simpl. rewrite HN. simpl.
  eexists. split; [reflexivity|]. simpl. by repeat split.
Qed.

(** [cloneRequest] dereferences its request: with a [nil] request (or a
    pointer to nothing) and a job to enqueue, the first step of an
    unthrottled run panics, and nothing runs after that. *)
Theorem nil_request_panics (b : Boomer) (h : store) (start now : Z) :
  requests h !! Request b = None → 0 < N b → Qps b <= 0 →
  cloneRequest growcap h (Request b) (RequestBody b) = None
  ∧ ∃ s', step growcap b (Main now) (init b h start) = Some s'
      ∧ panicked s' = true ∧ jobsch s' = []
      ∧ ∀ a, step growcap b a s' = None.
Proof.
  intros Hnil HN HQ.
  assert (Hclone : cloneRequest growcap h (Request b) (RequestBody b) = None).
  { unfold cloneRequest. by rewrite Hnil. }
  split; [done|].
  unfold step, main_step, init. simpl.
  apply Z.ltb_lt in HN. rewrite HN.
  destruct (Z.ltb_spec 0 (Qps b)); [lia|].
  unfold enqueue. simpl. rewrite Hclone.
  eexists. split; [reflexivity|]. simpl. repeat split.
Qed.

(** For a rate from 1 to 1,000,000 a second the throttle ticks every
    [1,000,000 / Qps] microseconds, rounded down to a whole microsecond:
    that is at least one microsecond, and [Qps] ticks take at most one
    second, and more than one second less [Qps] microseconds. *)
Theorem throttle_interval (b : Boomer) :
  1 <= Qps b <= 1000000 →
  ∃ d, throttle b = Some d
    ∧ d = 1000 * (1000000 / Qps b)
    ∧ 1000 <= d
    ∧ d * Qps b <= 1000000000 < (d + 1000) * Qps b.
Proof.
  intros Hq. unfold throttle, time_Tick.
  destruct (Z.ltb_spec 0 (Qps b)); [|lia].
  rewrite GoIntFacts.quo_small by lia.
  rewrite Z.quot_div_nonneg by lia.
  pose proof (Z.div_mod 1000000 (Qps b) ltac:(lia)) as Hdm.
  pose proof (Z.mod_pos_bound 1000000 (Qps b) ltac:(lia)) as Hmod.
  assert (Hge : 1 <= 1000000 / Qps b).
  { apply Z.div_le_lower_bound; lia. }
  assert (Hle : 1000000 / Qps b <= 1000000).
  { apply Z.div_le_upper_bound; nia. }
  unfold Duration.Microsecond, Duration.Nanosecond.
  rewrite GoIntFacts.mul_small by lia.
  destruct (Z.leb_spec (1000000 / Qps b * (1000 * 1)) 0); [lia|].
  eexists. split; [reflexivity|]. repeat split; nia.
Qed.

End RunEdges.

Lemma run_of_nothing_witness :
  N (mkBoomer 6%nat EmptyString 0 4 0 2000000 false false false 0%nat false) = 0
  ∧ ∃ s', run id (mkBoomer 6%nat EmptyString 0 4 0 2000000 false false false 0%nat false)
            [Main 1; Main 2; Main 3; Main 4]
            (init (mkBoomer 6%nat EmptyString 0 4 0 2000000 false false false 0%nat false)
               template_store 0)
          = Some s'
      ∧ st_main s' = MReturned empty_report.
Proof.
  split; [reflexivity|].
  destruct (run_of_nothing id
              (mkBoomer 6%nat EmptyString 0 4 0 2000000 false false false 0%nat false)
              template_store 0 1 2 3 4 eq_refl) as (s' & Hrun & Hmain & _).
  exists s'. split; [exact Hrun|exact Hmain].
Defined.

Lemma nil_request_panics_witness :
  (requests template_store !! 0%nat = None
   ∧ 0 < N (mkBoomer 0%nat EmptyString 3 2 0 0 false false false 0%nat false)
   ∧ Qps (mkBoomer 0%nat EmptyString 3 2 0 0 false false false 0%nat false) <= 0)
  ∧ cloneRequest id template_store 0%nat EmptyString = None.
Proof.
  assert (Hnil : requests template_store !! 0%nat = None) by reflexivity.
  assert (HN : 0 < N (mkBoomer 0%nat EmptyString 3 2 0 0 false false false 0%nat false))
    by reflexivity.
  assert (HQ : Qps (mkBoomer 0%nat EmptyString 3 2 0 0 false false false 0%nat false) <= 0)
    by (vm_compute; discriminate).
  split; [split; [exact Hnil|split; [exact HN|exact HQ]]|].
  exact (proj1 (nil_request_panics id
                  (mkBoomer 0%nat EmptyString 3 2 0 0 false false false 0%nat false)
                  template_store 0 0 Hnil HN HQ)).
Defined.

Lemma throttle_interval_witness :
  1 <= Qps (mkBoomer 6%nat EmptyString 5 1 0 300 false false false 0%nat false)
    <= 1000000
  ∧ throttle (mkBoomer 6%nat EmptyString 5 1 0 300 false false false 0%nat false)
    = Some 3333000.
Proof.
  assert (Hq : 1 <= Qps (mkBoomer 6%nat EmptyString 5 1 0 300 false false false 0%nat false)
               <= 1000000) by (split; vm_compute; discriminate).
  split; [exact Hq|].
  destruct (throttle_interval _ Hq) as (d & Hth & Hd & _).
  rewrite Hth, Hd. reflexivity.
Defined.

(** ** Invariants of the run *)

(** The number of jobs the enqueue loop has pushed: its counter while it
    runs, [N] afterwards. *)
Definition enqueued (b : Boomer) (s : state) : Z :=
  match st_main s with
  | MEnqueue i => i
  | _ => N b
  end.

(** The number of times the ticker fires in a schedule. *)
Definition is_tick (a : action) : bool :=
  match a with
  | Tick => true
  | _ => false
  end.

Definition ticks (sched : list action) : Z :=
  len (filter (λ a, is_tick a = true) sched).

Definition in_flight (pc : worker_pc) : Z :=
  match pc with
  | WBusy _ _ | WSignal _ _ => 1
  | _ => 0
  end.

Definition sending (pc : worker_pc) : Z :=
  match pc with
  | WSend _ _ => 1
  | _ => 0
  end.

(** The workers counted with a weight. *)
Definition weigh (f : worker_pc → Z) (ws : list worker_pc) : Z := Zsum (f <$> ws).

(** The bookkeeping of a run of [N] jobs: every job pushed is waiting in
    the job channel, in flight, or signalled to the wait group; every job
    signalled but not yet in the result channel is held by a worker about
    to send it. *)
Record balanced (b : Boomer) (s : state) : Prop := {
  bal_enqueued : 0 <= enqueued b s <= N b;
  bal_jobs : enqueued b s
             = len (jobsch s) + (N b - wg s) + weigh in_flight (st_workers s);
  bal_results : len (results s) + weigh sending (st_workers s) <= N b - wg s
}.

Section RunInvariants.

Variable growcap : nat → nat.

Lemma weigh_insert f ws w pc pc' :
  ws !! w = Some pc → weigh f (<[w := pc']> ws) = weigh f ws + f pc' - f pc.
Proof.
  intros Hw. unfold weigh. rewrite list_fmap_insert.
  apply Zsum_insert. by rewrite list_lookup_fmap, Hw.
Qed.

Lemma weigh_replicate_idle f n : f WIdle = 0 → weigh f (replicate n WIdle) = 0.
Proof.
  intros Hf. unfold weigh. rewrite fmap_replicate, Hf.
  induction n as [|n IH]; simpl; [done|]. by rewrite IH.
Qed.

Lemma weigh_nonneg f ws : (∀ pc, 0 <= f pc) → 0 <= weigh f ws.
Proof.
  intros Hf. unfold weigh. induction ws as [|pc ws IH]; [done|].
  rewrite fmap_cons. change (Zsum (f pc :: (f <$> ws))) with (f pc + Zsum (f <$> ws)).
  specialize (Hf pc). lia.
Qed.

Lemma weigh_elem f ws w pc :
  (∀ pc, 0 <= f pc) → ws !! w = Some pc → f pc <= weigh f ws.
Proof.
  intros Hf Hw. unfold weigh. apply Zsum_elem_le.
  - apply Forall_fmap, Forall_forall. intros x _. apply Hf.
  - apply list_elem_of_fmap. exists pc. split; [done|].
    by eapply list_elem_of_lookup_2.
Qed.

Lemma in_flight_nonneg pc : 0 <= in_flight pc.
Proof. destruct pc; simpl; lia. Qed.

Lemma sending_nonneg pc : 0 <= sending pc.
Proof. destruct pc; simpl; lia. Qed.

Lemma len_app_one {A} (l : list A) (x : A) : len (l ++ [x]) = len l + 1.
Proof. unfold len. rewrite length_app. simpl. lia. Qed.

Lemma len_cons {A} (l : list A) (x : A) : len (x :: l) = len l + 1.
Proof. unfold len. simpl. lia. Qed.

Lemma init_balanced b h start : 0 <= N b → balanced b (init b h start).
Proof.
  intros HN. constructor; unfold enqueued; simpl.
  - lia.
  - rewrite weigh_replicate_idle by done. unfold len. simpl. lia.
  - rewrite weigh_replicate_idle by done. unfold len. simpl. lia.
Qed.

Lemma step_balanced b a s s' :
  balanced b s → step growcap b a s = Some s' → balanced b s'.
Proof.
  intros [Henq Hjobs Hres] Hstep. unfold step in Hstep.
  destruct (panicked s); [done|].
  destruct a as [|now|w now x].
  - destruct (throttle b); [|done]. injection Hstep as <-.
    by constructor.
  - unfold main_step in Hstep. unfold enqueued in *.
    destruct (st_main s) as [i| |r|rr|rr] eqn:Hmain.
    + destruct (Z.ltb_spec i (N b)) as [Hlt|Hge].
      * assert (Henqueue : ∀ s0, st_main s0 = MEnqueue i →
                  jobsch s0 = jobsch s → results s0 = results s →
                  wg s0 = wg s → st_workers s0 = st_workers s →
                  balanced b (enqueue growcap b i s0)).
        { intros s0 Hm0 Hj0 Hr0 Hw0 Hws0. unfold enqueue.
          destruct (cloneRequest growcap _ _ _) as [[r2 h']|].
          - constructor; unfold enqueued; simpl;
              rewrite ?Hj0, ?Hr0, ?Hw0, ?Hws0, ?len_app_one; lia.
          - constructor; unfold enqueued; simpl;
              rewrite ?Hm0, ?Hj0, ?Hr0, ?Hw0, ?Hws0; lia. }
        destruct (0 <? Qps b).
        -- destruct (throttle b); [|done].
           destruct (tick s); [|done]. injection Hstep as <-.
           by apply Henqueue.
        -- injection Hstep as <-. by apply Henqueue.
      * injection Hstep as <-. constructor; unfold enqueued; simpl; lia.
    + destruct (wg s =? 0); [|done]. injection Hstep as <-.
      constructor; unfold enqueued; simpl; lia.
    + destruct (results s) as [|res rest] eqn:Hrs.
      * destruct (print (settle r)); [|done]. injection Hstep as <-.
        constructor; unfold enqueued; simpl; rewrite ?Hrs; lia.
      * injection Hstep as <-. rewrite len_cons in Hres.
        constructor; unfold enqueued; simpl; lia.
    + injection Hstep as <-. constructor; unfold enqueued; simpl; lia.
    + done.
  - unfold worker_step in Hstep.
    destruct (st_workers s !! w) as [pc|] eqn:Hw; [|done].
    pose proof (weigh_insert in_flight (st_workers s) w pc) as Hfl.
    pose proof (weigh_insert sending (st_workers s) w pc) as Hsd.
    destruct pc as [|req s0|s0 o|s0 o|].
    + destruct (jobsch s) as [|req rest] eqn:Hj.
      * destruct (jobsch_closed s); [|done]. injection Hstep as <-.
        constructor; unfold enqueued in *; simpl;
          rewrite ?Hj, ?(Hfl WExit Hw), ?(Hsd WExit Hw); simpl; lia.
      * injection Hstep as <-. rewrite len_cons in Hjobs.
        constructor; unfold enqueued in *; simpl;
          rewrite ?(Hfl (WBusy req now) Hw), ?(Hsd (WBusy req now) Hw);
          simpl; lia.
    + injection Hstep as <-.
      constructor; unfold enqueued in *; simpl;
        rewrite ?(Hfl (WSignal s0 (observe b x)) Hw),
                ?(Hsd (WSignal s0 (observe b x)) Hw); simpl; lia.
    + injection Hstep as <-.
      constructor; unfold enqueued in *; simpl;
        rewrite ?(Hfl (WSend s0 o) Hw), ?(Hsd (WSend s0 o) Hw); simpl; lia.
    + destruct (results_closed s).
      * injection Hstep as <-. by constructor.
      * destruct (len (results s) <? N b); [|done]. injection Hstep as <-.
        constructor; unfold enqueued in *; simpl;
          rewrite ?len_app_one, ?(Hfl WIdle Hw), ?(Hsd WIdle Hw); simpl; lia.
    + done.
Qed.

Lemma run_balanced b sched : ∀ s s',
  balanced b s → run growcap b sched s = Some s' → balanced b s'.
Proof.
  induction sched as [|a sched IH]; intros s s' Hbal Hrun; simpl in Hrun.
  - by simplify_eq.
  - destruct (step growcap b a s) as [s1|] eqn:Hstep; [|done].
    eapply IH; [|exact Hrun]. by eapply step_balanced.
Qed.

(** In every state a run of [N >= 0] jobs can reach, under any schedule
    and any answers of the transport: the wait group's counter is between
    0 and [N] (it never goes negative), neither channel holds more than
    its capacity [N], and a worker that is about to send its record finds
    room in the result channel, so that, while the channel is open, its
    send goes through. *)
Theorem channels_never_overflow (b : Boomer) (h : store) (start : Z)
    (sched : list action) (s : state) :
  0 <= N b → run growcap b sched (init b h start) = Some s →
  0 <= wg s <= N b
  ∧ len (jobsch s) <= N b
  ∧ len (results s) <= N b
  ∧ ∀ w s0 o now x,
      st_workers s !! w = Some (WSend s0 o) →
      len (results s) < N b
      ∧ (panicked s = false → results_closed s = false →
         step growcap b (Worker w now x) s
         = Some (set_worker w WIdle
                   (set_results (results s ++ [outcome s0 now o]) false s))).
Proof.
  intros HN Hrun.
  destruct (run_balanced b sched _ _ (init_balanced b h start HN) Hrun)
    as [Henq Hjobs Hres].
  pose proof (weigh_nonneg in_flight (st_workers s) in_flight_nonneg) as Hfl.
  pose proof (weigh_nonneg sending (st_workers s) sending_nonneg) as Hsd.
  assert (Hlj : 0 <= len (jobsch s)) by (unfold len; lia).
  assert (Hlr : 0 <= len (results s)) by (unfold len; lia).
  split; [lia|]. split; [lia|]. split; [lia|].
  intros w s0 o now x Hw.
  pose proof (weigh_elem sending _ w _ sending_nonneg Hw) as Hone.
  simpl in Hone.
  assert (Hroom : len (results s) < N b) by lia.
  split; [done|].
  intros Hp Hc. unfold step, worker_step. rewrite Hp, Hw, Hc.
  apply Z.ltb_lt in Hroom. by rewrite Hroom.
Qed.

Lemma ticks_cons a sched :
  ticks (a :: sched) = (if is_tick a then 1 else 0) + ticks sched.
Proof.
  unfold ticks, len. rewrite filter_cons.
  destruct (is_tick a); simpl; lia.
Qed.

Lemma step_paced b a s s' k :
  0 < Qps b →
  (∀ i, st_main s = MEnqueue i → i + (if tick s then 1 else 0) <= k) →
  step growcap b a s = Some s' →
  ∀ i, st_main s' = MEnqueue i →
       i + (if tick s' then 1 else 0)
       <= k + (if is_tick a then 1 else 0).
Proof.
  intros HQ Hinv Hstep i Hmain'. unfold step in Hstep.
  destruct (panicked s); [done|].
  destruct a as [|now|w now x].
  - destruct (throttle b); [|done]. injection Hstep as <-. simpl in *.
    specialize (Hinv i Hmain'). destruct (tick s); lia.
  - simpl is_tick. unfold main_step in Hstep.
    destruct (st_main s) as [i0| |r|rr|rr] eqn:Hmain.
    + specialize (Hinv i0 eq_refl).
      destruct (i0 <? N b).
      * apply Z.ltb_lt in HQ. rewrite HQ in Hstep.
        destruct (throttle b); [|done].
        destruct (tick s) eqn:Htick; [|done]. injection Hstep as <-.
        unfold enqueue in Hmain' |- *. simpl in *.
        destruct (cloneRequest growcap _ _ _) as [[r2 h']|]; simpl in *.
        -- simplify_eq. lia.
        -- rewrite Hmain in Hmain'. simplify_eq. lia.
      * injection Hstep as <-. simpl in Hmain'. done.
    + destruct (wg s =? 0); [|done]. injection Hstep as <-. done.
    + destruct (results s).
      * destruct (print (settle r)); [|done]. injection Hstep as <-. done.
      * injection Hstep as <-. done.
    + injection Hstep as <-. done.
    + done.
  - simpl is_tick.
    assert (Hsame : st_main s' = st_main s ∧ tick s' = tick s).
    { unfold worker_step in Hstep.
      destruct (st_workers s !! w) as [[|req s0|s0 o|s0 o|]|]; try done.
      - destruct (jobsch s).
        + destruct (jobsch_closed s); [|done]. by injection Hstep as <-.
        + by injection Hstep as <-.
      - by injection Hstep as <-.
      - by injection Hstep as <-.
      - destruct (results_closed s).
        + by injection Hstep as <-.
        + destruct (len (results s) <? N b); [|done]. by injection Hstep as <-. }
    destruct Hsame as [Hm Ht]. rewrite Hm in Hmain'. rewrite Ht.
    specialize (Hinv i Hmain'). lia.
Qed.

(** With a rate limit, the enqueue loop has pushed at most as many jobs
    as the ticker has fired: each job waits for a tick of its own, the
    first one included. *)
Theorem one_job_per_tick (b : Boomer) (h : store) (start : Z)
    (sched : list action) (s : state) (i : Z) :
  0 < Qps b → run growcap b sched (init b h start) = Some s →
  st_main s = MEnqueue i →
  i + (if tick s then 1 else 0) <= ticks sched.
Proof.
  intros HQ.
  assert (Hgen : ∀ sched s0 s1 k,
    (∀ i, st_main s0 = MEnqueue i → i + (if tick s0 then 1 else 0) <= k) →
    run growcap b sched s0 = Some s1 →
    ∀ i, st_main s1 = MEnqueue i →
         i + (if tick s1 then 1 else 0) <= k + ticks sched).
  { clear sched s i. induction sched as [|a sched IH]; intros s0 s1 k Hinv Hrun.
    - simpl in Hrun. simplify_eq. intros i Hi. specialize (Hinv i Hi).
      unfold ticks, len. simpl. lia.
    - simpl in Hrun.
      destruct (step growcap b a s0) as [s2|] eqn:Hstep; [|done].
      intros i Hi. rewrite ticks_cons.
      pose proof (IH s2 s1 _ (step_paced b a s0 s2 k HQ Hinv Hstep) Hrun i Hi).
      lia. }
  intros Hrun Hmain.
  pose proof (Hgen sched (init b h start) s 0) as Hfin.
  rewrite Z.add_0_l in Hfin. apply Hfin; [|done..].
  intros i0. simpl. intros [= <-]. lia.
Qed.

End RunInvariants.

(** The schedule up to the worker's [wg.Done()]. *)
Definition schedule_to_send : list action :=
  [Main 0; Main 1; Worker 0 2 ok_200; Worker 0 3 ok_200; Worker 0 4 ok_200].

Lemma channels_never_overflow_witness :
  0 <= N one_job
  ∧ ∃ s, run id one_job schedule_to_send (init one_job template_store 0) = Some s
      ∧ 0 <= wg s <= N one_job ∧ len (results s) <= N one_job.
Proof.
  assert (HN : 0 <= N one_job) by (vm_compute; discriminate).
  split; [exact HN|].
  destruct (run id one_job schedule_to_send (init one_job template_store 0))
    as [s|] eqn:Hrun.
  - exists s. split; [reflexivity|].
    destruct (channels_never_overflow id one_job template_store 0
                schedule_to_send s HN Hrun) as (Hwg & _ & Hres & _).
    split; [exact Hwg|exact Hres].
  - exfalso. vm_compute in Hrun. discriminate Hrun.
Defined.

(** Two jobs at a thousand a second. *)
Definition paced_boomer : Boomer :=
  mkBoomer 6%nat EmptyString 2 1 0 1000 false false false 0%nat false.

Lemma one_job_per_tick_witness :
  0 < Qps paced_boomer
  ∧ ∃ s, run id paced_boomer [Tick; Main 0; Tick] (init paced_boomer template_store 0)
         = Some s
      ∧ st_main s = MEnqueue 1
      ∧ 1 + (if tick s then 1 else 0) <= ticks [Tick; Main 0; Tick].
Proof.
  assert (HQ : 0 < Qps paced_boomer) by reflexivity.
  split; [exact HQ|].
  destruct (run id paced_boomer [Tick; Main 0; Tick]
              (init paced_boomer template_store 0)) as [s|] eqn:Hrun.
  - assert (Hmain : st_main s = MEnqueue 1).
    { vm_compute in Hrun. injection Hrun as <-. reflexivity. }
    exists s. split; [reflexivity|]. split; [exact Hmain|].
    exact (one_job_per_tick id paced_boomer template_store 0 _ s 1 HQ Hrun Hmain).
  - exfalso. vm_compute in Hrun. discriminate Hrun.
Defined.

(** ** The enqueue loop *)

(** A job of the queue that is a clone of [tmpl] with body [body]: a
    request of its own that has the template's fields apart from [Header]
    and [Body], a header map that reads as the template's did in [h0], and
    an unread body reader over [body]. *)
Definition clone_of (h0 : store) (tmpl : http_Request) (body : string)
    (h : store) (l : loc) : Prop :=
  ∃ q, requests h !! l = Some q
    ∧ set_Body (Body tmpl) (set_Header (Header tmpl) q) = tmpl
    ∧ header_view h (Header q) = header_view h0 (Header tmpl)
    ∧ readers h !! Body q = Some (mkReader body).

Section EnqueueLoop.

Variable growcap : nat → nat.

Lemma extends_refl h : extends h h.
Proof. by constructor. Qed.

Lemma extends_trans h1 h2 h3 : extends h1 h2 → extends h2 h3 → extends h1 h3.
Proof.
  intros [Hn1 Hq1 Hh1 Ha1 Hr1] [Hn2 Hq2 Hh2 Ha2 Hr2].
  constructor; [lia|..]; intros l Hl.
  - rewrite Hq2 by lia. by apply Hq1.
  - rewrite Hh2 by lia. by apply Hh1.
  - rewrite Ha2 by lia. by apply Ha1.
  - rewrite Hr2 by lia. by apply Hr1.
Qed.

(** A clone stays a clone when the store grows. *)
Lemma clone_of_extends h0 tmpl body h h' l :
  wf h → extends h h' → (l < next h)%nat →
  clone_of h0 tmpl body h l → clone_of h0 tmpl body h' l.
Proof.
  intros Hwf Hext Hl (q & Hq & Hfields & Hview & Hbody).
  exists q. split; [by rewrite (ext_requests _ _ Hext)|].
  split; [done|]. split.
  - rewrite <- Hview. apply header_view_extends; [done..|].
    apply (wf_Header _ Hwf _ _ Hq).
  - rewrite (ext_readers _ _ Hext); [done|]. apply (wf_Body _ Hwf _ _ Hq).
Qed.

(** The state of the enqueue loop after [k] iterations. *)
Record enqueue_state (b : Boomer) (h : store) (tmpl : http_Request)
    (k : nat) (s : state) : Prop := {
  enq_main : st_main s = MEnqueue (Z.of_nat k);
  enq_alive : panicked s = false;
  enq_open : jobsch_closed s = false;
  enq_wf : wf (st_store s);
  enq_extends : extends h (st_store s);
  enq_length : length (jobsch s) = k;
  enq_distinct : NoDup (jobsch s);
  enq_range : Forall (λ l, (next h ≤ l < next (st_store s))%nat) (jobsch s);
  enq_clones : Forall (clone_of h tmpl (RequestBody b) (st_store s)) (jobsch s);
  enq_idle : results s = [] ∧ wg s = N b
}.

Lemma enqueue_loop (b : Boomer) (h : store) (start : Z) (tmpl : http_Request)
    (ts : list Z) :
  wf h → requests h !! Request b = Some tmpl → Qps b <= 0 →
  len ts <= N b →
  ∃ s, run growcap b (Main <$> ts) (init b h start) = Some s
    ∧ enqueue_state b h tmpl (length ts) s.
Proof.
  intros Hwf Htmpl HQ.
  assert (Hr : (Request b < next h)%nat) by apply (wf_requests _ Hwf _ _ Htmpl).
  induction ts as [|t ts IH] using rev_ind; intros Hlen.
  - exists (init b h start). split; [done|].
    constructor; simpl; try done; try apply extends_refl; constructor.
  - unfold len in *. rewrite length_app in *. simpl in *.
    destruct IH as (s & Hrun & Hs); [lia|].
    destruct Hs as [Hmain Halive Hopen Hwfs Hext Hl Hnd Hrange Hclones [Hres Hwg]].
    rewrite fmap_app, run_app, Hrun. simpl.
    assert (Htmpl' : requests (st_store s) !! Request b = Some tmpl).
    { by rewrite (ext_requests _ _ Hext). }
    destruct (cloneRequest_frame growcap (st_store s) (Request b) (RequestBody b)
                tmpl Hwfs Htmpl')
      as (h' & req2 & Hclone & Hreq2 & Heq & Hbody & Hrd & Hext' & Hwf' & Hview & _).
    unfold step. rewrite Halive. unfold main_step. rewrite Hmain.
    destruct (Z.ltb_spec (Z.of_nat (length ts)) (N b)); [|lia].
    destruct (Z.ltb_spec 0 (Qps b)); [lia|].
    unfold enqueue. rewrite Hclone.
    eexists. split; [reflexivity|].
    pose proof (ext_next _ _ Hext') as Hnext'.
    pose proof (ext_next _ _ Hext) as Hnext.
    assert (Hlt : (next (st_store s) < next h')%nat).
    { apply (wf_requests _ Hwf' _ _ Hreq2). }
    constructor; simpl; try done.
    + f_equal. lia.
    + by eapply extends_trans.
    + rewrite length_app. simpl. lia.
    + apply NoDup_app. split; [done|]. split; [|apply NoDup_singleton].
      intros l Hin Hin'. apply list_elem_of_singleton in Hin' as ->.
      rewrite Forall_forall in Hrange. specialize (Hrange _ Hin). lia.
    + apply Forall_app. split.
      * eapply Forall_impl; [exact Hrange|]. simpl. intros l Hlr. lia.
      * apply Forall_singleton. lia.
    + apply Forall_app. split.
      * rewrite Forall_forall in Hrange, Hclones. apply Forall_forall.
        intros l Hin. eapply clone_of_extends; [exact Hwfs|exact Hext'| |].
        -- specialize (Hrange _ Hin). lia.
        -- by apply Hclones.
      * apply Forall_singleton. exists req2. split; [done|].
        split.
        { rewrite Heq. by destruct tmpl. }
        split; [|done].
        rewrite Hview. apply header_view_extends; [done..|].
        apply (wf_Header _ Hwf _ _ Htmpl).
Qed.

(** Without a rate limit the main goroutine, left to run, pushes exactly
    [N] jobs and closes the job channel.  The jobs are [N] different
    requests, each a clone of the template as it was when the run began,
    with a body of its own over [RequestBody]; the template and the rest
    of the store are as they were. *)
Theorem enqueue_loop_pushes_clones (b : Boomer) (h : store) (start : Z)
    (tmpl : http_Request) (ts : list Z) (t : Z) :
  wf h → requests h !! Request b = Some tmpl → Qps b <= 0 →
  len ts = N b →
  ∃ s, run growcap b ((Main <$> ts) ++ [Main t]) (init b h start) = Some s
    ∧ st_main s = MWait ∧ panicked s = false ∧ jobsch_closed s = true
    ∧ len (jobsch s) = N b ∧ NoDup (jobsch s)
    ∧ Forall (clone_of h tmpl (RequestBody b) (st_store s)) (jobsch s)
    ∧ extends h (st_store s)
    ∧ header_view (st_store s) (Header tmpl) = header_view h (Header tmpl).
Proof.
  intros Hwf Htmpl HQ Hlen.
  destruct (enqueue_loop b h start tmpl ts Hwf Htmpl HQ ltac:(lia))
    as (s & Hrun & Hs).
  destruct Hs as [Hmain Halive Hopen Hwfs Hext Hl Hnd Hrange Hclones [Hres Hwg]].
  rewrite run_app, Hrun. simpl.
  unfold step. rewrite Halive. unfold main_step. rewrite Hmain.
  destruct (Z.ltb_spec (Z.of_nat (length ts)) (N b));
    [unfold len in Hlen; lia|].
  eexists. split; [reflexivity|]. simpl.
  split; [done|]. split; [done|]. split; [done|].
  split; [unfold len in *; lia|]. split; [done|]. split; [done|].
  split; [done|].
  apply header_view_extends; [done..|]. apply (wf_Header _ Hwf _ _ Htmpl).
Qed.

End EnqueueLoop.

(** Three jobs, two workers, no rate limit, a body of its own. *)
Definition three_jobs : Boomer :=
  mkBoomer 6%nat "Body" 3 2 0 0 false false false 0%nat false.

Lemma enqueue_loop_pushes_clones_witness :
  (wf template_store ∧ requests template_store !! Request three_jobs = Some template
   ∧ Qps three_jobs <= 0 ∧ len [1; 2; 3] = N three_jobs)
  ∧ ∃ s, run id three_jobs ((Main <$> [1; 2; 3]) ++ [Main 4])
           (init three_jobs template_store 0) = Some s
      ∧ st_main s = MWait ∧ len (jobsch s) = 3 ∧ NoDup (jobsch s).
Proof.
  assert (HQ : Qps three_jobs <= 0) by (vm_compute; discriminate).
  assert (Hlen : len [1; 2; 3] = N three_jobs) by reflexivity.
  split.
  - split; [exact template_store_wf|]. split; [reflexivity|].
    split; [exact HQ|exact Hlen].
  - destruct (enqueue_loop_pushes_clones id three_jobs template_store 0 template
                [1; 2; 3] 4 template_store_wf eq_refl HQ Hlen)
      as (s & Hrun & Hmain & _ & _ & Hn & Hnd & _).
    exists s. split; [exact Hrun|]. split; [exact Hmain|].
    split; [exact Hn|exact Hnd].
Defined.

(** ** The barrier, when it holds *)

(** The main goroutine has not begun to drain. *)
Definition before_drain (pc : main_pc) : Prop :=
  match pc with
  | MEnqueue _ | MWait => True
  | _ => False
  end.

(** Until the drain begins every job signalled to the wait group is in the
    result channel or held by a worker about to send it. *)
Definition signalled_are_held (b : Boomer) (s : state) : Prop :=
  before_drain (st_main s) →
  len (results s) + weigh sending (st_workers s) = N b - wg s.

Section Barrier.

Variable growcap : nat → nat.

Lemma step_signalled_are_held b a s s' :
  signalled_are_held b s → step growcap b a s = Some s' →
  signalled_are_held b s'.
Proof.
  unfold signalled_are_held. intros Hinv Hstep. unfold step in Hstep.
  destruct (panicked s); [done|].
  destruct a as [|now|w now x].
  - destruct (throttle b); [|done]. by injection Hstep as <-.
  - unfold main_step in Hstep.
    destruct (st_main s) as [i| |r|rr|rr] eqn:Hmain; simpl in Hinv.
    + specialize (Hinv I). destruct (i <? N b).
      * assert (Henqueue : ∀ s0, results s0 = results s → wg s0 = wg s →
                  st_workers s0 = st_workers s →
                  len (results (enqueue growcap b i s0))
                  + weigh sending (st_workers (enqueue growcap b i s0))
                  = N b - wg (enqueue growcap b i s0)).
        { intros s0 Hr0 Hw0 Hws0. unfold enqueue.
          destruct (cloneRequest growcap _ _ _) as [[r2 h']|]; simpl;
            by rewrite Hr0, Hw0, Hws0. }
        destruct (0 <? Qps b).
        -- destruct (throttle b); [|done]. destruct (tick s); [|done].
           injection Hstep as <-. intros _. by apply Henqueue.
        -- injection Hstep as <-. intros _. by apply Henqueue.
      * by injection Hstep as <-.
    + destruct (wg s =? 0); [|done]. by injection Hstep as <-.
    + destruct (results s).
      * destruct (print (settle r)); [|done]. by injection Hstep as <-.
      * by injection Hstep as <-.
    + by injection Hstep as <-.
    + done.
  - unfold worker_step in Hstep.
    destruct (st_workers s !! w) as [pc|] eqn:Hw; [|done].
    pose proof (weigh_insert sending (st_workers s) w pc) as Hsd.
    destruct pc as [|req s0|s0 o|s0 o|].
    + destruct (jobsch s) as [|req rest].
      * destruct (jobsch_closed s); [|done]. injection Hstep as <-. simpl.
        intros Hb. rewrite (Hsd WExit Hw). simpl. specialize (Hinv Hb). lia.
      * injection Hstep as <-. simpl.
        intros Hb. rewrite (Hsd (WBusy req now) Hw). simpl.
        specialize (Hinv Hb). lia.
    + injection Hstep as <-. simpl. intros Hb.
      rewrite (Hsd (WSignal s0 (observe b x)) Hw). simpl.
      specialize (Hinv Hb). lia.
    + injection Hstep as <-. simpl. intros Hb.
      rewrite (Hsd (WSend s0 o) Hw). simpl. specialize (Hinv Hb). lia.
    + destruct (results_closed s).
      * by injection Hstep as <-.
      * destruct (len (results s) <? N b); [|done]. injection Hstep as <-.
        simpl. intros Hb. rewrite (Hsd WIdle Hw), len_app_one. simpl.
        specialize (Hinv Hb). lia.
    + done.
Qed.

Lemma run_signalled_are_held b sched : ∀ s s',
  signalled_are_held b s → run growcap b sched s = Some s' →
  signalled_are_held b s'.
Proof.
  induction sched as [|a sched IH]; intros s s' Hinv Hrun; simpl in Hrun.
  - by simplify_eq.
  - destruct (step growcap b a s) as [s1|] eqn:Hstep; [|done].
    eapply IH; [|exact Hrun]. by eapply step_signalled_are_held.
Qed.

(** The main goroutine, alone, empties the result channel: one step of
    the drain for each record. *)
Lemma main_drains b (rs : list result) : ∀ (ts : list Z) (s : state) (r : report),
  length ts = length rs → panicked s = false →
  st_main s = MDrain r → results s = rs →
  ∃ s', run growcap b (Main <$> ts) s = Some s'
    ∧ st_main s' = MDrain (drain r rs) ∧ results s' = []
    ∧ panicked s' = false.
Proof.
  induction rs as [|res rs IH]; intros ts s r Hlen Hp Hmain Hrs.
  - destruct ts; [|done]. exists s. by simpl.
  - destruct ts as [|t ts]; [done|]. simpl in Hlen. simpl.
    unfold step. rewrite Hp. unfold main_step. rewrite Hmain, Hrs.
    apply (IH ts); simpl; try done. lia.
Qed.

(** When the barrier releases with every record sent (the counter is 0
    and no worker is still about to send), the result channel holds [N]
    records, and the main goroutine, left to run, drains them all and
    returns the report [finalize] makes of them, which accounts for
    exactly [N] outcomes. *)
Theorem run_accounts_when_all_sent (b : Boomer) (h : store) (start : Z)
    (sched : list action) (s : state) (t t' t'' : Z) (ts : list Z) :
  0 <= N b < GoInt.max_int →
  run growcap b sched (init b h start) = Some s →
  st_main s = MWait → wg s = 0 → panicked s = false →
  (∀ w pc, st_workers s !! w = Some pc → sending pc = 0) →
  all_ordinary (success_latencies (results s)) →
  len ts = N b →
  len (results s) = N b
  ∧ ∃ s' rr,
      run growcap b (Main t :: (Main <$> ts) ++ [Main t'; Main t'']) s = Some s'
      ∧ st_main s' = MReturned rr
      ∧ finalize (newReport (time_Sub t start)) (results s) = Some rr
      ∧ accounted rr = N b
      ∧ results s' = [] ∧ panicked s' = false.
Proof.
  intros HN Hrun Hmain Hwg Hp Hsent Hord Hts.
  assert (Hheld : signalled_are_held b s).
  { eapply run_signalled_are_held; [|exact Hrun].
    intros _. simpl. rewrite weigh_replicate_idle by done.
    unfold len. simpl. lia. }
  assert (Hnone : weigh sending (st_workers s) = 0).
  { unfold weigh. clear -Hsent.
    induction (st_workers s) as [|pc ws IH]; [done|].
    rewrite fmap_cons.
    change (Zsum (sending pc :: (sending <$> ws)))
      with (sending pc + Zsum (sending <$> ws)).
    rewrite (Hsent 0%nat pc eq_refl), IH; [done|].
    intros w pc' Hw. by apply (Hsent (S w)). }
  assert (Hfull : len (results s) = N b).
  { unfold signalled_are_held in Hheld. rewrite Hmain in Hheld.
    specialize (Hheld I). lia. }
  split; [done|].
  assert (Hstart : st_start s = start).
  { clear -Hrun. 
    assert (Hgen : ∀ sched s0 s1, run growcap b sched s0 = Some s1 →
                                  st_start s1 = st_start s0).
    { clear. induction sched as [|a sched IH]; intros s0 s1 Hrun; simpl in Hrun.
      - by simplify_eq.
      - destruct (step growcap b a s0) as [s2|] eqn:Hstep; [|done].
        rewrite (IH _ _ Hrun). clear -Hstep. unfold step in Hstep.
        destruct (panicked s0); [done|].
        destruct a as [|now|w now x].
        + destruct (throttle b); [|done]. by injection Hstep as <-.
        + unfold main_step in Hstep. destruct (st_main s0).
          * destruct (_ <? _).
            -- assert (He : ∀ s3 k, st_start (enqueue growcap b k s3) = st_start s3).
               { intros s3 k. unfold enqueue.
                 by destruct (cloneRequest growcap _ _ _) as [[? ?]|]. }
               destruct (0 <? Qps b).
               ++ destruct (throttle b); [|done]. destruct (tick s0); [|done].
                  injection Hstep as <-. by rewrite He.
               ++ injection Hstep as <-. by rewrite He.
            -- by injection Hstep as <-.
          * destruct (_ =? _); [|done]. by injection Hstep as <-.
          * destruct (results s0).
            -- destruct (print _); [|done]. by injection Hstep as <-.
            -- by injection Hstep as <-.
          * by injection Hstep as <-.
          * done.
        + unfold worker_step in Hstep.
          destruct (st_workers s0 !! w) as [[|req s3|s3 o|s3 o|]|]; try done.
          * destruct (jobsch s0).
            -- destruct (jobsch_closed s0); [|done]. by injection Hstep as <-.
            -- by injection Hstep as <-.
          * by injection Hstep as <-.
          * by injection Hstep as <-.
          * destruct (results_closed s0).
            -- by injection Hstep as <-.
            -- destruct (_ <? _); [|done]. by injection Hstep as <-. }
    by rewrite (Hgen _ _ _ Hrun). }
  assert (Hbound : len (results s) < GoInt.max_int) by lia.
  destruct (finalize_returns (time_Sub t start) (results s) Hord Hbound)
    as [rr Hfin].
  change (Main t :: (Main <$> ts) ++ [Main t'; Main t''])
    with ([Main t] ++ ((Main <$> ts) ++ [Main t'; Main t''])).
  rewrite run_app. simpl.
  unfold step at 1. rewrite Hp. unfold main_step at 1. rewrite Hmain, Hwg. simpl.
  rewrite Hstart.
  set (s1 := set_main _ s).
  destruct (main_drains b (results s) ts s1 (newReport (time_Sub t start)))
    as (s2 & Hrun2 & Hmain2 & Hres2 & Hp2); try done.
  { unfold len in *. lia. }
  rewrite run_app, Hrun2. simpl.
  unfold step at 1. rewrite Hp2. unfold main_step at 1. rewrite Hmain2, Hres2.
  unfold finalize in Hfin. rewrite Hfin.
  unfold step. simpl. rewrite Hp2. unfold main_step. simpl.
  eexists _, rr. split; [reflexivity|]. simpl.
  split; [done|]. split; [done|].
  split; [|by rewrite Hres2].
  rewrite <- Hfull. apply (finalize_accounts_for_drained (time_Sub t start));
    [lia|done].
Qed.

End Barrier.

(** The worker sends its record before the main goroutine is scheduled
    again. *)
Definition fair_schedule : list action :=
  [Main 0; Main 1;
   Worker 0 2 ok_200; Worker 0 3 ok_200; Worker 0 4 ok_200; Worker 0 5 ok_200].

Lemma run_accounts_when_all_sent_witness :
  0 <= N one_job < GoInt.max_int
  ∧ ∃ s, run id one_job fair_schedule (init one_job template_store 0) = Some s
      ∧ st_main s = MWait ∧ wg s = 0 ∧ panicked s = false
      ∧ all_ordinary (success_latencies (results s))
      ∧ len (results s) = N one_job
      ∧ ∃ s' rr,
          run id one_job (Main 6 :: (Main <$> [7]) ++ [Main 8; Main 9]) s = Some s'
          ∧ st_main s' = MReturned rr ∧ accounted rr = N one_job.
Proof.
  assert (HN : 0 <= N one_job < GoInt.max_int)
    by (split; vm_compute; [discriminate|reflexivity]).
  split; [exact HN|].
  destruct (run id one_job fair_schedule (init one_job template_store 0))
    as [s|] eqn:Hrun.
  2:{ exfalso. vm_compute in Hrun. discriminate Hrun. }
  pose proof Hrun as Hc. vm_compute in Hc. injection Hc as Hs.
  assert (Hmain : st_main s = MWait) by (rewrite <- Hs; reflexivity).
  assert (Hwg : wg s = 0) by (rewrite <- Hs; reflexivity).
  assert (Hp : panicked s = false) by (rewrite <- Hs; reflexivity).
  assert (Hsent : ∀ w pc, st_workers s !! w = Some pc → sending pc = 0).
  { rewrite <- Hs. intros [|[|w]] pc Hw; simpl in Hw; try discriminate Hw.
    injection Hw as <-. reflexivity. }
  assert (Hord : all_ordinary (success_latencies (results s))).
  { assert (Hsl : success_latencies (results s) = [Duration.Seconds 3])
      by (rewrite <- Hs; reflexivity).
    rewrite Hsl. constructor; [vm_compute; reflexivity|constructor]. }
  assert (Hts : len [7] = N one_job) by reflexivity.
  destruct (run_accounts_when_all_sent id one_job template_store 0 fair_schedule
              s 6 8 9 [7] HN Hrun Hmain Hwg Hp Hsent Hord Hts)
    as (Hfull & s' & rr & Hrun' & Hmain' & _ & Hacc & _).
  exists s. split; [reflexivity|]. split; [exact Hmain|]. split; [exact Hwg|].
  split; [exact Hp|]. split; [exact Hord|]. split; [exact Hfull|].
  exists s', rr. split; [exact Hrun'|]. split; [exact Hmain'|exact Hacc].
Defined.

(** ** What the histogram counts *)

(** The bucket of a latency: the first boundary it does not exceed. *)
Definition bucket_of (buckets : list float) (x : float) : option nat :=
  fst <$> list_find (λ b, (x <=? b)%float = true) buckets.

(** The number of latencies of [ls] whose bucket is [k]. *)
Definition bucket_count (buckets ls : list float) (k : nat) : Z :=
  len (filter (λ x, bucket_of buckets x = Some k) ls).

Lemma bucket_of_Some buckets x k b :
  buckets !! k = Some b → (x <=? b)%float = true →
  (∀ j c, (j < k)%nat → buckets !! j = Some c → (x <=? c)%float = false) →
  bucket_of buckets x = Some k.
Proof.
  intros Hk Hle Hmin. unfold bucket_of.
  assert (Hfind : list_find (λ b, (x <=? b)%float = true) buckets = Some (k, b)).
  { apply list_find_Some. split; [done|]. split; [done|].
    intros j c Hj Hlt. rewrite (Hmin j c Hlt Hj). done. }
  by rewrite Hfind.
Qed.

Lemma bucket_count_snoc buckets ls x k :
  bucket_count buckets (ls ++ [x]) k
  = bucket_count buckets ls k
    + (if decide (bucket_of buckets x = Some k) then 1 else 0).
Proof.
  unfold bucket_count, len. rewrite filter_app, length_app.
  rewrite filter_cons, filter_nil.
  destruct (decide (bucket_of buckets x = Some k)); simpl; lia.
Qed.

Lemma bucket_count_range buckets ls k :
  0 <= bucket_count buckets ls k <= len ls.
Proof.
  unfold bucket_count, len.
  pose proof (length_filter (λ x, bucket_of buckets x = Some k) ls). lia.
Qed.

Lemma drop_members_later (ls : list float) (i : nat) (x y : float) :
  ascending ls = true → ls !! i = Some x → y ∈ drop i ls →
  (x <=? y)%float = true.
Proof.
  intros Hasc Hx Hy. apply list_elem_of_lookup in Hy as [j Hj].
  rewrite lookup_drop in Hj.
  eapply (ascending_lookup ls i (i + j)); eauto. lia.
Qed.

(** The counting loop, from any point on, ends with the count of each
    bucket. *)
Lemma histogram_loop_counts ls buckets fuel : ∀ i bi counts max,
  all_ordinary ls → all_ordinary buckets → ascending ls = true →
  (∀ x, x ∈ ls → (x <=? default 0%float (last buckets))%float = true) →
  len ls < GoInt.max_int →
  (bi < length buckets)%nat → length counts = length buckets →
  (i ≤ length ls)%nat →
  (∀ k, (k < length buckets)%nat →
        counts !! k = Some (bucket_count buckets (take i ls) k)) →
  (∀ x k b, x ∈ drop i ls → (k < bi)%nat → buckets !! k = Some b →
            (x <=? b)%float = false) →
  (length ls - i + (length buckets - 1 - bi) < fuel)%nat →
  ∃ counts' max',
    histogram_loop fuel ls buckets i bi counts max = Some (counts', max')
    ∧ length counts' = length buckets
    ∧ ∀ k, (k < length buckets)%nat →
           counts' !! k = Some (bucket_count buckets ls k).
Proof.
  induction fuel as [|fuel IH];
    intros i bi counts max Hol Hob Hasc Hlast Hbound Hbi Hlen Hi Hcounts Hpast Hfuel;
    [lia|].
  simpl. destruct (ls !! i) as [x|] eqn:Hx.
  - assert (Hilt : (i < length ls)%nat) by (by eapply lookup_lt_Some).
    assert (Hb : is_Some (buckets !! bi)) by (by apply lookup_lt_is_Some).
    destruct Hb as [b Hb]. rewrite Hb. simpl.
    assert (Hxin : x ∈ drop i ls).
    { apply list_elem_of_lookup. exists 0%nat.
      by rewrite lookup_drop, Nat.add_0_r. }
    destruct (x <=? b)%float eqn:Hle.
    + rewrite (Hcounts bi Hbi). simpl.
      pose proof (bucket_count_range buckets (take i ls) bi) as Hrange.
      assert (Htake : len (take i ls) <= len ls).
      { unfold len. rewrite length_take. lia. }
      rewrite GoIntFacts.incr_small by lia.
      assert (Hbucket : bucket_of buckets x = Some bi).
      { apply (bucket_of_Some _ _ _ b); [done..|].
        intros j c Hj Hc. by eapply Hpast. }
      apply IH; try done.
      * by rewrite length_insert.
      * intros k Hk. rewrite (take_S_r _ _ _ Hx), bucket_count_snoc, Hbucket.
        destruct (decide (k = bi)) as [->|Hne].
        -- rewrite list_lookup_insert_eq by lia.
           by rewrite decide_True.
        -- rewrite list_lookup_insert_ne by done.
           rewrite decide_False by congruence.
           rewrite Hcounts by done. f_equal. lia.
      * intros y k c Hy. apply Hpast.
        apply list_elem_of_lookup in Hy as [j Hj].
        rewrite lookup_drop in Hj.
        apply list_elem_of_lookup. exists (S j).
        rewrite lookup_drop. rewrite <- Hj. f_equal. lia.
      * lia.
    + destruct (bi <? length buckets - 1)%nat eqn:Hroom.
      * apply Nat.ltb_lt in Hroom. apply IH; try done; [lia| |lia].
        intros y k c Hy Hk Hc.
        destruct (decide (k = bi)) as [->|Hne]; [|apply Hpast with k; [done|lia|done]].
        rewrite Hb in Hc. injection Hc as <-.
        destruct (y <=? b)%float eqn:Hyb; [|done].
        pose proof (drop_members_later ls i x y Hasc Hx Hy) as Hxy.
        unfold all_ordinary in Hol, Hob. rewrite Forall_forall in Hol, Hob.
        assert (Hox : GoFloat.ordinary x = true)
          by (apply Hol; by eapply list_elem_of_lookup_2).
        assert (Hoy : GoFloat.ordinary y = true).
        { apply Hol. apply list_elem_of_lookup in Hy as [j Hj].
          rewrite lookup_drop in Hj. by eapply list_elem_of_lookup_2. }
        assert (Hobk : GoFloat.ordinary b = true)
          by (apply Hob; by eapply list_elem_of_lookup_2).
        rewrite (FloatOrder.leb_trans x y b) in Hle; done.
      * apply Nat.ltb_ge in Hroom.
        assert (Hlk : buckets !! bi = last buckets).
        { rewrite last_lookup. f_equal. lia. }
        rewrite Hlk in Hb.
        specialize (Hlast x ltac:(by eapply list_elem_of_lookup_2)).
        rewrite Hb in Hlast. simpl in Hlast. congruence.
  - apply lookup_ge_None in Hx.
    exists counts, max. split; [done|]. split; [done|].
    intros k Hk. rewrite Hcounts by done. by rewrite take_ge by lia.
Qed.

(** The count of each bar of the histogram is the number of latencies of
    the run whose first boundary not exceeded is the bar's, and the bar's
    [Second] is that boundary.  (The boundaries come out of float64
    arithmetic; they are assumed to be ordinary floats, as the latencies
    are.) *)
Theorem histogram_counts_buckets (r : report) :
  lats r ≠ [] → all_ordinary (lats r) → ascending (lats r) = true →
  all_ordinary (make_buckets (with_extremes r)) →
  len (lats r) < GoInt.max_int →
  ∃ bars, printHistogram (with_extremes r) = Some bars
    ∧ length bars = 11%nat
    ∧ ∀ k, (k < 11)%nat →
        Count <$> bars !! k
        = Some (bucket_count (make_buckets (with_extremes r)) (lats r) k)
        ∧ Second <$> bars !! k = make_buckets (with_extremes r) !! k.
Proof.
  intros Hne Hol Hasc Hob Hbound.
  unfold printHistogram.
  set (r' := with_extremes r) in *.
  set (buckets := make_buckets r') in *.
  change (lats r') with (lats r).
  assert (Hnb : length buckets = 11%nat) by done.
  destruct (histogram_loop_counts (lats r) buckets
              (histogram_fuel (lats r) buckets) 0 0 (replicate (S bc) 0) 0)
    as (counts & max & Hloop & Hlen & Hcounts); try done.
  - intros x Hx. subst buckets. rewrite make_buckets_last. simpl.
    by apply ascending_le_last.
  - rewrite Hnb. lia.
  - lia.
  - intros k Hk. rewrite take_0. rewrite Hnb in Hk.
    do 11 (destruct k as [|k]; [reflexivity|]). lia.
  - intros x k b _ Hk. lia.
  - unfold histogram_fuel. lia.
  - rewrite Hloop. eexists. split; [reflexivity|].
    split; [by rewrite histogram_bars_length|].
    intros k Hk. rewrite <- Hnb in Hk.
    rewrite histogram_bars_lookup by done. simpl.
    rewrite (Hcounts k Hk). simpl. split; [done|].
    apply lookup_lt_is_Some in Hk as [b Hb]. by rewrite Hb.
Qed.

Lemma histogram_counts_buckets_witness :
  (lats three_latencies ≠ [] ∧ all_ordinary (lats three_latencies)
   ∧ ascending (lats three_latencies) = true
   ∧ all_ordinary (make_buckets (with_extremes three_latencies))
   ∧ len (lats three_latencies) < GoInt.max_int)
  ∧ ∃ bars, printHistogram (with_extremes three_latencies) = Some bars
      ∧ Count <$> bars !! 6%nat = Some 1
      ∧ Count <$> bars !! 5%nat = Some 0.
Proof.
  assert (H1 : lats three_latencies ≠ []) by (vm_compute; discriminate).
  assert (H2 : all_ordinary (lats three_latencies)).
  { repeat (apply Forall_cons; split; [vm_compute; reflexivity|]).
    apply Forall_nil. done. }
  assert (H3 : ascending (lats three_latencies) = true) by (vm_compute; reflexivity).
  assert (H4 : all_ordinary (make_buckets (with_extremes three_latencies))).
  { repeat (apply Forall_cons; split; [vm_compute; reflexivity|]).
    apply Forall_nil. done. }
  assert (H5 : len (lats three_latencies) < GoInt.max_int) by reflexivity.
  split; [split; [exact H1|split; [exact H2|split; [exact H3|split;
    [exact H4|exact H5]]]]|].
  destruct (histogram_counts_buckets three_latencies H1 H2 H3 H4 H5)
    as (bars & Hp & _ & Hk).
  exists bars. split; [exact Hp|].
  split.
  - rewrite (proj1 (Hk 6%nat ltac:(lia))). vm_compute. reflexivity.
  - rewrite (proj1 (Hk 5%nat ltac:(lia))). vm_compute. reflexivity.
Defined.

(** ** Writing to the header of a clone *)

(** A template whose [Header] is [nil], as [http.Request{}] has it. *)
Definition bare_request : http_Request :=
  mkRequest "GET" 0%nat "HTTP/1.1" 1 1 0%nat 0%nat 0 nil_slice false
    "example.org" 0%nat 0%nat 0%nat 0%nat EmptyString EmptyString 0%nat.

Definition bare_store : store := mkStore {[ 1%nat := bare_request ]} ∅ ∅ ∅ 2%nat.

Section CloneWrites.

Variable growcap : nat → nat.

(** The header map of a clone is a map of its own that [make] returned,
    also where the template's [Header] is [nil]: assigning a key in it
    ([Header.Set]) and deleting one ([Header.Del]) go through, and the clone
    then reads as the template's headers with that key replaced, or
    without it. *)
Theorem clone_header_is_writable (h : store) (r : loc) (body : string)
    (req : http_Request) :
  wf h → requests h !! r = Some req →
  ∃ h' req2,
    cloneRequest growcap h r body = Some (next h, h')
    ∧ requests h' !! next h = Some req2
    ∧ is_Some (headers h' !! Header req2)
    ∧ (∀ k vs, ∃ h'',
         header_write growcap (Header req2) h' (MapAssign k vs) = Some h''
         ∧ header_view h'' (Header req2) = <[k := vs]> (header_view h (Header req)))
    ∧ (∀ k, ∃ h'',
         header_write growcap (Header req2) h' (MapDelete k) = Some h''
         ∧ header_view h'' (Header req2) = delete k (header_view h (Header req))).
Proof.
  intros Hwf Hreq.
  destruct (cloneRequest_frame growcap h r body req Hwf Hreq)
    as (h' & req2 & Hclone & Hreq2 & Heq & _ & _ & _ & Hwf' & Hview & _).
  destruct (cloneRequest_spec growcap h r body req Hwf Hreq)
    as (h'' & b & M & Hclone' & _ & HM & _).
  rewrite Hclone in Hclone'. injection Hclone' as <-.
  assert (HH : Header req2 = S (next h)) by (by rewrite Heq).
  exists h', req2. split; [done|]. split; [done|].
  rewrite HH in *. split; [by eexists|].
  assert (Hold : ∀ k, header_view h (Header req) !! k = slice_elems h' <$> M !! k).
  { intros k. rewrite <- Hview, header_view_lookup. unfold header_entries.
    by rewrite HM. }
  split.
  - intros k vs. unfold header_write. rewrite HM.
    unfold alloc_array, fresh. eexists. split; [reflexivity|].
    apply map_eq. intros k'. rewrite header_view_lookup. unfold header_entries.
    simpl. rewrite lookup_alter_eq, HM. simpl.
    destruct (decide (k = k')) as [<-|Hne].
    + rewrite !lookup_insert_eq. simpl. f_equal.
      unfold slice_elems. simpl. rewrite lookup_insert_eq. simpl.
      by rewrite drop_0, take_app_length.
    + rewrite !lookup_insert_ne by done. rewrite Hold.
      destruct (M !! k') as [s|] eqn:Hs; simpl; [|done]. f_equal.
      apply slice_elems_same. simpl. apply lookup_insert_ne.
      pose proof (wf_values _ Hwf' _ _ HM _ _ Hs) as Hlt. simpl in Hlt. lia.
  - intros k. unfold header_write. rewrite HM.
    eexists. split; [reflexivity|].
    apply map_eq. intros k'. rewrite header_view_lookup. unfold header_entries.
    simpl. rewrite lookup_alter_eq, HM. simpl.
    destruct (decide (k = k')) as [<-|Hne].
    + by rewrite !lookup_delete_eq.
    + rewrite !lookup_delete_ne by done. rewrite Hold.
      destruct (M !! k') as [s|] eqn:Hs; simpl; [|done]. done.
Qed.

End CloneWrites.

Lemma bare_store_wf : wf bare_store.
Proof.
  constructor; apply (bool_decide_unpack _); vm_compute; exact I.
Qed.

Lemma clone_header_is_writable_witness :
  (wf bare_store ∧ requests bare_store !! 1%nat = Some bare_request)
  ∧ header_write id (Header bare_request) bare_store
      (MapAssign "Accept" ["*/*"%string]) = None
  ∧ ∃ h' req2 h'',
      cloneRequest id bare_store 1%nat "Body" = Some (2%nat, h')
      ∧ requests h' !! 2%nat = Some req2
      ∧ header_write id (Header req2) h' (MapAssign "Accept" ["*/*"%string])
        = Some h''
      ∧ header_view h'' (Header req2) !! "Accept"%string = Some ["*/*"%string].
Proof.
  split; [split; [exact bare_store_wf|reflexivity]|].
  split; [reflexivity|].
  destruct (clone_header_is_writable id bare_store 1%nat "Body" bare_request
              bare_store_wf eq_refl)
    as (h' & req2 & Hclone & Hreq2 & _ & Hset & _).
  destruct (Hset "Accept"%string ["*/*"%string]) as (h'' & Hw & Hv).
  exists h', req2, h''. split; [exact Hclone|]. split; [exact Hreq2|].
  split; [exact Hw|]. rewrite Hv. apply lookup_insert_eq.
Defined.
